(** * A binary primitive codec (8-bit pack): typed buffers and primitive codecs

    Shallow embedding of [typedbuffer.ts] (range resolution, endianness
    swaps, typed array constructors) and of [eightpack.ts] (the primitive
    [pack]/[unpack] codecs, the variable-length integer codecs), followed
    by the properties established about them.

    Conventions of the embedding.
    - A JavaScript [number] is modelled by an integer of [Z]; the 32-bit
      coercion of the bitwise operators is written out ([ToInt32]).
    - A [Uint8Array] is a [list Z] whose cells lie in [0, 256); a store to a
      cell applies the [ToUint8] coercion.
    - [undefined] read from an array is [None].
    - Loops are run by [while] with a fuel bound; running out of fuel is
      the outcome [Diverge].
    - Functions that mutate or allocate buffers run on a store
      ([gmap loc (list Z)]) so that aliasing is visible. *)

From Stdlib Require Import ZArith Lia Ascii String.
From stdpp Require Import base numbers option list gmap strings.

Local Open Scope Z_scope.

(** ** Outcomes of a call *)

Inductive res (A : Type) : Type :=
| Ok (a : A)
| RangeError          (* a thrown [RangeError] *)
| Diverge             (* the call does not return *)
| IllTyped.           (* a TypeScript [as] cast applied to a value of another type *)
Arguments Ok {A} a.
Arguments RangeError {A}.
Arguments Diverge {A}.
Arguments IllTyped {A}.

#[global] Instance res_ret : MRet res := fun A a => Ok a.
#[global] Instance res_bind : MBind res := fun A B f m =>
  match m with
  | Ok a => f a
  | RangeError => RangeError
  | Diverge => Diverge
  | IllTyped => IllTyped
  end.
#[global] Instance res_fmap : FMap res := fun A B f m =>
  match m with
  | Ok a => Ok (f a)
  | RangeError => RangeError
  | Diverge => Diverge
  | IllTyped => IllTyped
  end.

(** [while fuel cond body s]: the loop [while (cond) body] started in state
    [s]; [fuel] bounds the number of iterations. *)
Fixpoint while {St : Type} (fuel : nat) (cond : St → bool) (body : St → res St)
    (s : St) : res St :=
  if cond s then
    match fuel with
    | O => Diverge
    | S n => body s ≫= while n cond body
    end
  else Ok s.

(** ** JavaScript number coercions *)

Definition ToInt32 (x : Z) : Z := (x + 2 ^ 31) mod 2 ^ 32 - 2 ^ 31.

(** [undefined] coerces to [NaN] and then to [0] under the bitwise operators. *)
Definition int32_of (x : option Z) : Z :=
  match x with Some v => ToInt32 v | None => 0 end.

Definition js_and (a b : Z) : Z := Z.land (ToInt32 a) (ToInt32 b).
Definition js_or (a b : Z) : Z := Z.lor (ToInt32 a) (ToInt32 b).
Definition js_shr (a n : Z) : Z := Z.shiftr (ToInt32 a) (n mod 32).
Definition js_shl (a n : Z) : Z := ToInt32 (Z.shiftl (ToInt32 a) (n mod 32)).

(** Storing into a cell of a [Uint8Array]. *)
Definition ToUint8 (x : option Z) : Z :=
  match x with Some v => v mod 256 | None => 0 end.

Definition is_u8 (b : Z) : Prop := 0 ≤ b < 256.

(** ** The store of byte buffers *)

Definition loc := positive.
Abbreviation heap := (gmap loc (list Z)).

Definition byteLength (h : heap) (buf : loc) : nat := length (h !!! buf).

(** [buf[i]] *)
Definition heap_get (h : heap) (buf : loc) (i : Z) : option Z :=
  if i <? 0 then None else (h !!! buf) !! Z.to_nat i.

(** [buf[i] = v]; a write past the end of a typed array is dropped. *)
Definition heap_set (h : heap) (buf : loc) (i : nat) (v : option Z) : heap :=
  alter (fun cells => <[i := ToUint8 v]> cells) buf h.

(** [buf.subarray(i, j).reverse()]: the view shares the cells of [buf]. *)
Definition reverse_cells (i j : nat) (cells : list Z) : list Z :=
  take i cells ++ reverse (take (j - i) (drop i cells)) ++ drop j cells.

Definition heap_reverse_subarray (h : heap) (buf : loc) (i j : nat) : heap :=
  alter (reverse_cells i j) buf h.

(** [new Uint8Array(len)] *)
Definition heap_alloc (h : heap) (len : nat) : heap * loc :=
  let p := fresh (dom h) in (<[p := replicate len 0]> h, p).

(** ** typedbuffer: endianness swaps *)

Definition swapEndianess (h : heap) (buf : loc) (bytesize : nat) : res (heap * loc) :=
  let len := byteLength h buf in
  '(_, h') ← while len
      (fun '(i, _) => (i <? len)%nat)
      (fun '(i, h) => Ok ((i + bytesize)%nat,
                          heap_reverse_subarray h buf i (i + bytesize)))
      (0%nat, h);
  Ok (h', buf).

Definition swapEndianessFast (h : heap) (buf : loc) (bytesize : nat) : res (heap * loc) :=
  let len := byteLength h buf in
  let '(h0, swapped_buf) := heap_alloc h len in
  let bs := bytesize in
  '(_, h') ← while bs
      (fun '(offset, _) => (offset <? bs)%nat)
      (fun '(offset, h) =>
         let a : Z := Z.of_nat bs - 1 - Z.of_nat offset * 2 in
         '(_, h') ← while len
             (fun '(i, _) => (i <? len + offset)%nat)
             (fun '(i, h) => Ok ((i + bs)%nat,
                heap_set h swapped_buf i (heap_get h buf (Z.of_nat i + a))))
             (offset, h);
         Ok (S offset, h'))
      (0%nat, h0);
  Ok (h', swapped_buf).

(** ** typedbuffer: range resolution *)

(** [a ?? b] *)
Definition nullish {A : Type} (a : option A) (b : A) : A := default b a.

Definition resolveRange (start end_ : option Z) (length : option Z) (offset : option Z)
    : Z * option Z * option Z :=
  let start := nullish start 0 in
  let offset := nullish offset 0 in
  match length with
  | None => (start + offset, (fun e => e + offset) <$> end_, None)
  | Some length =>
      let end_ := nullish end_ length in
      let start := start + (if 0 <=? start then 0 else length) in
      let end_ := end_ + (if 0 <=? end_ then 0 else length) in
      let length := end_ - start in
      (start + offset, Some (end_ + offset), Some (if 0 <=? length then length else 0))
  end.

(** ** typedbuffer: typed arrays *)

(** What the codec takes from the host: its native byte order, and the
    IEEE-754 layout of the two float element types (a number written to a
    float cell, and a float cell read back as a number), about which
    nothing is assumed. *)
Record Platform : Type := {
  native_le : bool;
  ieee_bytes : nat → Z → list Z;
  ieee_value : nat → list Z → Z;
}.

Inductive TypedArrayConstructor : Type :=
| Uint8Array | Uint8ClampedArray | Uint16Array | Uint32Array
| Int8Array | Int16Array | Int32Array
| Float32Array | Float64Array.

#[global] Instance TypedArrayConstructor_eq_dec : EqDecision TypedArrayConstructor.
Proof. solve_decision. Defined.

Definition BYTES_PER_ELEMENT (c : TypedArrayConstructor) : nat :=
  match c with
  | Uint8Array | Uint8ClampedArray | Int8Array => 1
  | Uint16Array | Int16Array => 2
  | Uint32Array | Int32Array | Float32Array => 4
  | Float64Array => 8
  end.

(** The [w] low bytes of [v], least significant first (two's complement
    for a negative [v]). *)
Fixpoint le_bytes (w : nat) (v : Z) : list Z :=
  match w with
  | O => []
  | S w' => v mod 256 :: le_bytes w' (v / 256)
  end.

Fixpoint le_value (bytes : list Z) : Z :=
  match bytes with
  | [] => 0
  | b :: rest => b + 256 * le_value rest
  end.

Definition host_order (host : Platform) (bytes : list Z) : list Z :=
  if native_le host then bytes else reverse bytes.

(** The cell of a typed array holding the number [v]. *)
Definition element_bytes (host : Platform) (c : TypedArrayConstructor) (v : Z) : list Z :=
  match c with
  | Float32Array | Float64Array => ieee_bytes host (BYTES_PER_ELEMENT c) v
  | Uint8ClampedArray => [Z.max 0 (Z.min 255 v)]
  | _ => host_order host (le_bytes (BYTES_PER_ELEMENT c) v)
  end.

(** The number a cell of a typed array holds. *)
Definition element_value (host : Platform) (c : TypedArrayConstructor) (cell : list Z) : Z :=
  let u := le_value (host_order host cell) in
  match c with
  | Float32Array | Float64Array => ieee_value host (BYTES_PER_ELEMENT c) cell
  | Int8Array | Int16Array | Int32Array =>
      if u <? 2 ^ (8 * Z.of_nat (BYTES_PER_ELEMENT c) - 1) then u
      else u - 2 ^ (8 * Z.of_nat (BYTES_PER_ELEMENT c))
  | _ => u
  end.

Record TypedArray : Type := {
  ta_constructor : TypedArrayConstructor;
  ta_buffer : list Z;
}.

(** [c.from(values)] and [c.of(...values)] *)
Definition TypedArray_from (host : Platform) (c : TypedArrayConstructor) (values : list Z)
    : TypedArray :=
  {| ta_constructor := c; ta_buffer := concat (element_bytes host c <$> values) |}.

(** [new c(buffer)] *)
Definition TypedArray_new (c : TypedArrayConstructor) (buffer : list Z) : res TypedArray :=
  if bool_decide (length buffer mod BYTES_PER_ELEMENT c = 0)%nat
  then Ok {| ta_constructor := c; ta_buffer := buffer |}
  else RangeError.

Fixpoint chunks_fuel (fuel w : nat) (l : list Z) : list (list Z) :=
  match fuel, l with
  | S fuel', _ :: _ => take w l :: chunks_fuel fuel' w (drop w l)
  | _, _ => []
  end.

(** The cells of a buffer, [w] bytes each. *)
Definition chunks (w : nat) (l : list Z) : list (list Z) := chunks_fuel (length l) w l.

(** [Array.from(typed_arr)] *)
Definition Array_from (host : Platform) (typed_arr : TypedArray) : list Z :=
  element_value host (ta_constructor typed_arr)
    <$> chunks (BYTES_PER_ELEMENT (ta_constructor typed_arr)) (ta_buffer typed_arr).

(** ** The diagnostic channel *)

(** A call returns its outcome and what it wrote with [console.error]. *)
Record M (A : Type) : Type := Logged { console : list string; outcome : res A }.
Arguments Logged {A} console outcome.
Arguments console {A} m.
Arguments outcome {A} m.

#[global] Instance M_ret : MRet M := fun A a => Logged [] (Ok a).
#[global] Instance M_bind : MBind M := fun A B f m =>
  match outcome m with
  | Ok a => Logged (console m ++ console (f a)) (outcome (f a))
  | RangeError => Logged (console m) RangeError
  | Diverge => Logged (console m) Diverge
  | IllTyped => Logged (console m) IllTyped
  end.

#[global] Instance M_fmap : FMap M := fun A B f m => Logged (console m) (f <$> outcome m).

Definition lift {A : Type} (r : res A) : M A := Logged [] r.

Definition console_error (msg : string) : M unit := Logged [msg] (Ok ()).

(** ** typedbuffer: typed array constructors by name *)

(** [s[i]], [undefined] past the end *)
Definition char_at (s : string) (i : nat) : option ascii := String.get i s.

(** [a + b] on two results of indexing a string: [undefined] is spelled
    out, and [undefined + undefined] is [NaN], which equals no string. *)
Definition plus_chars (a b : option ascii) : string :=
  match a, b with
  | Some a, Some b => String a (String b EmptyString)
  | Some a, None => String a "undefined"
  | None, Some b => "undefined" +:+ String b EmptyString
  | None, None => "NaN"
  end.

Definition dquote : string := String (ascii_of_nat 34) EmptyString.

Definition unrecognized_type_message : string :=
  "an unrecognized typed array type `" +:+ dquote +:+ "${type}" +:+ dquote +:+ "` was provided".

Definition typed_array_constructor_of (type : string) : M TypedArrayConstructor :=
  if bool_decide (char_at type 2 = Some "c"%char) then mret Uint8ClampedArray
  else
    let type := plus_chars (char_at type 0) (char_at type 1) in
    if String.eqb type "u1" then mret Uint8Array
    else if String.eqb type "u2" then mret Uint16Array
    else if String.eqb type "u4" then mret Uint32Array
    else if String.eqb type "i1" then mret Int8Array
    else if String.eqb type "i2" then mret Int16Array
    else if String.eqb type "i4" then mret Int32Array
    else if String.eqb type "f4" then mret Float32Array
    else if String.eqb type "f8" then mret Float64Array
    else console_error unrecognized_type_message ;; mret Uint8Array.

Definition getEnvironmentEndianess (host : Platform) : bool :=
  bool_decide (ta_buffer (TypedArray_from host Uint32Array [1]) !! 0%nat = Some 1).

Definition env_le (host : Platform) : bool := getEnvironmentEndianess host.

(** [swapEndianessFast] on a buffer that no one else holds: the call runs
    in a store holding that buffer only, and the cells of the buffer it
    returns are read back. *)
Definition swapEndianessFast_bytes (buf : list Z) (bytesize : nat) : res (list Z) :=
  '(h, swapped_buf) ← swapEndianessFast {[ 1%positive := buf ]} 1%positive bytesize;
  Ok (h !!! swapped_buf).

(** ** Array operations of the platform *)

(** An index counted from the end when negative, clamped to the array. *)
Definition relative_index (len : nat) (i : Z) : nat :=
  if i <? 0 then Z.to_nat (Z.max 0 (Z.of_nat len + i)) else Z.to_nat (Z.min i (Z.of_nat len)).

(** [buf.subarray(begin, end)]; [buf.slice(begin, end)] has the same cells. *)
Definition subarray (buf : list Z) (begin : Z) (end_ : option Z) : list Z :=
  let len := length buf in
  let b := relative_index len begin in
  let e := match end_ with Some e => relative_index len e | None => len end in
  take (e - b) (drop b buf).

Definition slice (buf : list Z) (begin : Z) (end_ : option Z) : list Z :=
  subarray buf begin end_.

Fixpoint find_index (x : Z) (l : list Z) (i : Z) : Z :=
  match l with
  | [] => -1
  | y :: rest => if bool_decide (y = x) then i else find_index x rest (i + 1)
  end.

(** [buf.indexOf(x, fromIndex)] *)
Definition indexOf (buf : list Z) (x : Z) (fromIndex : nat) : Z :=
  find_index x (drop fromIndex buf) (Z.of_nat fromIndex).

(** [Uint8Array.from(bytes)] *)
Definition Uint8Array_from (bytes : list Z) : list Z := (fun b => ToUint8 (Some b)) <$> bytes.

(** Text is modelled by its UTF-8 bytes: a string is the sequence of the
    bytes of its encoding. The decoder drops a leading byte order mark, as
    a [TextDecoder] built without options does; an ill-formed sequence,
    which that decoder replaces by U+FFFD, is kept: the decoder of the
    model is that of the code on well-formed UTF-8. *)
Definition TextEncoder_encode (s : string) : list Z :=
  (fun c => Z.of_N (N_of_ascii c)) <$> list_ascii_of_string s.

Definition has_byte_order_mark (bytes : list Z) : bool :=
  bool_decide (take 3 bytes = [239; 187; 191]).

Definition TextDecoder_decode (bytes : list Z) : string :=
  let bytes := if has_byte_order_mark bytes then drop 3 bytes else bytes in
  string_of_list_ascii ((fun b => ascii_of_N (Z.to_N b)) <$> bytes).

(** ** eightpack: values and casts *)

Inductive JSPrimitive : Type :=
| JString (s : string)
| JBoolean (b : bool)
| JNumber (n : Z)
| JArray (a : list Z)          (* [number[]] *)
| JBytes (b : list Z)          (* [Uint8Array] *)
| JUndefined.

(** [value as T]: a type assertion of the source, which is erased when
    the code runs. The codecs are modelled on values of the asserted
    shape. On a value of another shape, where the running code goes on
    with the value as it is, the model stops with [IllTyped]: the
    theorems on [pack] speak of values of the shape their type asks
    for. *)
Definition as_boolean (v : JSPrimitive) : res bool :=
  match v with JBoolean b => Ok b | _ => IllTyped end.
Definition as_string (v : JSPrimitive) : res string :=
  match v with JString s => Ok s | _ => IllTyped end.
Definition as_number (v : JSPrimitive) : res Z :=
  match v with JNumber n => Ok n | _ => IllTyped end.
Definition as_number_array (v : JSPrimitive) : res (list Z) :=
  match v with JArray a => Ok a | _ => IllTyped end.
Definition as_Uint8Array (v : JSPrimitive) : res (list Z) :=
  match v with JBytes b => Ok b | _ => IllTyped end.

(** [Decoded<V>]: the decoded value and the number of bytes it occupied *)
Definition Decoded (V : Type) : Type := V * Z.

(** ** eightpack: booleans, strings and bytes *)

Definition encode_bool (value : bool) : list Z := [if value then 1 else 0].

Definition decode_bool (buf : list Z) (offset : nat) : Decoded bool :=
  (match buf !! offset with Some b => 1 <=? b | None => false end, 1).

Definition encode_cstr (value : string) : list Z :=
  TextEncoder_encode (value +:+ String Ascii.zero EmptyString).

Definition decode_cstr (buf : list Z) (offset : nat) : Decoded string :=
  let offset_end := indexOf buf 0 offset in
  let txt_arr := subarray buf (Z.of_nat offset) (Some offset_end) in
  let value := TextDecoder_decode txt_arr in
  (value, Z.of_nat (length txt_arr) + 1).

Definition encode_str (value : string) : list Z := TextEncoder_encode value.

Definition decode_str (buf : list Z) (offset : nat) (bytesize : option Z) : Decoded string :=
  let offset_end := (fun bytesize => Z.of_nat offset + bytesize) <$> bytesize in
  let txt_arr := subarray buf (Z.of_nat offset) offset_end in
  let value := TextDecoder_decode txt_arr in
  (value, Z.of_nat (length txt_arr)).

Definition encode_bytes (value : list Z) : list Z := value.

Definition decode_bytes (buf : list Z) (offset : nat) (bytesize : option Z)
    : Decoded (list Z) :=
  let offset_end := (fun bytesize => Z.of_nat offset + bytesize) <$> bytesize in
  let value := slice buf (Z.of_nat offset) offset_end in
  (value, Z.of_nat (length value)).

(** ** eightpack: variable-length integers *)

(** [lsb_to_msb[0] &= 0b01111111] *)
Definition clear_continuation (lsb_to_msb : list Z) : list Z :=
  alter (fun b => js_and b 127) 0%nat lsb_to_msb.

(** The body of the loop of [encode_uvar_array], for the item [v]. *)
Definition encode_uvar_item (v : Z) : res (list Z) :=
  let v := v * (if 0 <=? v then 1 else -1) in
  let body : Z * list Z → res (Z * list Z) :=
    fun '(v, lsb_to_msb) => Ok (js_shr v 7, lsb_to_msb ++ [js_and v 127 + 128]) in
  (* do { ... } while (v > 0) *)
  '(_, lsb_to_msb) ← body (v, []) ≫= while 32 (fun '(v, _) => 0 <? v) body;
  Ok (reverse (clear_continuation lsb_to_msb)).

Fixpoint encode_items (item : Z → res (list Z)) (value : list Z) (bytes : list Z)
    : res (list Z) :=
  match value with
  | [] => Ok bytes
  | v :: rest => lsb_to_msb ← item v; encode_items item rest (bytes ++ lsb_to_msb)
  end.

Definition encode_uvar_array (value : list Z) : res (list Z) :=
  bytes ← encode_items encode_uvar_item value [];
  Ok (Uint8Array_from bytes).

Definition encode_uvar (value : Z) : res (list Z) := encode_uvar_array [value].

(** The counter [array_length] of the decoding loops: [Infinity] when no
    count is given. *)
Inductive count : Type := Finite (n : Z) | Infinity.

Definition count_of (array_length : option Z) : count :=
  match array_length with Some n => Finite n | None => Infinity end.
Definition count_positive (c : count) : bool :=
  match c with Finite n => 0 <? n | Infinity => true end.
Definition count_decrement (c : count) : count :=
  match c with Finite n => Finite (n - 1) | Infinity => Infinity end.

(** The state of the loop of [decode_uvar_array]:
    [(byte, offset, array_length, value, array)]. *)
Definition uvar_state : Type := option Z * nat * count * Z * list Z.

Definition decode_uvar_cond (buf_length : nat) (st : uvar_state) : bool :=
  let '(_, offset, array_length, _, _) := st in
  count_positive array_length && (offset <? buf_length + 1)%nat.

Definition decode_uvar_body (buf : list Z) (st : uvar_state) : res uvar_state :=
  let '(byte, offset, array_length, value, array) := st in
  let value := js_shl value 7 in
  let value := value + Z.land (int32_of byte) 127 in
  let '(array_length, value, array) :=
    if Z.shiftr (int32_of byte) 7 =? 0
    then (count_decrement array_length, 0, array ++ [value])
    else (array_length, value, array) in
  Ok (buf !! offset, S offset, array_length, value, array).

Definition decode_uvar_array (buf : list Z) (offset : nat) (array_length : option Z)
    : res (Decoded (list Z)) :=
  let array_length := count_of array_length in
  let offset_start := offset in
  let buf_length := length buf in
  '(_, offset, _, _, array) ←
    while (S buf_length) (decode_uvar_cond buf_length) (decode_uvar_body buf)
      (buf !! offset, S offset, array_length, 0, []);
  let offset := Z.of_nat offset - 1 in
  Ok (array, offset - Z.of_nat offset_start).

(** The body of the loop of [encode_ivar_array], for the item [v]. *)
Definition encode_ivar_item (v : Z) : res (list Z) :=
  let sign := if 0 <=? v then 1 else -1 in
  let v := v * sign in
  '(v, lsb_to_msb) ← while 32 (fun '(v, _) => 63 <? v)
      (fun '(v, lsb_to_msb) => Ok (js_shr v 7, lsb_to_msb ++ [js_and v 127 + 128]))
      (v, []);
  let lsb_to_msb := lsb_to_msb ++ [js_or (js_and v 63) (if sign =? -1 then 192 else 128)] in
  Ok (reverse (clear_continuation lsb_to_msb)).

Definition encode_ivar_array (value : list Z) : res (list Z) :=
  bytes ← encode_items encode_ivar_item value [];
  Ok (Uint8Array_from bytes).

Definition encode_ivar (value : Z) : res (list Z) := encode_ivar_array [value].

(** The state of the loop of [decode_ivar_array]:
    [(byte, offset, array_length, sign, value, array)]. *)
Definition ivar_state : Type := option Z * nat * count * Z * Z * list Z.

Definition decode_ivar_cond (buf_length : nat) (st : ivar_state) : bool :=
  let '(_, offset, array_length, _, _, _) := st in
  count_positive array_length && (offset <? buf_length + 1)%nat.

Definition decode_ivar_body (buf : list Z) (st : ivar_state) : res ivar_state :=
  let '(byte, offset, array_length, sign, value, array) := st in
  let '(sign, value) :=
    if sign =? 0
    then (if 0 <? Z.land (int32_of byte) 64 then -1 else 1, Z.land (int32_of byte) 63)
    else (sign, js_shl value 7 + Z.land (int32_of byte) 127) in
  let '(array_length, sign, value, array) :=
    if Z.shiftr (int32_of byte) 7 =? 0
    then (count_decrement array_length, 0, 0, array ++ [value * sign])
    else (array_length, sign, value, array) in
  Ok (buf !! offset, S offset, array_length, sign, value, array).

Definition decode_ivar_array (buf : list Z) (offset : nat) (array_length : option Z)
    : res (Decoded (list Z)) :=
  let array_length := count_of array_length in
  let offset_start := offset in
  let buf_length := length buf in
  '(_, offset, _, _, _, array) ←
    while (S buf_length) (decode_ivar_cond buf_length) (decode_ivar_body buf)
      (buf !! offset, S offset, array_length, 0, 0, []);
  let offset := Z.of_nat offset - 1 in
  Ok (array, offset - Z.of_nat offset_start).

Definition first_of (value_arr : list Z) : JSPrimitive :=
  match value_arr !! 0%nat with Some v => JNumber v | None => JUndefined end.

Definition decode_uvar (buf : list Z) (offset : nat) : res (Decoded JSPrimitive) :=
  '(value_arr, bytesize) ← decode_uvar_array buf offset (Some 1);
  Ok (first_of value_arr, bytesize).

Definition decode_ivar (buf : list Z) (offset : nat) : res (Decoded JSPrimitive) :=
  '(value_arr, bytesize) ← decode_ivar_array buf offset (Some 1);
  Ok (first_of value_arr, bytesize).

(** ** eightpack: fixed-width numbers *)

(** [parseInt(s)] of one character of a type name; [None] is [NaN]. *)
Definition parseInt (s : option ascii) : option nat :=
  match s with
  | Some c =>
      let n := nat_of_ascii c in
      if (48 <=? n)%nat && (n <=? 57)%nat then Some (n - 48)%nat else None
  | None => None
  end.

Definition is_native_endian_of (host : Platform) (e : option ascii) (bytesize : option nat)
    : bool :=
  (bool_decide (e = Some "l"%char) && env_le host)
  || (bool_decide (e = Some "b"%char) && negb (env_le host))
  || bool_decide (bytesize = Some 1%nat).

(** A byte size that is [NaN] runs no iteration of the loop
    [offset < bs] of [swapEndianessFast], as the byte size 0 does. *)
Definition loop_bound (bytesize : option nat) : nat := default 0%nat bytesize.

Definition encode_number_array (host : Platform) (value : list Z) (type : string)
    : M (list Z) :=
  let t := char_at type 0 in
  let s := char_at type 1 in
  let e := char_at type 2 in
  if bool_decide (s = Some "v"%char) then
    lift (if bool_decide (t = Some "u"%char) then encode_uvar_array value
          else encode_ivar_array value)
  else
    typed_arr_constructor ← typed_array_constructor_of type;
    let bytesize := parseInt s in
    let is_native_endian := is_native_endian_of host e bytesize in
    let typed_arr := TypedArray_from host typed_arr_constructor value in
    if bool_decide (ta_constructor typed_arr = Uint8Array) then mret (ta_buffer typed_arr)
    else
      let buf := ta_buffer typed_arr in
      if is_native_endian then mret buf
      else lift (swapEndianessFast_bytes buf (loop_bound bytesize)).

Definition decode_number_array (host : Platform) (buf : list Z) (offset : nat)
    (type : string) (array_length : option Z) : M (Decoded (list Z)) :=
  let t := char_at type 0 in
  let s := char_at type 1 in
  let e := char_at type 2 in
  if bool_decide (s = Some "v"%char) then
    lift (if bool_decide (t = Some "u"%char) then decode_uvar_array buf offset array_length
          else decode_ivar_array buf offset array_length)
  else
    let bytesize := parseInt s in
    let is_native_endian := is_native_endian_of host e bytesize in
    (* [undefined] and [NaN] are both [None]: the test below takes them alike *)
    let bytelength : option Z :=
      match array_length with
      | Some n => if n =? 0 then None else (fun bs => Z.of_nat bs * n) <$> bytesize
      | None => None
      end in
    let array_buf :=
      slice buf (Z.of_nat offset)
        (match bytelength with
         | Some b => if b =? 0 then None else Some (Z.of_nat offset + b)
         | None => None
         end) in
    let array_bytesize := Z.of_nat (length array_buf) in
    typed_arr_constructor ← typed_array_constructor_of type;
    buffer ← lift (if is_native_endian then Ok array_buf
                   else swapEndianessFast_bytes array_buf (loop_bound bytesize));
    typed_arr ← lift (TypedArray_new typed_arr_constructor buffer);
    mret (Array_from host typed_arr, array_bytesize).

Definition encode_number (host : Platform) (value : Z) (type : string) : M (list Z) :=
  encode_number_array host [value] type.

Definition decode_number (host : Platform) (buf : list Z) (offset : nat) (type : string)
    : M (Decoded JSPrimitive) :=
  '(value_arr, bytesize) ← decode_number_array host buf offset type (Some 1);
  mret (first_of value_arr, bytesize).

(** ** eightpack: the dispatch on the type name *)

(** [s.endsWith(suffix)] *)
Definition endsWith (s suffix : string) : bool :=
  let n := String.length s in
  let m := String.length suffix in
  (m <=? n)%nat && String.eqb (substring (n - m) m s) suffix.

Definition pack (host : Platform) (type : string) (value : JSPrimitive) (args : list Z)
    : M (list Z) :=
  if String.eqb type "bool" then lift (encode_bool <$> as_boolean value)
  else if String.eqb type "cstr" then lift (encode_cstr <$> as_string value)
  else if String.eqb type "str" then lift (encode_str <$> as_string value)
  else if String.eqb type "bytes" then lift (encode_bytes <$> as_Uint8Array value)
  else if endsWith type "[]"
  then value ← lift (as_number_array value); encode_number_array host value type
  else value ← lift (as_number value); encode_number host value type.

Definition unpack (host : Platform) (type : string) (buf : list Z) (offset : nat)
    (args : list Z) : M (Decoded JSPrimitive) :=
  if String.eqb type "bool" then mret (prod_map JBoolean id (decode_bool buf offset))
  else if String.eqb type "cstr" then mret (prod_map JString id (decode_cstr buf offset))
  else if String.eqb type "str"
  then mret (prod_map JString id (decode_str buf offset (head args)))
  else if String.eqb type "bytes"
  then mret (prod_map JBytes id (decode_bytes buf offset (head args)))
  else if endsWith type "[]"
  then prod_map JArray id <$> decode_number_array host buf offset type (head args)
  else decode_number host buf offset type.

(** ** typedbuffer: buffer assembly and comparison *)

(** [outarr.set(arr, offset)] on a [Uint8Array]; an absent offset is 0, and
    an array that does not fit throws. *)
Definition Uint8Array_set (outarr arr : list Z) (offset : option nat) : res (list Z) :=
  let o := default 0%nat offset in
  if (o + length arr <=? length outarr)%nat
  then Ok (take o outarr ++ Uint8Array_from arr ++ drop (o + length arr) outarr)
  else RangeError.

(** [for (const arr of arrs) offsets.push(offsets[offsets.length - 1] + arr.length)];
    the list of offsets is never empty. *)
Fixpoint push_offsets (arrs : list (list Z)) (offsets : list nat) : list nat :=
  match arrs with
  | [] => offsets
  | arr :: rest =>
      push_offsets rest (offsets ++ [(default 0 (last offsets) + length arr)%nat])
  end.

(** [for (const arr of arrs) outarr.set(arr, offsets.shift())] *)
Fixpoint set_each (arrs : list (list Z)) (offsets : list nat) (outarr : list Z)
    : res (list Z) :=
  match arrs with
  | [] => Ok outarr
  | arr :: rest =>
      outarr ← Uint8Array_set outarr arr (head offsets);
      set_each rest (tail offsets) outarr
  end.

Definition concatBytes (arrs : list (list Z)) : res (list Z) :=
  let offsets := push_offsets arrs [0%nat] in
  (* [new Uint8Array(offsets.pop())] *)
  let outarr := replicate (default 0%nat (last offsets)) 0 in
  let offsets := removelast offsets in
  set_each arrs offsets outarr.

(** The loop of [isSubidentical] carries the index and, once the function
    has returned from inside the loop, the value returned. *)
Definition isSubidentical (arr1 arr2 : list Z) : res bool :=
  let len := Nat.min (length arr1) (length arr2) in
  '(_, returned) ← while len
      (fun '(i, returned) => bool_decide (returned = None) && (i <? len)%nat)
      (fun '(i, _) =>
         if bool_decide (arr1 !! i ≠ arr2 !! i) then Ok (i, Some false)
         else Ok (S i, None))
      (0%nat, @None bool);
  Ok (default true returned).

Definition isIdentical (arr1 arr2 : list Z) : res bool :=
  if bool_decide (length arr1 ≠ length arr2) then Ok false
  else isSubidentical arr1 arr2.

(** ** eightpack: cursors and sequences *)


(** [writeTo] mutates [buf] and returns it: the cells of [buf] after the
    call are returned with the new offset. *)
Definition writeTo (host : Platform) (buf : list Z) (offset : nat) (type : string)
    (value : JSPrimitive) (args : list Z) : M (list Z * Z) :=
  value_buf ← pack host type value args;
  buf ← lift (Uint8Array_set buf value_buf (Some offset));
  mret (buf, Z.of_nat offset + Z.of_nat (length value_buf)).





(** ** typedbuffer: slices at regular intervals *)

(** The loop of [sliceSkip] and [sliceSkipTypedSubarray]; [piece] is
    [arr.slice] or [arr.subarray]. While the offset is below the end it
    moves by [slice_length + skip_length]: a loop that ends runs at most
    [end - start] times. A comparison with an end that is [undefined] is
    false. *)
Definition slice_skip_loop (piece : Z → option Z → list Z) (slice_length skip_length : Z)
    (start : Z) (end_ : option Z) : res (list (list Z)) :=
  '(_, out_arr) ← while (Z.to_nat (default 0 end_ - start))
      (fun '(offset, _) => match end_ with Some e => offset <? e | None => false end)
      (fun '(offset, out_arr) =>
         Ok (offset + (slice_length + skip_length),
             out_arr ++ [piece offset (Some (offset + slice_length))]))
      (start, []);
  Ok out_arr.

Definition sliceSkip (arr : list Z) (slice_length skip_length : Z) (start end_ : option Z)
    : res (list (list Z)) :=
  let '(start, end_, _) :=
    resolveRange start end_ (Some (Z.of_nat (length arr))) None in
  slice_skip_loop (slice arr) slice_length skip_length start end_.

Definition sliceSkipTypedSubarray (arr : list Z) (slice_length skip_length : Z)
    (start end_ : option Z) : res (list (list Z)) :=
  let '(start, end_, _) :=
    resolveRange start end_ (Some (Z.of_nat (length arr))) None in
  slice_skip_loop (subarray arr) slice_length skip_length start end_.

(** [Math.ceil(a / b)] for integers [a] and [b], [b] not 0. *)
Definition ceil_div (a b : Z) : Z := - ((- a) / b).

(** [Array(n)] throws a [RangeError] on a length that is not a number,
    infinite (a division by 0) or negative. *)
Definition splitTypedSubarray (arr : list Z) (step : Z) : res (list (list Z)) :=
  if step =? 0 then RangeError
  else
    let n := ceil_div (Z.of_nat (length arr)) step in
    if n <? 0 then RangeError
    else Ok ((fun i : nat =>
                subarray arr (Z.of_nat i * step) (Some (Z.of_nat i * (step + 1))))
             <$> seq 0 (Z.to_nat n)).
(** ** Specification functions used in the statements *)

(** The position mirrored within its [bs]-wide element. *)
Definition mirror (bs x : nat) : nat := (x / bs * bs + (bs - 1 - x mod bs))%nat.

(** Every [bs]-wide element of [cells] with its bytes in reverse order. *)
Definition swapped (bs : nat) (cells : list Z) : list Z :=
  (fun x => cells !!! mirror bs x) <$> seq 0 (length cells).

(** A list given by its cells. *)
Definition tab (n : nat) (f : nat → Z) : list Z := f <$> seq 0 n.

(** The cells of [buf] once the in-place loop has swapped [j] elements. *)
Definition inplace_stage (bs : nat) (cells : list Z) (j x : nat) : Z :=
  if decide (x < j * bs)%nat then cells !!! mirror bs x else cells !!! x.

(** The cells of [swapped_buf] once the copying loops have completed the
    offsets below [o] and [j] elements of offset [o]. *)
Definition fast_stage (bs : nat) (cells : list Z) (o j x : nat) : Z :=
  if decide (x mod bs < o ∨ (x mod bs = o ∧ x / bs < j))%nat
  then cells !!! mirror bs x else 0.

#[global] Instance is_u8_dec b : Decision (is_u8 b).
Proof. unfold is_u8. apply _. Defined.

(** The bounds a call resolves to before the offset is added: the start,
    and the end, each counted from the end of the range when negative. *)
Definition from_end (length i : Z) : Z := if 0 <=? i then i else length + i.

(** The bounds of a resolved range, taken before the offset translation,
    are ordered and not negative. *)
Definition bounds_ordered (offset : Z) (r : Z * option Z * option Z) : Prop :=
  match r with
  | (start, Some end_, _) => 0 ≤ start - offset ∧ start - offset ≤ end_ - offset
  | _ => False
  end.

(** [runs cond body n s s']: [n] iterations of the loop lead from [s] to [s']. *)
Fixpoint runs {St : Type} (cond : St → bool) (body : St → res St) (n : nat) (s s' : St)
    : Prop :=
  match n with
  | O => s = s'
  | S n' => cond s = true ∧ ∃ s1, body s = Ok s1 ∧ runs cond body n' s1 s'
  end.

(** A host for the closed examples: little-endian, float cells left empty. *)
Definition little_endian_host : Platform :=
  {| native_le := true; ieee_bytes := fun _ _ => []; ieee_value := fun _ _ => 0 |}.

Definition big_endian_host : Platform :=
  {| native_le := false; ieee_bytes := fun _ _ => []; ieee_value := fun _ _ => 0 |}.

(** ** Byte streams of variable-length integers *)

(** A byte whose continuation bit is set, and one whose is not. *)
Definition continues (b : Z) : Prop := 128 ≤ b < 256.
Definition terminal (b : Z) : Prop := 0 ≤ b < 128.

(** A self-terminated value: bytes with the continuation bit set, then one
    byte without it. *)
Definition self_terminated (g : list Z) : Prop :=
  ∃ conts t, g = conts ++ [t] ∧ Forall continues conts ∧ terminal t.

(** What the decoding loops accumulate over the bytes of one value. *)
Definition uvar_fold (value : Z) (bytes : list Z) : Z :=
  fold_left (fun acc b => js_shl acc 7 + Z.land (ToInt32 b) 127) bytes value.

Definition ivar_value (g : list Z) : Z :=
  match g with
  | [] => 0
  | b :: rest =>
      uvar_fold (Z.land (ToInt32 b) 63) rest
      * (if 0 <? Z.land (ToInt32 b) 64 then -1 else 1)
  end.

(** A counter that allows [k] more values. *)
Definition count_allows (c : count) (k : nat) : Prop :=
  match c with Finite n => Z.of_nat k ≤ n | Infinity => True end.

Definition count_minus (c : count) (k : nat) : count :=
  match c with Finite n => Finite (n - Z.of_nat k) | Infinity => Infinity end.

(** ** The bytes of variable-length integers *)

(** The base-128 digits of [a], least significant first, taken while [a]
    exceeds [limit], and what is left of [a]. *)
Fixpoint split_digits (limit : Z) (n : nat) (a : Z) : list Z * Z :=
  match n with
  | O => ([], a)
  | S n' =>
      if limit <? a
      then let '(ds, top) := split_digits limit n' (a / 128) in (a mod 128 :: ds, top)
      else ([], a)
  end.

Definition set_continuation (ds : list Z) : list Z := (fun d => d + 128) <$> ds.

(** The encoding of [v] as an unsigned variable-length integer. *)
Definition uvar_bytes (v : Z) : list Z :=
  reverse (set_continuation (split_digits 0 4 (v / 128)).1) ++ [v mod 128].

(** The encoding of [v] as a signed variable-length integer. *)
Definition ivar_bytes (v : Z) : list Z :=
  let s64 := if v <? 0 then 64 else 0 in
  let '(ds, top) := split_digits 63 4 (Z.abs v) in
  match ds with
  | [] => [top + s64]
  | d0 :: ds' => (top + 128 + s64) :: reverse (set_continuation ds') ++ [d0]
  end.

(** ** Type names *)

(** The names the constructor table knows, by their first two characters. *)
Definition recognized_prefixes : list string :=
  ["u1"; "u2"; "u4"; "i1"; "i2"; "i4"; "f4"; "f8"].

(** The fixed-width numeric kinds of the wire vocabulary. *)
Definition numeric_kind_names : list string :=
  ["u1"; "u1c"; "u2"; "u2l"; "u2b"; "u4"; "u4l"; "u4b";
   "i1"; "i2"; "i2l"; "i2b"; "i4"; "i4l"; "i4b";
   "f4"; "f4l"; "f4b"; "f8"; "f8l"; "f8b"].

(** A type name that reaches the last case of the constructor table: its
    third character is not [c] and its first two characters are not a name
    the table knows. *)
Definition falls_through (type : string) : Prop :=
  char_at type 2 ≠ Some "c"%char ∧
  plus_chars (char_at type 0) (char_at type 1) ∉ recognized_prefixes.

(** The store while [swapEndianessFast] runs: the store it was called in,
    and the buffer [q] it allocated, holding [len] bytes. *)
Definition swap_store (h : heap) (q : loc) (len : nat) (h' : heap) : Prop :=
  ∃ out, h' = <[q := out]> h ∧ length out = len ∧ Forall is_u8 out.

(** ** Well-typed values *)

(** The numbers a cell of an integer typed array holds as they are. *)
Definition in_range (c : TypedArrayConstructor) (v : Z) : Prop :=
  match c with
  | Uint8Array | Uint8ClampedArray => 0 ≤ v < 2 ^ 8
  | Uint16Array => 0 ≤ v < 2 ^ 16
  | Uint32Array => 0 ≤ v < 2 ^ 32
  | Int8Array => - 2 ^ 7 ≤ v < 2 ^ 7
  | Int16Array => - 2 ^ 15 ≤ v < 2 ^ 15
  | Int32Array => - 2 ^ 31 ≤ v < 2 ^ 31
  | Float32Array | Float64Array => False
  end.

(** The integer kinds of the wire vocabulary and their element types. *)
Definition integer_kinds : list (string * TypedArrayConstructor) :=
  [("u1", Uint8Array); ("u1c", Uint8ClampedArray);
   ("u2", Uint16Array); ("u2l", Uint16Array); ("u2b", Uint16Array);
   ("u4", Uint32Array); ("u4l", Uint32Array); ("u4b", Uint32Array);
   ("i1", Int8Array);
   ("i2", Int16Array); ("i2l", Int16Array); ("i2b", Int16Array);
   ("i4", Int32Array); ("i4l", Int32Array); ("i4b", Int32Array)].

(** The numbers the variable-length codecs carry through their 32-bit
    arithmetic. *)
Definition uvar_range (v : Z) : Prop := 0 ≤ v < 2 ^ 31.
Definition ivar_range (v : Z) : Prop := - 2 ^ 31 < v < 2 ^ 31.

(** Text without a zero byte, and text that does not start with a byte
    order mark. *)
Definition no_nul (s : string) : Prop := 0 ∉ TextEncoder_encode s.
Definition no_byte_order_mark (s : string) : Prop :=
  has_byte_order_mark (TextEncoder_encode s) = false.


(** ** Cells of float typed arrays *)











(** ** Well-formed text *)





(** ** Type names and the dispatch *)

Definition table_returns (type : string) (c : TypedArrayConstructor) : bool :=
  match typed_array_constructor_of type with
  | Logged [] (Ok c') => bool_decide (c' = c)
  | _ => false
  end.

(** [type] is given to the number codecs by [pack] and [unpack], to the
    array codec when [array] is set. *)
Definition dispatches_to_numbers (type : string) (array : bool) : bool :=
  negb (String.eqb type "bool") && negb (String.eqb type "cstr")
  && negb (String.eqb type "str") && negb (String.eqb type "bytes")
  && Bool.eqb (endsWith type "[]") array.

(** [type] names a fixed-width kind whose cells are those of [c]. *)
Definition kind_check (type : string) (c : TypedArrayConstructor) (array : bool) : bool :=
  dispatches_to_numbers type array
  && negb (bool_decide (char_at type 1 = Some "v"%char))
  && table_returns type c
  && bool_decide (parseInt (char_at type 1) = Some (BYTES_PER_ELEMENT c)).

(** ** Proof automation *)

(** [lia] with the divisions and remainders by constants spelled out. *)
Ltac div_lia := Z.to_euclidean_division_equations; lia.


(** ** Further specification functions *)

(** The offsets at which [concatBytes] places its arguments, the first
    one at [s]. *)
Fixpoint starts (s : nat) (arrs : list (list Z)) : list nat :=
  match arrs with
  | [] => []
  | arr :: rest => s :: starts (s + length arr) rest
  end.

(** ** Values within a stream *)

(** [delimited type value args]: [value] is a value of the type named
    [type] that the codec carries, and [args] are the extra arguments that
    tell [unpack] where the value ends when other bytes follow it: the
    byte length of a text or of bytes, the number of items of an array (of
    at least one item for the fixed-width kinds). *)
Inductive delimited : string → JSPrimitive → list Z → Prop :=
| dl_bool (b : bool) args :
    delimited "bool" (JBoolean b) args
| dl_cstr (s : string) args :
    no_nul s → no_byte_order_mark s →
    delimited "cstr" (JString s) args
| dl_str (s : string) args :
    no_byte_order_mark s → head args = Some (Z.of_nat (length (TextEncoder_encode s))) →
    delimited "str" (JString s) args
| dl_bytes (b : list Z) args :
    Forall is_u8 b → head args = Some (Z.of_nat (length b)) →
    delimited "bytes" (JBytes b) args
| dl_number (name : string) (c : TypedArrayConstructor) (v : Z) args :
    (name, c) ∈ integer_kinds → in_range c v →
    delimited name (JNumber v) args
| dl_number_array (name : string) (c : TypedArrayConstructor) (vs : list Z) args :
    (name, c) ∈ integer_kinds → Forall (in_range c) vs → vs ≠ [] →
    head args = Some (Z.of_nat (length vs)) →
    delimited (name +:+ "[]") (JArray vs) args
| dl_uv (v : Z) args :
    uvar_range v → delimited "uv" (JNumber v) args
| dl_iv (v : Z) args :
    ivar_range v → delimited "iv" (JNumber v) args
| dl_uv_array (vs : list Z) args :
    Forall uvar_range vs → head args = Some (Z.of_nat (length vs)) →
    delimited "uv[]" (JArray vs) args
| dl_iv_array (vs : list Z) args :
    Forall ivar_range vs → head args = Some (Z.of_nat (length vs)) →
    delimited "iv[]" (JArray vs) args.

(** [bytes] are read back as [value] wherever they stand in a buffer,
    whatever precedes and follows them. *)
Definition decodes_in_place (host : Platform) (type : string) (value : JSPrimitive)
    (args : list Z) (bytes : list Z) : Prop :=
  Forall is_u8 bytes ∧
  ∀ pre post : list Z,
    unpack host type (pre ++ bytes ++ post) (length pre) args
    = Logged [] (Ok (value, Z.of_nat (length bytes))).


(** ** Buffers of any length under the swaps *)

(** The cells of [cells] at the mirrored positions, 0 where the mirrored
    position lies beyond the end of [cells]. *)
Definition mirrored (bs : nat) (cells : list Z) : list Z :=
  tab (length cells) (fun x => default 0 (cells !! mirror bs x)).

(** The cells of [swapped_buf], for a buffer of any length, once the
    copying loops have completed the offsets below [o] and [j] elements of
    offset [o]. *)
Definition mirrored_stage (bs : nat) (cells : list Z) (o j x : nat) : Z :=
  if decide (x mod bs < o ∨ (x mod bs = o ∧ x / bs < j))%nat
  then default 0 (cells !! mirror bs x) else 0.

(** The number of elements of [bs] bytes that [len] bytes begin. *)
Definition elements_begun (bs len : nat) : nat := ((len + bs - 1) / bs)%nat.

(** ** Variable-length integers of any size *)

(** The bytes an item encoder returns for [v]. *)
Definition bytes_of (item : Z → res (list Z)) (v : Z) : list Z :=
  match item v with Ok g => g | _ => [] end.

(** A value of at most five bytes that ends itself. *)
Definition framed (g : list Z) : Prop := self_terminated g ∧ (length g ≤ 5)%nat.

(** A count that asks for more than [k] values: no count, or a count
    above [k]. *)
Definition asks_beyond (n : option Z) (k : nat) : Prop :=
  n = None ∨ ∃ m, n = Some m ∧ Z.of_nat k < m.

(** What the loops of the variable-length decoders keep true of the
    offset [off], the counter [c] and the values [arr] decoded so far,
    when started at the offset [o] of a buffer of [len] bytes with the
    count [n]. *)
Definition decode_bounds (o len : nat) (n : option Z) (off : nat) (c : count)
    (arr : list Z) : Prop :=
  (S o ≤ off ≤ S (Nat.max o len))%nat ∧
  (length arr ≤ off - S o)%nat ∧
  c = count_minus (count_of n) (length arr) ∧
  (∀ m, n = Some m → Z.of_nat (length arr) ≤ Z.max 0 m).

(** ** Slices at regular intervals *)

(** The [j]-th piece of [sliceSkip]: it starts [j] steps after [start]. *)
Definition skip_piece (arr : list Z) (slice_length skip_length start : Z) (j : nat)
    : list Z :=
  slice arr (start + Z.of_nat j * (slice_length + skip_length))
    (Some (start + Z.of_nat j * (slice_length + skip_length) + slice_length)).

(** ** Values of the shape a type asks for *)

(** The signature of [pack] ties the value to the type name:
    [JSPrimitive[TypeName]] is a boolean for bool, a string for cstr and
    str, a [Uint8Array] for bytes, an array of numbers for a name that
    ends with the array suffix and a number for any other name. *)
Definition named_type (type : string) : bool :=
  String.eqb type "bool" || String.eqb type "cstr" || String.eqb type "str"
  || String.eqb type "bytes".

Definition has_shape (type : string) (value : JSPrimitive) : bool :=
  match value with
  | JBoolean _ => String.eqb type "bool"
  | JString _ => String.eqb type "cstr" || String.eqb type "str"
  | JBytes _ => String.eqb type "bytes"
  | JArray _ => negb (named_type type) && endsWith type "[]"
  | JNumber _ => negb (named_type type) && negb (endsWith type "[]")
  | JUndefined => false
  end.
(** * Properties *)

Example swapEndianess_ex :
  (fun r => match r with Ok (h, p) => h !! p | _ => None end)
    (swapEndianess {[ 1%positive := [1; 2; 3; 4; 5; 6; 7; 8] ]} 1%positive 4)
  = Some [4; 3; 2; 1; 8; 7; 6; 5].
Proof. vm_compute. reflexivity. Qed.

Example swapEndianessFast_ex :
  (fun r => match r with Ok (h, p) => (h !! 1%positive, h !! p) | _ => (None, None) end)
    (swapEndianessFast {[ 1%positive := [1; 2; 3; 4; 5; 6; 7; 8] ]} 1%positive 4)
  = (Some [1; 2; 3; 4; 5; 6; 7; 8], Some [4; 3; 2; 1; 8; 7; 6; 5]).
Proof. vm_compute. reflexivity. Qed.

(** ** Loops *)

(** A loop whose successive states are [I 0], [I 1], ..., [I n]. *)
Lemma while_states {St : Type} (cond : St → bool) (body : St → res St)
    (I : nat → St) (n fuel : nat) :
  (n ≤ fuel)%nat →
  (∀ j, (j < n)%nat → cond (I j) = true ∧ body (I j) = Ok (I (S j))) →
  cond (I n) = false →
  while fuel cond body (I 0%nat) = Ok (I n).
Proof.
  revert I fuel. induction n as [|n IH]; intros I fuel Hfuel Hstep Hend.
  - destruct fuel; simpl; by rewrite Hend.
  - destruct fuel as [|fuel]; [lia|]. simpl.
    destruct (Hstep 0%nat) as [-> ->]; [lia|]. simpl.
    apply (IH (fun j => I (S j))); [lia| |done].
    intros j Hj. apply Hstep. lia.
Qed.

(** ** Tabulated lists *)

Lemma length_tab n f : length (tab n f) = n.
Proof. unfold tab. by rewrite length_fmap, length_seq. Qed.

Lemma lookup_tab n f i : (i < n)%nat → tab n f !! i = Some (f i).
Proof. intros Hi. unfold tab. by rewrite list_lookup_fmap, lookup_seq_lt. Qed.

Lemma tab_ext n f g : (∀ i, (i < n)%nat → f i = g i) → tab n f = tab n g.
Proof.
  intros Hfg. apply (list_eq_same_length _ _ n); rewrite ?length_tab; try done.
  intros i x y Hi. rewrite !lookup_tab by done. intros [= <-] [= <-]. auto.
Qed.

Lemma tab_lookup_total (l : list Z) : tab (length l) (fun i => l !!! i) = l.
Proof.
  apply (list_eq_same_length _ _ (length l)); rewrite ?length_tab; try done.
  intros i x y Hi. rewrite lookup_tab by done. intros [= <-] Hy.
  by apply list_lookup_total_correct.
Qed.

Lemma tab_insert n f i v :
  <[i := v]> (tab n f) = tab n (fun x => if decide (x = i) then v else f x).
Proof.
  apply (list_eq_same_length _ _ n); rewrite ?length_insert, ?length_tab; try done.
  intros j x y Hj. rewrite lookup_tab by done.
  destruct (decide (j = i)) as [->|Hne].
  - rewrite list_lookup_insert_eq by (by rewrite length_tab). congruence.
  - rewrite list_lookup_insert_ne, lookup_tab by done. congruence.
Qed.

Lemma tab_reverse_cells n f i w :
  (i + w ≤ n)%nat →
  reverse_cells i (i + w) (tab n f)
  = tab n (fun x => if decide (i ≤ x < i + w)%nat then f (i + (i + w - 1 - x))%nat else f x).
Proof.
  intros Hw. unfold reverse_cells.
  assert (Hlen : length (take (i + w - i) (drop i (tab n f))) = w).
  { rewrite length_take, length_drop, length_tab. lia. }
  apply (list_eq_same_length _ _ n).
  { by rewrite length_tab. }
  { rewrite !length_app, length_reverse, Hlen, length_take, length_drop, length_tab. lia. }
  intros j x y Hj. rewrite lookup_tab by done.
  destruct (decide (j < i)%nat) as [Hlt|Hge].
  - rewrite lookup_app_l by (rewrite length_take, length_tab; lia).
    rewrite lookup_take_lt, lookup_tab by lia.
    rewrite decide_False by lia. congruence.
  - rewrite lookup_app_r by (rewrite length_take, length_tab; lia).
    rewrite length_take, length_tab, Nat.min_l by lia.
    destruct (decide (j < i + w)%nat) as [Hin|Hout].
    + rewrite lookup_app_l by (rewrite length_reverse, Hlen; lia).
      rewrite reverse_lookup by (rewrite Hlen; lia).
      rewrite Hlen, lookup_take_lt, lookup_drop, lookup_tab by lia.
      rewrite decide_True by lia.
      intros [= <-] [= <-]. f_equal. lia.
    + rewrite lookup_app_r by (rewrite length_reverse, Hlen; lia).
      rewrite length_reverse, Hlen, lookup_drop, lookup_tab by lia.
      rewrite decide_False by lia.
      intros [= <-] [= <-]. f_equal. lia.
Qed.

(** ** Arithmetic of positions within elements *)

Lemma block_div bs j r : (r < bs)%nat → ((j * bs + r) / bs = j)%nat.
Proof.
  intros Hr. symmetry. apply (Nat.div_unique _ _ _ r); lia.
Qed.

Lemma block_mod bs j r : (r < bs)%nat → ((j * bs + r) mod bs = r)%nat.
Proof.
  intros Hr. symmetry. apply (Nat.mod_unique _ _ j); lia.
Qed.

Lemma block_split bs x :
  (0 < bs)%nat → (x = x / bs * bs + x mod bs ∧ x mod bs < bs)%nat.
Proof.
  intros Hbs. split; [|apply Nat.mod_upper_bound; lia].
  rewrite (Nat.div_mod_eq x bs) at 1. lia.
Qed.

Lemma block_lt bs k x : (0 < bs)%nat → (x < k * bs)%nat → (x / bs < k)%nat.
Proof.
  intros Hbs Hx. apply Nat.Div0.div_lt_upper_bound. lia.
Qed.

Lemma mirror_block bs j r :
  (r < bs)%nat → mirror bs (j * bs + r) = (j * bs + (bs - 1 - r))%nat.
Proof.
  intros Hr. unfold mirror. by rewrite block_div, block_mod.
Qed.

Lemma mirror_lt bs k x : (0 < bs)%nat → (x < k * bs)%nat → (mirror bs x < k * bs)%nat.
Proof.
  intros Hbs Hx. unfold mirror.
  pose proof (block_lt bs k x Hbs Hx). pose proof (block_split bs x Hbs). nia.
Qed.

Lemma mirror_mirror bs x : (0 < bs)%nat → mirror bs (mirror bs x) = x.
Proof.
  intros Hbs. destruct (block_split bs x Hbs) as [Hx Hr].
  unfold mirror at 2. rewrite mirror_block by lia. lia.
Qed.

(** ** The endianness swaps *)

Lemma length_swapped bs cells : length (swapped bs cells) = length cells.
Proof. unfold swapped. by rewrite length_fmap, length_seq. Qed.

Lemma swapped_tab bs cells :
  swapped bs cells = tab (length cells) (fun x => cells !!! mirror bs x).
Proof. done. Qed.

Lemma swapped_u8 bs k cells :
  (0 < bs)%nat → length cells = (k * bs)%nat →
  Forall is_u8 cells → Forall is_u8 (swapped bs cells).
Proof.
  intros Hbs Hlen Hu8. apply Forall_lookup. intros i x.
  rewrite swapped_tab. intros Hi.
  assert (i < length cells)%nat as Hlt.
  { apply lookup_lt_Some in Hi. by rewrite length_tab in Hi. }
  rewrite lookup_tab in Hi by done. injection Hi as <-.
  eapply Forall_lookup_1; [exact Hu8|].
  apply list_lookup_lookup_total_lt. rewrite Hlen. apply mirror_lt; lia.
Qed.

Lemma swapped_involutive bs k cells :
  (0 < bs)%nat → length cells = (k * bs)%nat →
  swapped bs (swapped bs cells) = cells.
Proof.
  intros Hbs Hlen. rewrite (swapped_tab bs (swapped bs cells)), length_swapped.
  etrans; [|apply tab_lookup_total]. apply tab_ext. intros i Hi.
  rewrite swapped_tab.
  rewrite (list_lookup_total_correct _ _ (cells !!! mirror bs (mirror bs i))).
  - by rewrite mirror_mirror.
  - apply lookup_tab. rewrite Hlen. apply mirror_lt; lia.
Qed.

(** [swapped] reverses the leading element and goes on with the rest. *)
Lemma swapped_app bs elem rest :
  length elem = bs →
  swapped bs (elem ++ rest) = reverse elem ++ swapped bs rest.
Proof.
  intros Hlen.
  destruct (decide (bs = 0%nat)) as [->|Hbs0].
  { by destruct elem. }
  apply (list_eq_same_length _ _ (length elem + length rest)).
  { by rewrite length_app, length_reverse, length_swapped. }
  { by rewrite length_swapped, length_app. }
  intros i x y Hi. rewrite swapped_tab, length_app, lookup_tab by done.
  intros [= <-].
  destruct (decide (i < bs)%nat) as [Hlt|Hge].
  - rewrite lookup_app_l by (rewrite length_reverse; lia).
    rewrite reverse_lookup by lia.
    pose proof (mirror_block bs 0 i Hlt) as Hm. simpl in Hm. rewrite Hm.
    rewrite lookup_total_app_l by lia.
    intros Hy. apply list_lookup_total_correct.
    rewrite <- Hy. f_equal. lia.
  - rewrite lookup_app_r by (rewrite length_reverse; lia).
    rewrite length_reverse, swapped_tab, lookup_tab by lia. intros [= <-].
    assert (0 < bs)%nat as Hbs by lia.
    destruct (block_split bs i Hbs) as [Hx Hr].
    assert (1 ≤ i / bs)%nat as Hq by (apply Nat.div_le_lower_bound; lia).
    rewrite lookup_total_app_r.
    2:{ unfold mirror. nia. }
    f_equal. rewrite Hlen.
    replace (i - bs)%nat with ((i / bs - 1) * bs + i mod bs)%nat by nia.
    rewrite mirror_block by done. unfold mirror. nia.
Qed.

Lemma byteLength_lookup (h : heap) p cells :
  h !! p = Some cells → byteLength h p = length cells.
Proof. intros Hp. unfold byteLength. by rewrite lookup_total_alt, Hp. Qed.

Lemma swapEndianess_spec (h : heap) p cells bs k :
  h !! p = Some cells → (0 < bs)%nat → length cells = (k * bs)%nat →
  swapEndianess h p bs = Ok (<[p := swapped bs cells]> h, p).
Proof.
  intros Hp Hbs Hlen. unfold swapEndianess.
  rewrite (byteLength_lookup h p cells Hp).
  set (len := length cells).
  set (I := fun j : nat => ((j * bs)%nat,
                 <[p := tab len (inplace_stage bs cells j)]> h)).
  assert (I 0%nat = (0%nat, h)) as <-.
  { unfold I. f_equal. apply insert_id. rewrite Hp. f_equal. symmetry.
    etrans; [|apply tab_lookup_total]. apply tab_ext. intros i Hi.
    unfold inplace_stage. rewrite decide_False by lia. done. }
  rewrite (while_states _ _ I k).
  - simpl. do 3 f_equal. rewrite swapped_tab. apply tab_ext. intros i Hi.
    unfold inplace_stage. rewrite decide_True by lia. done.
  - subst len. nia.
  - intros j Hj. unfold I. split.
    + apply Nat.ltb_lt. subst len. nia.
    + f_equal. f_equal; [lia|]. unfold heap_reverse_subarray.
      rewrite alter_insert_eq. f_equal.
      rewrite tab_reverse_cells by (subst len; nia).
      apply tab_ext. intros x Hx. unfold inplace_stage.
      case_decide as Hin.
      * rewrite decide_False by lia. rewrite decide_True by lia.
        replace x with (j * bs + (x - j * bs))%nat at 2 by lia.
        rewrite mirror_block by lia. f_equal. lia.
      * destruct (decide (x < j * bs)%nat).
        -- rewrite decide_True by lia. done.
        -- rewrite decide_False by lia. done.
  - unfold I. apply Nat.ltb_ge. subst len. lia.
Qed.

Lemma replicate_tab n : replicate n 0 = tab n (fun _ => 0).
Proof.
  apply (list_eq_same_length _ _ n); rewrite ?length_tab, ?length_replicate; try done.
  intros i x y Hi. rewrite lookup_replicate_2, lookup_tab by done. congruence.
Qed.

Lemma fresh_loc_ne (h : heap) p cells : h !! p = Some cells → fresh (dom h) ≠ p.
Proof.
  intros Hp Heq. apply (is_fresh (dom h)). rewrite Heq. by apply elem_of_dom_2 in Hp.
Qed.

Lemma swapEndianessFast_spec (h : heap) p cells bs k :
  h !! p = Some cells → Forall is_u8 cells →
  (0 < bs)%nat → length cells = (k * bs)%nat →
  swapEndianessFast h p bs
  = Ok (<[fresh (dom h) := swapped bs cells]> h, fresh (dom h)).
Proof.
  intros Hp Hu8 Hbs Hlen. unfold swapEndianessFast, heap_alloc.
  rewrite (byteLength_lookup h p cells Hp).
  pose proof (fresh_loc_ne h p cells Hp) as Hq.
  set (q := fresh (dom h)) in *. set (len := length cells).
  set (I := fun o : nat => (o, <[q := tab len (fast_stage bs cells o 0)]> h)).
  assert (I 0%nat = (0%nat, <[q := replicate len 0]> h)) as <-.
  { unfold I. do 2 f_equal. rewrite replicate_tab. apply tab_ext. intros x Hx.
    unfold fast_stage. rewrite decide_False by lia. done. }
  rewrite (while_states _ _ I bs); [| lia | | unfold I; apply Nat.ltb_ge; lia].
  { simpl. do 3 f_equal. rewrite swapped_tab. apply tab_ext. intros x Hx.
    unfold fast_stage. destruct (block_split bs x Hbs). rewrite decide_True by lia. done. }
  intros o Ho. split; [unfold I; apply Nat.ltb_lt; lia|].
  set (J := fun j : nat => ((j * bs + o)%nat,
                 <[q := tab len (fast_stage bs cells o j)]> h)).
  unfold I at 1.
  match goal with
  | |- context [while ?f ?c ?b ?s] => assert (while f c b s = Ok (J k)) as ->
  end.
  { apply (while_states _ _ J k); [subst len; nia | | unfold J; apply Nat.ltb_ge; subst len; lia].
    intros j Hj. unfold J. split; [apply Nat.ltb_lt; subst len; nia|].
    f_equal. f_equal; [lia|].
    unfold heap_set, heap_get. rewrite alter_insert_eq. f_equal.
    rewrite lookup_total_insert_ne by done. rewrite lookup_total_alt, Hp. simpl.
    assert (Z.of_nat (j * bs + o) + (Z.of_nat bs - 1 - Z.of_nat o * 2)
            = Z.of_nat (j * bs + (bs - 1 - o))) as -> by lia.
    rewrite (proj2 (Z.ltb_ge _ _)) by lia. rewrite Nat2Z.id.
    assert (j * bs + (bs - 1 - o) < length cells)%nat as Hin by nia.
    rewrite (list_lookup_lookup_total_lt cells _ Hin). simpl.
    assert (is_u8 (cells !!! (j * bs + (bs - 1 - o))%nat)) as Hb.
    { eapply Forall_lookup_1; [exact Hu8|]. by apply list_lookup_lookup_total_lt. }
    rewrite Z.mod_small by exact Hb.
    rewrite tab_insert. apply tab_ext. intros x Hx. unfold fast_stage.
    destruct (block_split bs x Hbs) as [Hxs Hxr].
    case_decide as Hx0.
    - subst x. rewrite block_mod, block_div by done.
      rewrite decide_True by lia. by rewrite mirror_block.
    - assert (¬ (x mod bs = o ∧ x / bs = j)%nat) as Hne by (intros [? ?]; nia).
      case_decide; case_decide; try done; lia. }
  simpl. unfold I. do 3 f_equal. apply tab_ext. intros x Hx. unfold fast_stage.
  destruct (block_split bs x Hbs) as [Hxs Hxr].
  pose proof (block_lt bs k x Hbs). 
  case_decide; case_decide; try done; subst len; lia.
Qed.

Lemma multiple_of (n bs : nat) : (n mod bs = 0)%nat → n = (n / bs * bs)%nat.
Proof.
  intros Hmod. pose proof (Nat.div_mod_eq n bs). lia.
Qed.

Lemma swapped_concat bs (elems : list (list Z)) :
  Forall (fun elem => length elem = bs) elems →
  swapped bs (concat elems) = concat (reverse <$> elems).
Proof.
  intros Helems. induction Helems as [|elem elems Hlen _ IH]; [done|].
  rewrite fmap_cons. cbn [concat]. by rewrite swapped_app, IH.
Qed.

(** C4. On a buffer whose length is a multiple of the element width, for
    the widths 2, 4 and 8, the in-place [swapEndianess] and the allocating
    [swapEndianessFast] both return, and the buffer each returns holds the
    same bytes: the elements of the input, each with its bytes in reverse
    order. *)
Theorem swapEndianessFast_equiv_swapEndianess (h : heap) (buf : loc) (cells : list Z)
    (width : nat) :
  h !! buf = Some cells → Forall is_u8 cells →
  width = 2%nat ∨ width = 4%nat ∨ width = 8%nat →
  (length cells mod width = 0)%nat →
  ∃ h1 h2 swapped_buf,
    swapEndianess h buf width = Ok (h1, buf) ∧
    swapEndianessFast h buf width = Ok (h2, swapped_buf) ∧
    h2 !! swapped_buf = h1 !! buf ∧
    h1 !! buf = Some (swapped width cells) ∧
    ∀ elems, cells = concat elems → Forall (fun elem => length elem = width) elems →
             h1 !! buf = Some (concat (reverse <$> elems)).
Proof.
  intros Hbuf Hu8 Hw Hmod.
  assert (0 < width)%nat as Hpos by lia.
  pose proof (multiple_of _ _ Hmod) as Hlen.
  eexists _, _, _. split; [|split; [|split; [|split]]].
  - eapply swapEndianess_spec; eauto.
  - eapply swapEndianessFast_spec; eauto.
  - by rewrite !lookup_insert_eq.
  - by rewrite lookup_insert_eq.
  - intros elems -> Helems. rewrite lookup_insert_eq. f_equal. by apply swapped_concat.
Qed.

Lemma swapEndianessFast_equiv_swapEndianess_witness :
  ∃ h1 h2 swapped_buf,
    swapEndianess {[ 1%positive := [1; 2; 3; 4; 5; 6; 7; 8] ]} 1%positive 4 = Ok (h1, 1%positive) ∧
    swapEndianessFast {[ 1%positive := [1; 2; 3; 4; 5; 6; 7; 8] ]} 1%positive 4
      = Ok (h2, swapped_buf) ∧
    h2 !! swapped_buf = h1 !! 1%positive ∧
    h1 !! 1%positive = Some (swapped 4 [1; 2; 3; 4; 5; 6; 7; 8]) ∧
    ∀ elems, [1; 2; 3; 4; 5; 6; 7; 8] = concat elems →
             Forall (fun elem => length elem = 4%nat) elems →
             h1 !! 1%positive = Some (concat (reverse <$> elems)).
Proof.
  apply (swapEndianessFast_equiv_swapEndianess
           {[ 1%positive := [1; 2; 3; 4; 5; 6; 7; 8] ]} 1%positive
           [1; 2; 3; 4; 5; 6; 7; 8] 4).
  - reflexivity.
  - apply (bool_decide_unpack _). vm_compute. exact I.
  - right. left. reflexivity.
  - reflexivity.
Defined.

(** C10. On a buffer whose length is a multiple of the element width,
    [swapEndianessFast] leaves every buffer of the store it was called in
    unchanged (its argument among them), returns a buffer that was not
    allocated before, and applying it to its own result returns a buffer
    with the bytes of the original. *)
Theorem swapEndianessFast_involutive (h : heap) (buf : loc) (cells : list Z)
    (width : nat) :
  h !! buf = Some cells → Forall is_u8 cells →
  (0 < width)%nat → (length cells mod width = 0)%nat →
  ∃ h1 once h2 twice,
    swapEndianessFast h buf width = Ok (h1, once) ∧
    h !! once = None ∧
    (∀ p, p ∈ dom h → h1 !! p = h !! p) ∧
    h1 !! buf = Some cells ∧
    swapEndianessFast h1 once width = Ok (h2, twice) ∧
    h2 !! twice = Some cells ∧
    h2 !! buf = Some cells.
Proof.
  intros Hbuf Hu8 Hpos Hmod.
  pose proof (multiple_of _ _ Hmod) as Hlen.
  pose proof (fresh_loc_ne h buf cells Hbuf) as Hne.
  set (q := fresh (dom h)) in *.
  set (h1 := <[q := swapped width cells]> h).
  assert (h1 !! q = Some (swapped width cells)) as Hq by apply lookup_insert_eq.
  assert (h1 !! buf = Some cells) as Hbuf1 by (unfold h1; by rewrite lookup_insert_ne).
  exists h1, q, (<[fresh (dom h1) := swapped width (swapped width cells)]> h1), (fresh (dom h1)).
  split; [|split; [|split; [|split; [|split; [|split]]]]].
  - eapply swapEndianessFast_spec; eauto.
  - apply not_elem_of_dom. apply is_fresh.
  - intros p Hp. unfold h1. rewrite lookup_insert_ne; [done|].
    intros <-. by apply (is_fresh (dom h)).
  - done.
  - eapply swapEndianessFast_spec; eauto.
    + eapply swapped_u8; eauto.
    + rewrite length_swapped. eauto.
  - rewrite lookup_insert_eq. f_equal. eapply swapped_involutive; eauto.
  - rewrite lookup_insert_ne; [done|]. eapply fresh_loc_ne; eauto.
Qed.

Lemma swapEndianessFast_involutive_witness :
  ∃ h1 once h2 twice,
    swapEndianessFast {[ 1%positive := [1; 2; 3; 4] ]} 1%positive 2 = Ok (h1, once) ∧
    ({[ 1%positive := [1; 2; 3; 4] ]} : heap) !! once = None ∧
    (∀ p, p ∈ dom ({[ 1%positive := [1; 2; 3; 4] ]} : heap) →
          h1 !! p = ({[ 1%positive := [1; 2; 3; 4] ]} : heap) !! p) ∧
    h1 !! 1%positive = Some [1; 2; 3; 4] ∧
    swapEndianessFast h1 once 2 = Ok (h2, twice) ∧
    h2 !! twice = Some [1; 2; 3; 4] ∧
    h2 !! 1%positive = Some [1; 2; 3; 4].
Proof.
  apply (swapEndianessFast_involutive {[ 1%positive := [1; 2; 3; 4] ]} 1%positive
           [1; 2; 3; 4] 2).
  - reflexivity.
  - apply (bool_decide_unpack _). vm_compute. exact I.
  - lia.
  - reflexivity.
Defined.

(** ** Range resolution *)

(** C5, as stated, fails: a start after the end is returned as it is, and
    a negative index beyond the length stays negative. *)
Lemma resolveRange_bounds_not_ordered :
  resolveRange (Some 3) (Some 1) (Some 10) None = (3, Some 1, Some 0) ∧
  ¬ bounds_ordered 0 (resolveRange (Some 3) (Some 1) (Some 10) None) ∧
  resolveRange (Some (-20)) None (Some 10) None = (-10, Some 10, Some 20) ∧
  ¬ bounds_ordered 0 (resolveRange (Some (-20)) None (Some 10) None).
Proof.
  split; [reflexivity|]. split; [vm_compute; intros [_ H]; by apply H|].
  split; [reflexivity|]. vm_compute. intros [H _]. by apply H.
Qed.

(** C5, amended. With a known non-negative length the call returns the
    triple [(start' + offset, end' + offset, span)] where [start'] is the
    start (0 when absent) and [end'] the end (the length when absent), each
    replaced by [length + value] when negative; [span] is [end' - start'],
    or 0 when that is negative, hence never negative. [start'] and [end']
    are not negative when the index given is at least [-length]; they are
    not clamped, and they are ordered exactly when the span is their
    difference. *)
Theorem resolveRange_spec (start end_ : option Z) (length : Z) (offset : option Z) :
  0 ≤ length →
  ∃ start' end' span,
    resolveRange start end_ (Some length) offset
      = (start' + default 0 offset, Some (end' + default 0 offset), Some span) ∧
    start' = from_end length (default 0 start) ∧
    end' = from_end length (default length end_) ∧
    span = Z.max 0 (end' - start') ∧
    0 ≤ span ∧
    (- length ≤ default 0 start → 0 ≤ start') ∧
    (- length ≤ default length end_ → 0 ≤ end') ∧
    (start' ≤ end' ↔ span = end' - start').
Proof.
  intros Hlen.
  exists (from_end length (default 0 start)), (from_end length (default length end_)).
  eexists. split; [|split; [done|split; [done|split; [reflexivity|]]]].
  - unfold resolveRange, nullish, from_end.
    do 2 f_equal.
    + destruct (0 <=? default 0 start); lia.
    + f_equal. destruct (0 <=? default length end_); lia.
    + f_equal.
      destruct (0 <=? default 0 start), (0 <=? default length end_);
        rewrite ?Z.add_0_r; case_match; lia.
  - unfold from_end.
    destruct (Z.leb_spec 0 (default 0 start)), (Z.leb_spec 0 (default length end_)); lia.
Qed.

Lemma resolveRange_spec_witness :
  ∃ start' end' span,
    resolveRange (Some (-2)) None (Some 10) None
      = (start' + 0, Some (end' + 0), Some span) ∧
    start' = from_end 10 (-2) ∧
    end' = from_end 10 10 ∧
    span = Z.max 0 (end' - start') ∧
    0 ≤ span ∧
    (- 10 ≤ -2 → 0 ≤ start') ∧
    (- 10 ≤ 10 → 0 ≤ end') ∧
    (start' ≤ end' ↔ span = end' - start').
Proof.
  apply (resolveRange_spec (Some (-2)) None 10 None). lia.
Defined.

Example resolveRange_ex1 : resolveRange (Some (-2)) None (Some 10) None = (8, Some 10, Some 2).
Proof. reflexivity. Qed.

Example resolveRange_ex2 : resolveRange None None (Some 5) None = (0, Some 5, Some 5).
Proof. reflexivity. Qed.

(** ** More on loops *)

Lemma runs_app {St : Type} (cond : St → bool) (body : St → res St) n m s1 s2 s3 :
  runs cond body n s1 s2 → runs cond body m s2 s3 → runs cond body (n + m) s1 s3.
Proof.
  revert s1. induction n as [|n IH]; intros s1; simpl.
  - by intros ->.
  - intros [Hc (s & Hb & Hr)] Hm. split; [done|]. exists s. split; [done|]. by apply IH.
Qed.

Lemma while_runs {St : Type} (cond : St → bool) (body : St → res St) n fuel s s' :
  runs cond body n s s' → cond s' = false → (n ≤ fuel)%nat →
  while fuel cond body s = Ok s'.
Proof.
  revert fuel s. induction n as [|n IH]; intros fuel s; simpl.
  - intros -> Hc _. destruct fuel; simpl; by rewrite Hc.
  - intros [Hc (s1 & Hb & Hr)] Hend Hfuel.
    destruct fuel as [|fuel]; [lia|]. simpl. rewrite Hc, Hb. simpl.
    apply IH; [done|done|lia].
Qed.

(** A loop that keeps an invariant and decreases a measure returns. *)
Lemma while_total {St : Type} (cond : St → bool) (body : St → res St)
    (P : St → Prop) (measure : St → nat) :
  (∀ s, P s → cond s = true →
        ∃ s', body s = Ok s' ∧ P s' ∧ (measure s' < measure s)%nat) →
  ∀ fuel s, P s → (measure s ≤ fuel)%nat →
    ∃ s', while fuel cond body s = Ok s' ∧ P s' ∧ cond s' = false.
Proof.
  intros Hstep fuel. induction fuel as [|fuel IH]; intros s HP Hm.
  - destruct (cond s) eqn:Hc.
    + destruct (Hstep s HP Hc) as (s' & _ & _ & Hlt). lia.
    + exists s. simpl. by rewrite Hc.
  - destruct (cond s) eqn:Hc.
    + destruct (Hstep s HP Hc) as (s' & Hb & HP' & Hlt).
      destruct (IH s' HP') as (s'' & Hw & HP'' & Hc''); [lia|].
      exists s''. simpl. rewrite Hc, Hb. simpl. done.
    + exists s. simpl. by rewrite Hc.
Qed.

(** ** The c-string codec *)

Lemma TextEncoder_encode_app s1 s2 :
  TextEncoder_encode (s1 +:+ s2) = TextEncoder_encode s1 ++ TextEncoder_encode s2.
Proof.
  unfold TextEncoder_encode. induction s1 as [|c s1 IH]; simpl; [done|].
  f_equal. exact IH.
Qed.

Lemma encode_cstr_spec s : encode_cstr s = TextEncoder_encode s ++ [0].
Proof. unfold encode_cstr. by rewrite TextEncoder_encode_app. Qed.

Lemma find_index_first x l i0 k :
  l !! k = Some x → (∀ i, (i < k)%nat → l !! i ≠ Some x) →
  find_index x l i0 = i0 + Z.of_nat k.
Proof.
  revert i0 k. induction l as [|y l IH]; intros i0 k Hk Hbefore; [done|].
  simpl. destruct k as [|k].
  - simpl in Hk. injection Hk as ->. rewrite bool_decide_eq_true_2 by done. lia.
  - rewrite bool_decide_eq_false_2.
    2:{ intros ->. by apply (Hbefore 0%nat); [lia|]. }
    rewrite (IH (i0 + 1) k); [lia|done|].
    intros i Hi. apply (Hbefore (S i)). lia.
Qed.

Lemma find_index_none x l i0 :
  (∀ i, l !! i ≠ Some x) → find_index x l i0 = -1.
Proof.
  revert i0. induction l as [|y l IH]; intros i0 Hno; [done|].
  simpl. rewrite bool_decide_eq_false_2.
  2:{ intros ->. by apply (Hno 0%nat). }
  apply IH. intros i. apply (Hno (S i)).
Qed.

Lemma decode_cstr_terminated (buf : list Z) (offset k : nat) :
  (offset ≤ k)%nat → buf !! k = Some 0 →
  (∀ i, (offset ≤ i < k)%nat → buf !! i ≠ Some 0) →
  decode_cstr buf offset
  = (TextDecoder_decode (take (k - offset) (drop offset buf)),
     Z.of_nat (k - offset) + 1).
Proof.
  intros Hle Hk Hbefore. unfold decode_cstr, indexOf.
  pose proof (lookup_lt_Some _ _ _ Hk) as Hlen.
  rewrite (find_index_first 0 (drop offset buf) _ (k - offset)).
  2:{ rewrite lookup_drop. rewrite <- Hk. f_equal. lia. }
  2:{ intros i Hi. rewrite lookup_drop. apply Hbefore. lia. }
  unfold subarray, relative_index.
  rewrite (proj2 (Z.ltb_ge _ _)) by lia. rewrite (proj2 (Z.ltb_ge _ _)) by lia.
  replace (Z.to_nat (Z.min (Z.of_nat offset + Z.of_nat (k - offset)) (Z.of_nat (length buf)))
           - Z.to_nat (Z.min (Z.of_nat offset) (Z.of_nat (length buf))))%nat
    with (k - offset)%nat by lia.
  replace (Z.to_nat (Z.min (Z.of_nat offset) (Z.of_nat (length buf)))) with offset by lia.
  f_equal. rewrite length_take, length_drop. lia.
Qed.

Lemma decode_cstr_unterminated (buf : list Z) (offset : nat) :
  (∀ i, (offset ≤ i)%nat → buf !! i ≠ Some 0) →
  decode_cstr buf offset
  = (TextDecoder_decode (take (length buf - 1 - offset) (drop offset buf)),
     Z.of_nat (length (take (length buf - 1 - offset) (drop offset buf))) + 1).
Proof.
  intros Hno. unfold decode_cstr, indexOf.
  rewrite find_index_none.
  2:{ intros i. rewrite lookup_drop. apply Hno. lia. }
  unfold subarray, relative_index. simpl.
  rewrite (proj2 (Z.ltb_ge _ _)) by lia.
  destruct (decide (offset ≤ length buf)%nat) as [Hin|Hout].
  - replace (Z.to_nat (Z.max 0 (Z.of_nat (length buf) + -1))
             - Z.to_nat (Z.min (Z.of_nat offset) (Z.of_nat (length buf))))%nat
      with (length buf - 1 - offset)%nat by lia.
    replace (Z.to_nat (Z.min (Z.of_nat offset) (Z.of_nat (length buf)))) with offset by lia.
    done.
  - rewrite !(drop_ge buf) by lia. by rewrite !take_nil.
Qed.

(** C7. The c-string codec: a string is encoded as its text bytes followed
    by one zero byte; decoding from [offset] a buffer whose first zero byte
    at or after [offset] is at index [k] yields the text of the bytes from
    [offset] up to [k] and consumes them and the terminator. Encoding "hi"
    yields [104, 105, 0], and decoding that from offset 0 yields ("hi", 3). *)
Theorem cstr_codec (s : string) (buf : list Z) (offset k : nat) :
  (offset ≤ k)%nat → buf !! k = Some 0 →
  (∀ i, (offset ≤ i < k)%nat → buf !! i ≠ Some 0) →
  encode_cstr s = TextEncoder_encode s ++ [0] ∧
  decode_cstr buf offset
    = (TextDecoder_decode (take (k - offset) (drop offset buf)), Z.of_nat (k - offset) + 1) ∧
  encode_cstr "hi" = [104; 105; 0] ∧
  decode_cstr [104; 105; 0] 0 = ("hi"%string, 3).
Proof.
  intros Hle Hk Hbefore. split; [apply encode_cstr_spec|].
  split; [by apply decode_cstr_terminated|]. split; reflexivity.
Qed.

Lemma cstr_codec_witness :
  encode_cstr "hi" = TextEncoder_encode "hi" ++ [0] ∧
  decode_cstr [104; 105; 0] 0
    = (TextDecoder_decode (take (2 - 0) (drop 0 [104; 105; 0])), Z.of_nat (2 - 0) + 1) ∧
  encode_cstr "hi" = [104; 105; 0] ∧
  decode_cstr [104; 105; 0] 0 = ("hi"%string, 3).
Proof.
  apply (cstr_codec "hi" [104; 105; 0] 0 2).
  - lia.
  - reflexivity.
  - intros i Hi. destruct i as [|[|i]]; simpl; [discriminate|discriminate|lia].
Defined.

(** C9, as stated, fails when nothing is left of the buffer at [offset]:
    no zero byte follows, zero bytes remain, and one byte is reported. *)
Lemma decode_cstr_nothing_left :
  (∀ i, (2 ≤ i)%nat → [104; 105] !! i ≠ Some 0) ∧
  decode_cstr [104; 105] 2 = (""%string, 1) ∧
  snd (decode_cstr [104; 105] 2) ≠ Z.of_nat (length [104; 105]) - Z.of_nat 2.
Proof.
  split; [|split; [reflexivity|vm_compute; discriminate]].
  intros i Hi. destruct i as [|[|i]]; [lia|lia|]. simpl. discriminate.
Qed.

(** C9, amended. When no zero byte lies at or after [offset] and [offset]
    lies before the end of the buffer, [decode_cstr] returns the text of
    the bytes from [offset] up to the last byte of the buffer, that byte
    left out, and reports every byte from [offset] to the end of the buffer
    as consumed. *)
Theorem decode_cstr_without_terminator (buf : list Z) (offset : nat) :
  (offset < length buf)%nat →
  (∀ i, (offset ≤ i)%nat → buf !! i ≠ Some 0) →
  decode_cstr buf offset
  = (TextDecoder_decode (take (length buf - 1 - offset) (drop offset buf)),
     Z.of_nat (length buf) - Z.of_nat offset).
Proof.
  intros Hlt Hno. rewrite decode_cstr_unterminated by done.
  f_equal. rewrite length_take, length_drop. lia.
Qed.

Lemma decode_cstr_without_terminator_witness :
  decode_cstr [104; 105; 106] 1
  = (TextDecoder_decode (take (length [104; 105; 106] - 1 - 1) (drop 1 [104; 105; 106])),
     Z.of_nat (length [104; 105; 106]) - Z.of_nat 1).
Proof.
  apply (decode_cstr_without_terminator [104; 105; 106] 1).
  - simpl. lia.
  - intros i Hi. destruct i as [|[|[|i]]]; simpl; discriminate.
Defined.

(** ** Variable-length integers: the boundary tables *)

(** C2. The unsigned variable-length encoder on the boundary values. *)
Theorem encode_uvar_boundary_table :
  encode_uvar 0 = Ok [0] ∧
  encode_uvar 127 = Ok [127] ∧
  encode_uvar 128 = Ok [129; 0] ∧
  encode_uvar 16383 = Ok [255; 127] ∧
  encode_uvar 16384 = Ok [129; 128; 0] ∧
  encode_uvar_array [0; 127; 128; 16383; 16384]
    = Ok [0; 127; 129; 0; 255; 127; 129; 128; 0].
Proof. repeat split; vm_compute; reflexivity. Qed.

(** ** Decoding streams of variable-length integers *)

Lemma ToInt32_small x : - 2 ^ 31 ≤ x < 2 ^ 31 → ToInt32 x = x.
Proof. intros Hx. unfold ToInt32. rewrite Z.mod_small; lia. Qed.

Lemma int32_of_byte b : 0 ≤ b < 256 → int32_of (Some b) = b.
Proof. intros Hb. simpl. apply ToInt32_small. lia. Qed.

Lemma shiftr7_byte b : 0 ≤ b < 256 → Z.shiftr (int32_of (Some b)) 7 = b / 128.
Proof. intros Hb. rewrite int32_of_byte by done. by rewrite Z.shiftr_div_pow2. Qed.

Lemma shiftr7_continues b : continues b → (Z.shiftr (int32_of (Some b)) 7 =? 0) = false.
Proof.
  intros Hb. unfold continues in Hb. rewrite shiftr7_byte by lia.
  apply Z.eqb_neq. assert (1 ≤ b / 128); [|lia]. apply Z.div_le_lower_bound; lia.
Qed.

Lemma shiftr7_terminal t : terminal t → (Z.shiftr (int32_of (Some t)) 7 =? 0) = true.
Proof.
  intros Ht. unfold terminal in Ht. rewrite shiftr7_byte by lia.
  apply Z.eqb_eq. apply Z.div_small. lia.
Qed.

Lemma count_positive_allows c k : count_allows c (S k) → count_positive c = true.
Proof. destruct c; simpl; [|done]. intros H. apply Z.ltb_lt. lia. Qed.

Lemma count_decrement_minus c k :
  count_minus (count_decrement c) k = count_minus c (S k).
Proof. destruct c; simpl; [|done]. f_equal. lia. Qed.

Lemma count_allows_decrement c k : count_allows c (S k) → count_allows (count_decrement c) k.
Proof. destruct c; simpl; [|done]. lia. Qed.

Lemma count_minus_0 c : count_minus c 0 = c.
Proof. destruct c; simpl; [|done]. f_equal. lia. Qed.

(** One self-terminated value, decoded by the loop of [decode_uvar_array]. *)
Lemma uvar_value_runs (buf conts : list Z) (t : Z) :
  Forall continues conts → terminal t →
  ∀ (o : nat) (c : count) (value : Z) (arr : list Z),
    (∀ i x, conts !! i = Some x → buf !! (o + i)%nat = Some x) →
    buf !! (o + length conts)%nat = Some t →
    count_positive c = true →
    runs (decode_uvar_cond (length buf)) (decode_uvar_body buf) (S (length conts))
      (buf !! o, S o, c, value, arr)
      (buf !! (S (o + length conts)), S (S (o + length conts)),
       count_decrement c, 0, arr ++ [uvar_fold value (conts ++ [t])]).
Proof.
  intros Hconts Ht. induction Hconts as [|b conts Hb _ IH]; intros o c value arr Hpre Hlast Hc.
  - simpl in Hlast. rewrite Nat.add_0_r in Hlast. simpl. rewrite Nat.add_0_r.
    pose proof (lookup_lt_Some _ _ _ Hlast) as Hlt.
    split.
    { rewrite Hc. simpl. apply Nat.ltb_lt. lia. }
    eexists. split; [|reflexivity].
    unfold decode_uvar_body. rewrite Hlast. rewrite (shiftr7_terminal t Ht). done.
  - assert (buf !! o = Some b) as Hob.
    { rewrite <- (Nat.add_0_r o). by apply Hpre. }
    pose proof (lookup_lt_Some _ _ _ Hob) as Hlt.
    change (S (length (b :: conts))) with (S (S (length conts))).
    split.
    { simpl. rewrite Hc. simpl. apply Nat.ltb_lt. lia. }
    eexists. split.
    { unfold decode_uvar_body. rewrite Hob. rewrite (shiftr7_continues b Hb). reflexivity. }
    replace (S (o + length (b :: conts)))%nat with (S (S o + length conts))%nat by (simpl; lia).
    change ((b :: conts) ++ [t]) with (b :: (conts ++ [t])).
    apply IH; [|simpl in Hlast; rewrite <- Hlast; f_equal; lia|done].
    intros i x Hi. rewrite <- (Hpre (S i) x Hi). f_equal. lia.
Qed.

Lemma runs_cast {St : Type} (cond : St → bool) (body : St → res St) n n' s s1 s2 :
  runs cond body n s s1 → n = n' → s1 = s2 → runs cond body n' s s2.
Proof. by intros H <- <-. Qed.

Lemma drop_lookup_prefix (buf g tail : list Z) (o : nat) :
  drop o buf = g ++ tail →
  ∀ i x, g !! i = Some x → buf !! (o + i)%nat = Some x.
Proof.
  intros Hdrop i x Hi. rewrite <- lookup_drop, Hdrop. by apply lookup_app_l_Some.
Qed.

Lemma drop_lookup_after (buf conts tail : list Z) (t : Z) (o : nat) :
  drop o buf = (conts ++ [t]) ++ tail → buf !! (o + length conts)%nat = Some t.
Proof.
  intros Hdrop. rewrite <- lookup_drop, Hdrop, <- app_assoc.
  rewrite lookup_app_r by lia. by rewrite Nat.sub_diag.
Qed.

Lemma drop_after_value (buf g tail : list Z) (o : nat) :
  drop o buf = g ++ tail → drop (o + length g) buf = tail.
Proof.
  intros Hdrop. rewrite <- drop_drop, Hdrop. by rewrite drop_app_length.
Qed.

(** A run of self-terminated values, decoded by the loop of [decode_uvar_array]. *)
Lemma uvar_values_runs (buf : list Z) (values : list (list Z)) :
  Forall self_terminated values →
  ∀ (rest : list Z) (o : nat) (c : count) (arr : list Z),
    drop o buf = concat values ++ rest →
    count_allows c (length values) →
    runs (decode_uvar_cond (length buf)) (decode_uvar_body buf) (length (concat values))
      (buf !! o, S o, c, 0, arr)
      (buf !! (o + length (concat values))%nat, S (o + length (concat values)),
       count_minus c (length values), 0, arr ++ (uvar_fold 0 <$> values)).
Proof.
  intros Hvalues.
  induction Hvalues as [|g values (conts & t & -> & Hconts & Ht) _ IH];
    intros rest o c arr Hdrop Hc.
  - simpl. by rewrite Nat.add_0_r, count_minus_0, app_nil_r.
  - simpl in Hdrop. rewrite <- app_assoc in Hdrop.
    pose proof (uvar_value_runs buf conts t Hconts Ht o c 0 arr
                  (drop_lookup_prefix _ _ _ _
                     (eq_trans Hdrop (eq_sym (app_assoc _ _ _))))
                  (drop_lookup_after _ _ _ _ _ Hdrop)
                  (count_positive_allows _ _ Hc)) as Hone.
    pose proof (drop_after_value _ _ _ _ Hdrop) as Hdrop'.
    rewrite length_app in Hdrop'. simpl in Hdrop'.
    replace (o + (length conts + 1))%nat with (S (o + length conts)) in Hdrop' by lia.
    pose proof (IH rest _ _ (arr ++ [uvar_fold 0 (conts ++ [t])]) Hdrop'
                  (count_allows_decrement _ _ Hc)) as Hrest.
    eapply runs_cast; [exact (runs_app _ _ _ _ _ _ _ Hone Hrest)| |].
    + simpl. rewrite !length_app. simpl. lia.
    + simpl. rewrite !length_app. simpl.
      rewrite count_decrement_minus, <- app_assoc. simpl.
      repeat f_equal; lia.
Qed.

Lemma decode_uvar_body_unbounded (buf : list Z) byte o value arr :
  ∃ value' arr',
    decode_uvar_body buf (byte, o, Infinity, value, arr)
    = Ok (buf !! o, S o, Infinity, value', arr').
Proof.
  unfold decode_uvar_body. destruct (Z.shiftr (int32_of byte) 7 =? 0); simpl; eauto.
Qed.

(** Without a count the loop of [decode_uvar_array] runs once per byte left. *)
Lemma uvar_unbounded_runs (buf : list Z) (k : nat) :
  ∀ (o : nat) (byte : option Z) (value : Z) (arr : list Z),
    (o + k ≤ length buf)%nat →
    ∃ byte' value' arr',
      runs (decode_uvar_cond (length buf)) (decode_uvar_body buf) k
        (byte, S o, Infinity, value, arr) (byte', S (o + k), Infinity, value', arr').
Proof.
  induction k as [|k IH]; intros o byte value arr Hk.
  - exists byte, value, arr. simpl. by rewrite Nat.add_0_r.
  - destruct (decode_uvar_body_unbounded buf byte (S o) value arr)
      as (value1 & arr1 & Hbody).
    destruct (IH (S o) (buf !! S o) value1 arr1) as (byte' & value' & arr' & Hruns); [lia|].
    exists byte', value', arr'. simpl. split.
    { apply Nat.ltb_lt. lia. }
    eexists. split; [exact Hbody|].
    eapply runs_cast; [exact Hruns|done|]. by rewrite Nat.add_succ_r.
Qed.

Lemma length_concat_le_drop (buf : list Z) (values : list (list Z)) (rest : list Z) o :
  drop o buf = concat values ++ rest →
  (length (concat values) + length rest = length buf - o)%nat.
Proof.
  intros Hdrop. apply (f_equal length) in Hdrop.
  rewrite length_drop, length_app in Hdrop. lia.
Qed.

Lemma decode_uvar_array_counted (buf : list Z) (o : nat) (values : list (list Z))
    (rest : list Z) :
  drop o buf = concat values ++ rest → Forall self_terminated values →
  decode_uvar_array buf o (Some (Z.of_nat (length values)))
  = Ok (uvar_fold 0 <$> values, Z.of_nat (length (concat values))).
Proof.
  intros Hdrop Hvalues. unfold decode_uvar_array.
  pose proof (length_concat_le_drop _ _ _ _ Hdrop) as Hlen.
  assert (count_allows (count_of (Some (Z.of_nat (length values)))) (length values))
    as Hc by (simpl; lia).
  pose proof (uvar_values_runs buf values Hvalues rest o _ [] Hdrop Hc) as Hruns.
  rewrite (while_runs _ _ _ (S (length buf)) _ _ Hruns).
  - simpl. do 2 f_equal. lia.
  - simpl. rewrite Z.sub_diag. done.
  - lia.
Qed.

Lemma decode_uvar_array_all (buf : list Z) (o : nat) (values : list (list Z)) :
  drop o buf = concat values → Forall self_terminated values →
  decode_uvar_array buf o None
  = Ok (uvar_fold 0 <$> values, Z.of_nat (length (concat values))).
Proof.
  intros Hdrop Hvalues. unfold decode_uvar_array.
  rewrite <- (app_nil_r (concat values)) in Hdrop.
  pose proof (length_concat_le_drop _ _ _ _ Hdrop) as Hlen. simpl in Hlen.
  assert (count_allows (count_of None) (length values)) as Hc by done.
  pose proof (uvar_values_runs buf values Hvalues [] o _ [] Hdrop Hc) as Hruns.
  rewrite (while_runs _ _ _ (S (length buf)) _ _ Hruns).
  - simpl. do 2 f_equal. lia.
  - simpl. apply Nat.ltb_ge. lia.
  - lia.
Qed.

Lemma decode_uvar_array_unbounded (buf : list Z) (o : nat) :
  (o ≤ length buf)%nat →
  ∃ arr, decode_uvar_array buf o None = Ok (arr, Z.of_nat (length buf) - Z.of_nat o).
Proof.
  intros Ho. unfold decode_uvar_array, count_of.
  destruct (uvar_unbounded_runs buf (length buf - o) o (buf !! o) 0 [])
    as (byte' & value' & arr' & Hruns); [lia|].
  exists arr'. rewrite (while_runs _ _ _ (S (length buf)) _ _ Hruns).
  - simpl. do 2 f_equal. lia.
  - simpl. apply Nat.ltb_ge. lia.
  - lia.
Qed.

(** The same for the loop of [decode_ivar_array]. *)
Lemma ivar_tail_runs (buf conts : list Z) (t : Z) :
  Forall continues conts → terminal t →
  ∀ (o : nat) (c : count) (sign value : Z) (arr : list Z),
    sign ≠ 0 →
    (∀ i x, conts !! i = Some x → buf !! (o + i)%nat = Some x) →
    buf !! (o + length conts)%nat = Some t →
    count_positive c = true →
    runs (decode_ivar_cond (length buf)) (decode_ivar_body buf) (S (length conts))
      (buf !! o, S o, c, sign, value, arr)
      (buf !! (S (o + length conts)), S (S (o + length conts)),
       count_decrement c, 0, 0, arr ++ [uvar_fold value (conts ++ [t]) * sign]).
Proof.
  intros Hconts Ht.
  induction Hconts as [|b conts Hb _ IH]; intros o c sign value arr Hs Hpre Hlast Hc.
  - simpl in Hlast. rewrite Nat.add_0_r in Hlast. simpl. rewrite Nat.add_0_r.
    pose proof (lookup_lt_Some _ _ _ Hlast) as Hlt.
    split.
    { rewrite Hc. simpl. apply Nat.ltb_lt. lia. }
    eexists. split; [|reflexivity].
    unfold decode_ivar_body. rewrite Hlast. rewrite (shiftr7_terminal t Ht).
    rewrite (proj2 (Z.eqb_neq sign 0) Hs). done.
  - assert (buf !! o = Some b) as Hob.
    { rewrite <- (Nat.add_0_r o). by apply Hpre. }
    pose proof (lookup_lt_Some _ _ _ Hob) as Hlt.
    change (S (length (b :: conts))) with (S (S (length conts))).
    split.
    { simpl. rewrite Hc. simpl. apply Nat.ltb_lt. lia. }
    eexists. split.
    { unfold decode_ivar_body. rewrite Hob. rewrite (shiftr7_continues b Hb).
      rewrite (proj2 (Z.eqb_neq sign 0) Hs). reflexivity. }
    replace (S (o + length (b :: conts)))%nat with (S (S o + length conts))%nat by (simpl; lia).
    change ((b :: conts) ++ [t]) with (b :: (conts ++ [t])).
    apply IH; [done| |simpl in Hlast; rewrite <- Hlast; f_equal; lia|done].
    intros i x Hi. rewrite <- (Hpre (S i) x Hi). f_equal. lia.
Qed.

Lemma ivar_value_runs (buf conts : list Z) (t : Z) :
  Forall continues conts → terminal t →
  ∀ (o : nat) (c : count) (arr : list Z),
    (∀ i x, conts !! i = Some x → buf !! (o + i)%nat = Some x) →
    buf !! (o + length conts)%nat = Some t →
    count_positive c = true →
    runs (decode_ivar_cond (length buf)) (decode_ivar_body buf) (S (length conts))
      (buf !! o, S o, c, 0, 0, arr)
      (buf !! (S (o + length conts)), S (S (o + length conts)),
       count_decrement c, 0, 0, arr ++ [ivar_value (conts ++ [t])]).
Proof.
  intros Hconts Ht o c arr Hpre Hlast Hc.
  destruct Hconts as [|b conts Hb Hconts].
  - simpl in Hlast. rewrite Nat.add_0_r in Hlast. simpl. rewrite Nat.add_0_r.
    pose proof (lookup_lt_Some _ _ _ Hlast) as Hlt.
    split.
    { rewrite Hc. simpl. apply Nat.ltb_lt. lia. }
    eexists. split; [|reflexivity].
    unfold decode_ivar_body. rewrite Hlast. rewrite (shiftr7_terminal t Ht). done.
  - assert (buf !! o = Some b) as Hob.
    { rewrite <- (Nat.add_0_r o). by apply Hpre. }
    pose proof (lookup_lt_Some _ _ _ Hob) as Hlt.
    change (S (length (b :: conts))) with (S (S (length conts))).
    split.
    { simpl. rewrite Hc. simpl. apply Nat.ltb_lt. lia. }
    eexists. split.
    { unfold decode_ivar_body. rewrite Hob. rewrite (shiftr7_continues b Hb). reflexivity. }
    replace (S (o + length (b :: conts)))%nat with (S (S o + length conts))%nat by (simpl; lia).
    change (ivar_value ((b :: conts) ++ [t]))
      with (uvar_fold (Z.land (ToInt32 b) 63) (conts ++ [t])
            * (if 0 <? Z.land (ToInt32 b) 64 then -1 else 1)).
    apply ivar_tail_runs; [done|done| | |simpl in Hlast; rewrite <- Hlast; f_equal; lia|done].
    + by destruct (0 <? Z.land (ToInt32 b) 64).
    + intros i x Hi. rewrite <- (Hpre (S i) x Hi). f_equal. lia.
Qed.

Lemma ivar_values_runs (buf : list Z) (values : list (list Z)) :
  Forall self_terminated values →
  ∀ (rest : list Z) (o : nat) (c : count) (arr : list Z),
    drop o buf = concat values ++ rest →
    count_allows c (length values) →
    runs (decode_ivar_cond (length buf)) (decode_ivar_body buf) (length (concat values))
      (buf !! o, S o, c, 0, 0, arr)
      (buf !! (o + length (concat values))%nat, S (o + length (concat values)),
       count_minus c (length values), 0, 0, arr ++ (ivar_value <$> values)).
Proof.
  intros Hvalues.
  induction Hvalues as [|g values (conts & t & -> & Hconts & Ht) _ IH];
    intros rest o c arr Hdrop Hc.
  - simpl. by rewrite Nat.add_0_r, count_minus_0, app_nil_r.
  - simpl in Hdrop. rewrite <- app_assoc in Hdrop.
    pose proof (ivar_value_runs buf conts t Hconts Ht o c arr
                  (drop_lookup_prefix _ _ _ _
                     (eq_trans Hdrop (eq_sym (app_assoc _ _ _))))
                  (drop_lookup_after _ _ _ _ _ Hdrop)
                  (count_positive_allows _ _ Hc)) as Hone.
    pose proof (drop_after_value _ _ _ _ Hdrop) as Hdrop'.
    rewrite length_app in Hdrop'. simpl in Hdrop'.
    replace (o + (length conts + 1))%nat with (S (o + length conts)) in Hdrop' by lia.
    pose proof (IH rest _ _ (arr ++ [ivar_value (conts ++ [t])]) Hdrop'
                  (count_allows_decrement _ _ Hc)) as Hrest.
    eapply runs_cast; [exact (runs_app _ _ _ _ _ _ _ Hone Hrest)| |].
    + simpl. rewrite !length_app. simpl. lia.
    + rewrite count_decrement_minus, <- app_assoc.
      change (concat ((conts ++ [t]) :: values)) with ((conts ++ [t]) ++ concat values).
      rewrite !length_app. simpl length.
      replace (S (o + length conts) + length (concat values))%nat
        with (o + (length conts + 1 + length (concat values)))%nat by lia.
      done.
Qed.

Lemma decode_ivar_body_unbounded (buf : list Z) byte o sign value arr :
  ∃ sign' value' arr',
    decode_ivar_body buf (byte, o, Infinity, sign, value, arr)
    = Ok (buf !! o, S o, Infinity, sign', value', arr').
Proof.
  unfold decode_ivar_body.
  destruct (sign =? 0); destruct (Z.shiftr (int32_of byte) 7 =? 0); simpl; eauto.
Qed.

Lemma ivar_unbounded_runs (buf : list Z) (k : nat) :
  ∀ (o : nat) (byte : option Z) (sign value : Z) (arr : list Z),
    (o + k ≤ length buf)%nat →
    ∃ byte' sign' value' arr',
      runs (decode_ivar_cond (length buf)) (decode_ivar_body buf) k
        (byte, S o, Infinity, sign, value, arr)
        (byte', S (o + k), Infinity, sign', value', arr').
Proof.
  induction k as [|k IH]; intros o byte sign value arr Hk.
  - exists byte, sign, value, arr. simpl. by rewrite Nat.add_0_r.
  - destruct (decode_ivar_body_unbounded buf byte (S o) sign value arr)
      as (sign1 & value1 & arr1 & Hbody).
    destruct (IH (S o) (buf !! S o) sign1 value1 arr1)
      as (byte' & sign' & value' & arr' & Hruns); [lia|].
    exists byte', sign', value', arr'. simpl. split.
    { apply Nat.ltb_lt. lia. }
    eexists. split; [exact Hbody|].
    eapply runs_cast; [exact Hruns|done|]. by rewrite Nat.add_succ_r.
Qed.

Lemma decode_ivar_array_counted (buf : list Z) (o : nat) (values : list (list Z))
    (rest : list Z) :
  drop o buf = concat values ++ rest → Forall self_terminated values →
  decode_ivar_array buf o (Some (Z.of_nat (length values)))
  = Ok (ivar_value <$> values, Z.of_nat (length (concat values))).
Proof.
  intros Hdrop Hvalues. unfold decode_ivar_array.
  pose proof (length_concat_le_drop _ _ _ _ Hdrop) as Hlen.
  assert (count_allows (count_of (Some (Z.of_nat (length values)))) (length values))
    as Hc by (simpl; lia).
  pose proof (ivar_values_runs buf values Hvalues rest o _ [] Hdrop Hc) as Hruns.
  rewrite (while_runs _ _ _ (S (length buf)) _ _ Hruns).
  - simpl. do 2 f_equal. lia.
  - simpl. rewrite Z.sub_diag. done.
  - lia.
Qed.


Lemma decode_ivar_array_unbounded (buf : list Z) (o : nat) :
  (o ≤ length buf)%nat →
  ∃ arr, decode_ivar_array buf o None = Ok (arr, Z.of_nat (length buf) - Z.of_nat o).
Proof.
  intros Ho. unfold decode_ivar_array, count_of.
  destruct (ivar_unbounded_runs buf (length buf - o) o (buf !! o) 0 0 [])
    as (byte' & sign' & value' & arr' & Hruns); [lia|].
  exists arr'. rewrite (while_runs _ _ _ (S (length buf)) _ _ Hruns).
  - simpl. do 2 f_equal. lia.
  - simpl. apply Nat.ltb_ge. lia.
  - lia.
Qed.

(** C6. Decoding an array of variable-length integers from [offset], an
    offset within the buffer. Without an element count both decoders
    return having consumed [length buf - offset] bytes. With the count [n]
    of the self-terminated values [values] that the buffer holds at
    [offset], they return [n] elements and consume the bytes of these
    values only, whatever the bytes [rest] after them are. *)
Theorem decode_var_array_consumes (buf : list Z) (offset : nat)
    (values : list (list Z)) (rest : list Z) :
  (offset ≤ length buf)%nat →
  drop offset buf = concat values ++ rest →
  Forall self_terminated values →
  (∃ arr, decode_uvar_array buf offset None
          = Ok (arr, Z.of_nat (length buf) - Z.of_nat offset)) ∧
  (∃ arr, decode_ivar_array buf offset None
          = Ok (arr, Z.of_nat (length buf) - Z.of_nat offset)) ∧
  (∃ arr, decode_uvar_array buf offset (Some (Z.of_nat (length values)))
          = Ok (arr, Z.of_nat (length (concat values))) ∧
          length arr = length values) ∧
  (∃ arr, decode_ivar_array buf offset (Some (Z.of_nat (length values)))
          = Ok (arr, Z.of_nat (length (concat values))) ∧
          length arr = length values).
Proof.
  intros Ho Hdrop Hvalues. split; [|split; [|split]].
  - by apply decode_uvar_array_unbounded.
  - by apply decode_ivar_array_unbounded.
  - eexists. split; [by eapply decode_uvar_array_counted|]. by rewrite length_fmap.
  - eexists. split; [by eapply decode_ivar_array_counted|]. by rewrite length_fmap.
Qed.

Lemma decode_var_array_consumes_witness :
  (∃ arr, decode_uvar_array [129; 0; 127; 129; 128] 0 None
          = Ok (arr, Z.of_nat (length [129; 0; 127; 129; 128]) - Z.of_nat 0)) ∧
  (∃ arr, decode_ivar_array [129; 0; 127; 129; 128] 0 None
          = Ok (arr, Z.of_nat (length [129; 0; 127; 129; 128]) - Z.of_nat 0)) ∧
  (∃ arr, decode_uvar_array [129; 0; 127; 129; 128] 0
            (Some (Z.of_nat (length [[129; 0]; [127]])))
          = Ok (arr, Z.of_nat (length (concat [[129; 0]; [127]]))) ∧
          length arr = length [[129; 0]; [127]]) ∧
  (∃ arr, decode_ivar_array [129; 0; 127; 129; 128] 0
            (Some (Z.of_nat (length [[129; 0]; [127]])))
          = Ok (arr, Z.of_nat (length (concat [[129; 0]; [127]]))) ∧
          length arr = length [[129; 0]; [127]]).
Proof.
  apply (decode_var_array_consumes [129; 0; 127; 129; 128] 0 [[129; 0]; [127]] [129; 128]).
  - simpl. lia.
  - reflexivity.
  - apply Forall_cons. split.
    + exists [129], 0. unfold terminal, continues.
      split; [reflexivity|]. split; [|lia]. apply Forall_cons. split; [lia|apply Forall_nil_2].
    + apply Forall_cons. split; [|apply Forall_nil_2].
      exists [], 127. unfold terminal. split; [reflexivity|]. split; [apply Forall_nil_2|lia].
Defined.

(** ** Encoding variable-length integers *)

Lemma js_shr_7 a : - 2 ^ 31 ≤ a < 2 ^ 31 → js_shr a 7 = a / 128.
Proof.
  intros Ha. unfold js_shr. rewrite ToInt32_small by done.
  change (7 mod 32) with 7. by rewrite Z.shiftr_div_pow2.
Qed.

Lemma js_shl_7 a : 0 ≤ a → a * 128 < 2 ^ 31 → js_shl a 7 = a * 128.
Proof.
  intros Ha Hb. unfold js_shl. rewrite (ToInt32_small a) by lia.
  change (7 mod 32) with 7. rewrite Z.shiftl_mul_pow2 by lia.
  apply ToInt32_small. lia.
Qed.

Lemma land_127 a : Z.land a 127 = a mod 128.
Proof. change 127 with (Z.ones 7). by rewrite Z.land_ones. Qed.

Lemma land_63 a : Z.land a 63 = a mod 64.
Proof. change 63 with (Z.ones 6). by rewrite Z.land_ones. Qed.

Lemma js_and_127 a : - 2 ^ 31 ≤ a < 2 ^ 31 → js_and a 127 = a mod 128.
Proof.
  intros Ha. unfold js_and. rewrite (ToInt32_small a) by done.
  change (ToInt32 127) with 127. apply land_127.
Qed.

Lemma ToInt32_range a : - 2 ^ 31 ≤ ToInt32 a < 2 ^ 31.
Proof. unfold ToInt32. pose proof (Z.mod_pos_bound (a + 2 ^ 31) (2 ^ 32)). lia. Qed.

Lemma js_shr_7_range a : - 2 ^ 24 ≤ js_shr a 7 < 2 ^ 24.
Proof.
  unfold js_shr. change (7 mod 32) with 7. rewrite Z.shiftr_div_pow2 by lia.
  pose proof (ToInt32_range a). change (2 ^ 7) with 128. split.
  - apply Z.div_le_lower_bound; lia.
  - apply Z.div_lt_upper_bound; lia.
Qed.

(** The loop shared by the two encoders: the digits pushed while the
    number exceeds [limit]. *)
Lemma encode_loop_digits (limit : Z) (n : nat) :
  0 ≤ limit →
  ∀ (fuel : nat) (a : Z) (l : list Z),
    (n ≤ fuel)%nat → a < (limit + 1) * 128 ^ Z.of_nat n → a < 2 ^ 31 →
    while fuel (fun '(v, _) => limit <? v)
      (fun '(v, lsb_to_msb) => Ok (js_shr v 7, lsb_to_msb ++ [js_and v 127 + 128]))
      (a, l)
    = Ok ((split_digits limit n a).2, l ++ set_continuation (split_digits limit n a).1).
Proof.
  intros Hlimit. induction n as [|n IH]; intros fuel a l Hfuel Ha Ha31.
  - assert ((limit <? a) = false) as Hc by (apply Z.ltb_ge; simpl in Ha; lia).
    destruct fuel; simpl; rewrite Hc; by rewrite app_nil_r.
  - destruct (limit <? a) eqn:Hc.
    + apply Z.ltb_lt in Hc. destruct fuel as [|fuel]; [lia|].
      simpl. rewrite (proj2 (Z.ltb_lt _ _) Hc). simpl.
      rewrite js_shr_7, js_and_127 by lia.
      rewrite IH; [|lia| |].
      * destruct (split_digits limit n (a / 128)) as [ds top]. simpl.
        by rewrite <- app_assoc.
      * apply Z.div_lt_upper_bound; [lia|].
        rewrite Nat2Z.inj_succ, Z.pow_succ_r in Ha by lia. lia.
      * apply Z.div_lt_upper_bound; lia.
    + destruct fuel; simpl; rewrite Hc; by rewrite app_nil_r.
Qed.

Lemma continuation_digit d : 0 ≤ d < 128 → (d + 128) mod 128 = d.
Proof.
  intros Hd. replace (d + 128) with (d + 1 * 128) by lia.
  rewrite Z.mod_add by lia. apply Z.mod_small. lia.
Qed.

Lemma uvar_fold_snoc acc l b :
  uvar_fold acc (l ++ [b]) = js_shl (uvar_fold acc l) 7 + Z.land (ToInt32 b) 127.
Proof. unfold uvar_fold. by rewrite fold_left_app. Qed.

(** What [split_digits] returns: digits, a remainder within the limit
    (when the number is not negative), and the number they stand for. *)
Lemma split_digits_spec (limit : Z) (n : nat) :
  0 ≤ limit →
  ∀ a, 0 ≤ a < (limit + 1) * 128 ^ Z.of_nat n → a < 2 ^ 31 →
    Forall terminal (split_digits limit n a).1 ∧
    0 ≤ (split_digits limit n a).2 ≤ limit ∧
    uvar_fold (split_digits limit n a).2
      (reverse (set_continuation (split_digits limit n a).1)) = a.
Proof.
  intros Hlimit. induction n as [|n IH]; intros a Ha Ha31.
  - simpl in *. split; [apply Forall_nil_2|]. split; [lia|done].
  - simpl. destruct (limit <? a) eqn:Hc.
    + apply Z.ltb_lt in Hc.
      destruct (IH (a / 128)) as (Hds & Htop & Hval).
      { split; [apply Z.div_pos; lia|]. apply Z.div_lt_upper_bound; [lia|].
        rewrite Nat2Z.inj_succ, Z.pow_succ_r in Ha by lia. lia. }
      { apply Z.div_lt_upper_bound; lia. }
      destruct (split_digits limit n (a / 128)) as [ds top]. cbn [fst snd] in *.
      pose proof (Z.mod_pos_bound a 128) as Hmod.
      split; [apply Forall_cons; split; [unfold terminal; lia|done]|].
      split; [done|].
      unfold set_continuation. rewrite fmap_cons, reverse_cons.
      fold (set_continuation ds). rewrite uvar_fold_snoc, Hval.
      pose proof (Z.div_mod a 128) as Hdm.
      assert (0 ≤ a / 128) by (apply Z.div_pos; lia).
      rewrite js_shl_7 by lia.
      rewrite ToInt32_small by lia. rewrite land_127.
      rewrite continuation_digit by lia. lia.
    + apply Z.ltb_ge in Hc. simpl. split; [apply Forall_nil_2|]. split; [lia|done].
Qed.

Lemma set_continuation_continues ds :
  Forall terminal ds → Forall continues (reverse (set_continuation ds)).
Proof.
  intros Hds. apply Forall_reverse. unfold set_continuation. apply Forall_fmap.
  eapply Forall_impl; [exact Hds|]. intros d Hd. unfold terminal in Hd. unfold continues.
  simpl. lia.
Qed.

Lemma clear_continuation_cons d ds :
  0 ≤ d < 128 →
  clear_continuation (set_continuation (d :: ds)) = d :: set_continuation ds.
Proof.
  intros Hd. unfold clear_continuation, set_continuation. simpl. f_equal.
  rewrite js_and_127 by lia. by apply continuation_digit.
Qed.

Lemma uvar_split_bounds v :
  0 ≤ v < 2 ^ 31 → 0 ≤ v / 128 < (0 + 1) * 128 ^ Z.of_nat 4 ∧ v / 128 < 2 ^ 31.
Proof.
  intros Hv. assert (0 ≤ v / 128) by (apply Z.div_pos; lia).
  assert (v / 128 < 2 ^ 24) by (apply Z.div_lt_upper_bound; lia).
  change ((0 + 1) * 128 ^ Z.of_nat 4) with (2 ^ 28). lia.
Qed.

Lemma encode_uvar_item_spec v :
  0 ≤ v < 2 ^ 31 → encode_uvar_item v = Ok (uvar_bytes v).
Proof.
  intros Hv. unfold encode_uvar_item.
  rewrite (proj2 (Z.leb_le 0 v)) by lia. rewrite Z.mul_1_r.
  cbv zeta beta iota delta [mbind res_bind].
  rewrite js_shr_7, js_and_127 by lia. rewrite app_nil_l.
  destruct (uvar_split_bounds v Hv) as [Hb1 Hb2].
  rewrite (encode_loop_digits 0 4) by lia.
  change ([v mod 128 + 128] ++ set_continuation (split_digits 0 4 (v / 128)).1)
    with (set_continuation (v mod 128 :: (split_digits 0 4 (v / 128)).1)).
  rewrite clear_continuation_cons by (apply Z.mod_pos_bound; lia).
  by rewrite reverse_cons.
Qed.

Lemma uvar_bytes_self_terminated v : 0 ≤ v < 2 ^ 31 → self_terminated (uvar_bytes v).
Proof.
  intros Hv. destruct (uvar_split_bounds v Hv) as [Hb1 Hb2].
  destruct (split_digits_spec 0 4 (Z.le_refl 0) (v / 128) Hb1 Hb2) as (Hds & _ & _).
  eexists _, _. split; [reflexivity|]. split.
  - by apply set_continuation_continues.
  - unfold terminal. apply Z.mod_pos_bound. lia.
Qed.

Lemma uvar_fold_uvar_bytes v : 0 ≤ v < 2 ^ 31 → uvar_fold 0 (uvar_bytes v) = v.
Proof.
  intros Hv. destruct (uvar_split_bounds v Hv) as [Hb1 Hb2].
  destruct (split_digits_spec 0 4 (Z.le_refl 0) (v / 128) Hb1 Hb2) as (_ & Htop & Hval).
  assert ((split_digits 0 4 (v / 128)).2 = 0) as Htop0 by lia.
  rewrite Htop0 in Hval. unfold uvar_bytes. rewrite uvar_fold_snoc, Hval.
  pose proof (Z.mod_pos_bound v 128). pose proof (Z.div_mod v 128).
  rewrite js_shl_7 by lia. rewrite ToInt32_small by lia.
  rewrite land_127, Z.mod_mod by lia. lia.
Qed.

Lemma self_terminated_u8 g : self_terminated g → Forall is_u8 g.
Proof.
  intros (conts & t & -> & Hconts & Ht). apply Forall_app. split.
  - eapply Forall_impl; [exact Hconts|]. unfold continues, is_u8. lia.
  - apply Forall_cons. split; [unfold terminal in Ht; unfold is_u8; lia|apply Forall_nil_2].
Qed.

Lemma Uint8Array_from_u8 l : Forall is_u8 l → Uint8Array_from l = l.
Proof.
  intros Hl. unfold Uint8Array_from. induction Hl as [|b l Hb _ IH]; [done|].
  rewrite fmap_cons, IH. f_equal. simpl. apply Z.mod_small. exact Hb.
Qed.

Lemma encode_items_spec (item : Z → res (list Z)) (bytes_of : Z → list Z) vs :
  Forall (fun v => item v = Ok (bytes_of v)) vs →
  ∀ acc, encode_items item vs acc = Ok (acc ++ concat (bytes_of <$> vs)).
Proof.
  intros Hvs. induction Hvs as [|v vs Hv _ IH]; intros acc.
  - simpl. by rewrite app_nil_r.
  - simpl. rewrite Hv. simpl. rewrite IH. by rewrite <- app_assoc.
Qed.

Lemma Forall_concat_u8 (gs : list (list Z)) :
  Forall self_terminated gs → Forall is_u8 (concat gs).
Proof.
  intros Hgs. induction Hgs as [|g gs Hg _ IH]; simpl; [apply Forall_nil_2|].
  apply Forall_app. split; [by apply self_terminated_u8|done].
Qed.

Lemma encode_uvar_array_spec vs :
  Forall uvar_range vs → encode_uvar_array vs = Ok (concat (uvar_bytes <$> vs)).
Proof.
  intros Hvs. unfold encode_uvar_array.
  rewrite (encode_items_spec _ uvar_bytes).
  2:{ eapply Forall_impl; [exact Hvs|]. intros v Hv. by apply encode_uvar_item_spec. }
  simpl. rewrite Uint8Array_from_u8; [done|].
  apply Forall_concat_u8. apply Forall_fmap.
  eapply Forall_impl; [exact Hvs|]. intros v Hv. by apply uvar_bytes_self_terminated.
Qed.

Lemma uvar_roundtrip vs (n : option Z) :
  Forall uvar_range vs → n = None ∨ n = Some (Z.of_nat (length vs)) →
  decode_uvar_array (concat (uvar_bytes <$> vs)) 0 n
  = Ok (vs, Z.of_nat (length (concat (uvar_bytes <$> vs)))).
Proof.
  intros Hvs Hn.
  assert (Forall self_terminated (uvar_bytes <$> vs)) as Hst.
  { apply Forall_fmap. eapply Forall_impl; [exact Hvs|].
    intros v Hv. by apply uvar_bytes_self_terminated. }
  assert (uvar_fold 0 <$> (uvar_bytes <$> vs) = vs) as Hval.
  { rewrite <- list_fmap_compose. rewrite <- (list_fmap_id vs) at 2.
    apply Forall_fmap_ext_1. eapply Forall_impl; [exact Hvs|].
    intros v Hv. simpl. by apply uvar_fold_uvar_bytes. }
  destruct Hn as [-> | ->].
  - rewrite (decode_uvar_array_all _ 0 (uvar_bytes <$> vs)); [|done|done].
    by rewrite Hval.
  - rewrite <- (length_fmap uvar_bytes vs).
    rewrite (decode_uvar_array_counted _ 0 (uvar_bytes <$> vs) []); [|by rewrite app_nil_r|done].
    by rewrite Hval.
Qed.

Lemma land_64 b : Z.land b 64 = b mod 128 - b mod 64.
Proof.
  rewrite <- land_127, <- land_63.
  change 127 with (Z.lor 63 64). rewrite Z.land_lor_distr_r.
  rewrite <- Z.add_nocarry_lor; [lia|].
  apply Z.bits_inj'. intros n Hn. rewrite !Z.land_spec, Z.bits_0.
  assert (Z.testbit 63 n && Z.testbit 64 n = false) as H.
  { rewrite <- Z.land_spec. change (Z.land 63 64) with 0. apply Z.bits_0. }
  destruct (Z.testbit b n), (Z.testbit 63 n), (Z.testbit 64 n); simpl in *; congruence.
Qed.

Lemma lor_sign_bits top sb :
  0 ≤ top < 64 → sb = 128 ∨ sb = 192 → Z.lor top sb = top + sb.
Proof.
  intros Htop Hsb. symmetry. apply Z.add_nocarry_lor.
  rewrite <- (Z.mod_small top 64) by lia. rewrite <- land_63.
  rewrite <- Z.land_assoc.
  destruct Hsb as [-> | ->]; [change (Z.land 63 128) with 0|change (Z.land 63 192) with 0];
    apply Z.land_0_r.
Qed.

Lemma ivar_split_bounds v :
  ivar_range v →
  0 ≤ Z.abs v < (63 + 1) * 128 ^ Z.of_nat 4 ∧ Z.abs v < 2 ^ 31.
Proof.
  unfold ivar_range. intros Hv. change ((63 + 1) * 128 ^ Z.of_nat 4) with (2 ^ 34). lia.
Qed.

Lemma encode_ivar_item_spec v : ivar_range v → encode_ivar_item v = Ok (ivar_bytes v).
Proof.
  intros Hv. destruct (ivar_split_bounds v Hv) as [Hb1 Hb2].
  unfold encode_ivar_item, ivar_bytes.
  replace (v * (if 0 <=? v then 1 else -1)) with (Z.abs v)
    by (destruct (Z.leb_spec 0 v); lia).
  rewrite (encode_loop_digits 63 4) by lia.
  destruct (split_digits_spec 63 4 ltac:(lia) (Z.abs v) Hb1 Hb2) as (Hds & Htop & _).
  destruct (split_digits 63 4 (Z.abs v)) as [ds top]. cbn [fst snd] in *.
  cbv zeta beta iota delta [mbind res_bind]. rewrite app_nil_l.
  assert (js_or (js_and top 63) (if (if 0 <=? v then 1 else -1) =? -1 then 192 else 128)
          = top + 128 + (if v <? 0 then 64 else 0)) as ->.
  { unfold js_or, js_and. rewrite (ToInt32_small top) by lia.
    change (ToInt32 63) with 63. rewrite land_63, Z.mod_small by lia.
    rewrite (ToInt32_small top) by lia.
    destruct (Z.leb_spec 0 v), (Z.ltb_spec v 0); try lia; simpl.
    - change (ToInt32 128) with 128. rewrite lor_sign_bits by lia. lia.
    - change (ToInt32 192) with 192. rewrite lor_sign_bits by lia. lia. }
  destruct ds as [|d0 ds'].
  - simpl. unfold clear_continuation. simpl.
    rewrite js_and_127 by (destruct (v <? 0); lia).
    rewrite reverse_singleton. do 2 f_equal. clear -Htop.
    destruct (v <? 0); div_lia.
  - apply Forall_cons in Hds as [Hd0 Hds'].
    unfold set_continuation. rewrite fmap_cons.
    unfold clear_continuation. simpl.
    rewrite js_and_127 by (unfold terminal in Hd0; lia).
    rewrite continuation_digit by exact Hd0.
    rewrite reverse_cons, reverse_app. simpl. done.
Qed.

Lemma ivar_bytes_self_terminated v : ivar_range v → self_terminated (ivar_bytes v).
Proof.
  intros Hv. destruct (ivar_split_bounds v Hv) as [Hb1 Hb2].
  destruct (split_digits_spec 63 4 ltac:(lia) (Z.abs v) Hb1 Hb2) as (Hds & Htop & _).
  unfold ivar_bytes.
  destruct (split_digits 63 4 (Z.abs v)) as [ds top]. cbn [fst snd] in *.
  destruct ds as [|d0 ds'].
  - exists [], (top + (if v <? 0 then 64 else 0)).
    split; [done|]. split; [apply Forall_nil_2|].
    unfold terminal. destruct (v <? 0); lia.
  - apply Forall_cons in Hds as [Hd0 Hds'].
    exists ((top + 128 + (if v <? 0 then 64 else 0)) :: reverse (set_continuation ds')), d0.
    split; [done|]. split; [|done].
    apply Forall_cons. split; [unfold continues; destruct (v <? 0); lia|].
    by apply set_continuation_continues.
Qed.

Lemma ivar_value_ivar_bytes v : ivar_range v → ivar_value (ivar_bytes v) = v.
Proof.
  intros Hv. destruct (ivar_split_bounds v Hv) as [Hb1 Hb2].
  destruct (split_digits_spec 63 4 ltac:(lia) (Z.abs v) Hb1 Hb2) as (Hds & Htop & Hval).
  unfold ivar_bytes.
  destruct (split_digits 63 4 (Z.abs v)) as [ds top]. cbn [fst snd] in *.
  assert (∀ extra, extra = 0 ∨ extra = 128 →
            Z.land (ToInt32 (top + extra + (if v <? 0 then 64 else 0))) 63 = top ∧
            (if 0 <? Z.land (ToInt32 (top + extra + (if v <? 0 then 64 else 0))) 64
             then -1 else 1) = (if v <? 0 then -1 else 1)) as Hfirst.
  { intros extra Hextra. rewrite ToInt32_small by (destruct (v <? 0); lia).
    rewrite land_63, land_64. clear -Htop Hextra.
    split.
    - destruct (v <? 0), Hextra as [-> | ->]; div_lia.
    - destruct (v <? 0), Hextra as [-> | ->];
        match goal with |- context [0 <? ?x] => destruct (Z.ltb_spec 0 x) end;
        try done; div_lia. }
  destruct ds as [|d0 ds'].
  - destruct (Hfirst 0) as [Hl Hs]; [by left|]. rewrite Z.add_0_r in Hl, Hs.
    unfold ivar_value. rewrite Hl, Hs. simpl in Hval. subst top.
    change (uvar_fold (Z.abs v) []) with (Z.abs v).
    destruct (Z.ltb_spec v 0); lia.
  - apply Forall_cons in Hds as [Hd0 Hds'].
    destruct (Hfirst 128) as [Hl Hs]; [by right|].
    unfold ivar_value. rewrite Hl, Hs.
    unfold set_continuation in Hval. rewrite fmap_cons, reverse_cons in Hval.
    fold (set_continuation ds') in Hval.
    rewrite uvar_fold_snoc in Hval. rewrite uvar_fold_snoc.
    unfold terminal in Hd0.
    rewrite (ToInt32_small (d0 + 128)), land_127, continuation_digit in Hval by lia.
    rewrite (ToInt32_small d0), land_127, Z.mod_small by lia.
    rewrite Hval. destruct (Z.ltb_spec v 0); lia.
Qed.

Lemma encode_ivar_array_spec vs :
  Forall ivar_range vs → encode_ivar_array vs = Ok (concat (ivar_bytes <$> vs)).
Proof.
  intros Hvs. unfold encode_ivar_array.
  rewrite (encode_items_spec _ ivar_bytes).
  2:{ eapply Forall_impl; [exact Hvs|]. intros v Hv. by apply encode_ivar_item_spec. }
  simpl. rewrite Uint8Array_from_u8; [done|].
  apply Forall_concat_u8. apply Forall_fmap.
  eapply Forall_impl; [exact Hvs|]. intros v Hv. by apply ivar_bytes_self_terminated.
Qed.


Lemma while_S {St : Type} (cond : St → bool) (body : St → res St) fuel s :
  cond s = true → while (S fuel) cond body s = body s ≫= while fuel cond body.
Proof. intros Hc. simpl. by rewrite Hc. Qed.

(** The loop of the signed encoder returns on every number. *)
Lemma encode_ivar_loop_total a :
  0 ≤ a →
  ∃ top ds,
    while 32 (fun '(v, _) => 63 <? v)
      (fun '(v, lsb_to_msb) => Ok (js_shr v 7, lsb_to_msb ++ [js_and v 127 + 128]))
      (a, [])
    = Ok (top, ds).
Proof.
  intros Ha. destruct (Z.lt_ge_cases a (2 ^ 31)) as [Hsmall|Hbig].
  - eexists _, _. apply (encode_loop_digits 63 4); [lia|lia| |done].
    change ((63 + 1) * 128 ^ Z.of_nat 4) with (2 ^ 34). lia.
  - change 32%nat with (S 31). rewrite while_S by (apply Z.ltb_lt; lia).
    cbn [mbind res_bind].
    pose proof (js_shr_7_range a) as Hr.
    eexists _, _. apply (encode_loop_digits 63 3); [lia|lia| |lia].
    change ((63 + 1) * 128 ^ Z.of_nat 3) with (2 ^ 27). lia.
Qed.

Lemma leading_byte ds x :
  ∃ rest,
    reverse (clear_continuation (ds ++ [x]))
    = (match ds with [] => js_and x 127 | _ => x end) :: rest.
Proof.
  destruct ds as [|d ds'].
  - exists []. done.
  - eexists. unfold clear_continuation. simpl.
    rewrite reverse_cons, reverse_app, reverse_singleton. simpl. done.
Qed.

Lemma sign_byte_bit6 top (negative : bool) :
  let x := js_or (js_and top 63) (if negative then 192 else 128) in
  Z.testbit x 6 = negative ∧ Z.testbit (js_and x 127) 6 = negative.
Proof.
  assert (0 ≤ js_and top 63 < 64) as Hm.
  { unfold js_and. change (ToInt32 63) with 63. rewrite land_63.
    apply Z.mod_pos_bound. lia. }
  assert (Z.testbit (js_and top 63) 6 = false) as Hm6.
  { unfold js_and. change (ToInt32 63) with 63. rewrite Z.land_spec.
    change (Z.testbit 63 6) with false. apply andb_false_r. }
  cbv zeta. unfold js_or at 1 2. rewrite (ToInt32_small (js_and top 63)) by lia.
  assert (ToInt32 (if negative then 192 else 128) = (if negative then 192 else 128)) as ->
    by (by destruct negative).
  assert (Z.testbit (Z.lor (js_and top 63) (if negative then 192 else 128)) 6 = negative)
    as Hx.
  { rewrite Z.lor_spec, Hm6. by destruct negative. }
  split; [exact Hx|].
  unfold js_and at 1. change (ToInt32 127) with 127.
  rewrite ToInt32_small.
  - rewrite Z.land_spec, Hx. change (Z.testbit 127 6) with true. apply andb_true_r.
  - rewrite lor_sign_bits by (destruct negative; lia). destruct negative; lia.
Qed.

(** C3. The signed variable-length encoder on the boundary values (0 is
    the single byte 0x00), and, for every number, the sign flag: the
    second-highest bit of the leading byte is set exactly when the number
    is negative. *)
Theorem encode_ivar_table_and_sign_flag :
  encode_ivar 0 = Ok [0] ∧
  encode_ivar 63 = Ok [63] ∧
  encode_ivar (-63) = Ok [127] ∧
  encode_ivar 8191 = Ok [191; 127] ∧
  encode_ivar (-8191) = Ok [255; 127] ∧
  ∀ v : Z, ∃ leading rest,
    encode_ivar v = Ok (leading :: rest) ∧ (Z.testbit leading 6 = true ↔ v < 0).
Proof.
  do 5 (split; [vm_compute; reflexivity|]).
  intros v. unfold encode_ivar, encode_ivar_array. cbn [encode_items].
  unfold encode_ivar_item.
  set (sign := if 0 <=? v then 1 else -1).
  destruct (encode_ivar_loop_total (v * sign)) as (top & ds & ->).
  { subst sign. destruct (Z.leb_spec 0 v); lia. }
  cbv zeta beta iota delta [mbind res_bind]. rewrite app_nil_l.
  destruct (leading_byte ds (js_or (js_and top 63) (if sign =? -1 then 192 else 128)))
    as (rest & ->).
  unfold Uint8Array_from. rewrite fmap_cons. eexists _, _. split; [reflexivity|].
  cbn [ToUint8]. change 256 with (2 ^ 8). rewrite Z.mod_pow2_bits_low by lia.
  assert ((sign =? -1) = (v <? 0)) as ->.
  { subst sign. destruct (Z.leb_spec 0 v), (Z.ltb_spec v 0); try lia; done. }
  destruct (sign_byte_bit6 top (v <? 0)) as [Hx Hx'].
  destruct ds; [rewrite Hx'|rewrite Hx]; destruct (Z.ltb_spec v 0); split; (done || lia).
Qed.

(** ** The allocating swap returns on every buffer *)

Lemma ToUint8_u8 v : is_u8 (ToUint8 v).
Proof.
  unfold is_u8. destruct v as [v|]; simpl; [|lia]. apply Z.mod_pos_bound. lia.
Qed.

Lemma swap_store_set h q len h' i v :
  swap_store h q len h' → swap_store h q len (heap_set h' q i v).
Proof.
  intros (out & -> & Hlen & Hu8). exists (<[i := ToUint8 v]> out).
  unfold heap_set. rewrite alter_insert_eq. split; [done|]. split.
  - by rewrite length_insert.
  - apply Forall_insert; [done|]. apply ToUint8_u8.
Qed.

Lemma swapEndianessFast_total (h : heap) p cells bs :
  h !! p = Some cells →
  ∃ out,
    swapEndianessFast h p bs = Ok (<[fresh (dom h) := out]> h, fresh (dom h)) ∧
    length out = length cells ∧ Forall is_u8 out.
Proof.
  intros Hp. unfold swapEndianessFast, heap_alloc.
  rewrite (byteLength_lookup h p cells Hp).
  set (q := fresh (dom h)). set (len := length cells).
  match goal with
  | |- context [while bs ?c ?b ?s0] =>
      destruct (while_total c b (fun st => swap_store h q len st.2)
                  (fun st => (bs - st.1)%nat)) with (fuel := bs) (s := s0)
        as ([o' h'] & -> & (out & Hout & Hlen & Hu8) & _)
  end.
  - intros [offset h1] HP Hc. simpl in HP, Hc. apply Nat.ltb_lt in Hc.
    match goal with
    | |- context [while len ?c ?b ?s0] =>
        destruct (while_total c b (fun st => swap_store h q len st.2)
                    (fun st => (len + offset - st.1)%nat)) with (fuel := len) (s := s0)
          as ([i' h2] & Hw & HP2 & _)
    end.
    + intros [i h2] HP2 Hc2. simpl in HP2, Hc2. apply Nat.ltb_lt in Hc2.
      eexists. split; [reflexivity|]. simpl. split; [|lia].
      by apply swap_store_set.
    + exact HP.
    + simpl. lia.
    + eexists. split; [rewrite Hw; reflexivity|]. simpl. split; [exact HP2|lia].
  - simpl. exists (replicate len 0). split; [done|]. split.
    + by rewrite length_replicate.
    + apply Forall_replicate. unfold is_u8. lia.
  - simpl. lia.
  - simpl in Hout. subst h'. exists out. simpl. done.
Qed.

Lemma swapEndianessFast_bytes_total buf bs :
  ∃ out, swapEndianessFast_bytes buf bs = Ok out ∧
         length out = length buf ∧ Forall is_u8 out.
Proof.
  unfold swapEndianessFast_bytes.
  destruct (swapEndianessFast_total {[ 1%positive := buf ]} 1%positive buf bs)
    as (out & -> & Hlen & Hu8); [apply lookup_singleton_eq|].
  exists out. simpl. by rewrite lookup_total_insert_eq.
Qed.

Lemma swapEndianessFast_bytes_spec buf bs k :
  Forall is_u8 buf → (0 < bs)%nat → length buf = (k * bs)%nat →
  swapEndianessFast_bytes buf bs = Ok (swapped bs buf).
Proof.
  intros Hu8 Hbs Hlen. unfold swapEndianessFast_bytes.
  rewrite (swapEndianessFast_spec {[ 1%positive := buf ]} 1%positive buf bs k);
    [|apply lookup_singleton_eq|done|done|done].
  simpl. by rewrite lookup_total_insert_eq.
Qed.

(** ** Cells of typed arrays *)

Lemma chunks_fuel_concat (w : nat) (cells : list (list Z)) :
  (0 < w)%nat → Forall (fun c => length c = w) cells →
  ∀ fuel, (length (concat cells) ≤ fuel)%nat → chunks_fuel fuel w (concat cells) = cells.
Proof.
  intros Hw Hcells. induction Hcells as [|c cells Hc _ IH]; intros fuel Hfuel.
  - by destruct fuel.
  - simpl in Hfuel. rewrite length_app in Hfuel.
    destruct fuel as [|fuel]; [lia|].
    simpl. destruct c as [|b c']; [simpl in Hc; lia|].
    cbn [app chunks_fuel].
    change (b :: c' ++ concat cells) with ((b :: c') ++ concat cells).
    rewrite take_app_length', drop_app_length' by done.
    f_equal. apply IH. simpl in Hfuel. lia.
Qed.

Lemma chunks_concat (w : nat) (cells : list (list Z)) :
  (0 < w)%nat → Forall (fun c => length c = w) cells → chunks w (concat cells) = cells.
Proof. intros Hw Hcells. unfold chunks. by apply chunks_fuel_concat. Qed.

Lemma concat_singletons (l : list Z) : concat ((fun b => [b]) <$> l) = l.
Proof. induction l as [|b l IH]; [done|]. rewrite fmap_cons. simpl. by f_equal. Qed.

Lemma chunks_1 (l : list Z) : chunks 1 l = (fun b => [b]) <$> l.
Proof.
  pose proof (chunks_concat 1 ((fun b => [b]) <$> l)) as H.
  rewrite concat_singletons in H. apply H; [lia|].
  apply Forall_fmap. by apply Forall_true.
Qed.

(** ** Unrecognized numeric kinds *)

Lemma element_bytes_Uint8Array host v : element_bytes host Uint8Array v = [v mod 256].
Proof. unfold element_bytes, host_order. simpl. by destruct (native_le host). Qed.

Lemma element_value_Uint8Array host b : element_value host Uint8Array [b] = b.
Proof.
  unfold element_value, host_order. destruct (native_le host); simpl; lia.
Qed.

Lemma TypedArray_from_Uint8Array host value :
  ta_buffer (TypedArray_from host Uint8Array value) = Uint8Array_from value.
Proof.
  unfold TypedArray_from, Uint8Array_from. cbn [ta_buffer].
  induction value as [|v value IH]; [done|].
  rewrite !fmap_cons. cbn [concat]. rewrite element_bytes_Uint8Array, IH. reflexivity.
Qed.

Lemma Array_from_Uint8Array host buffer :
  Array_from host {| ta_constructor := Uint8Array; ta_buffer := buffer |} = buffer.
Proof.
  unfold Array_from. simpl. rewrite chunks_1, <- list_fmap_compose.
  rewrite <- (list_fmap_id buffer) at 2. apply list_fmap_ext.
  intros i b _. simpl. apply element_value_Uint8Array.
Qed.

Lemma typed_array_constructor_of_falls_through type :
  falls_through type →
  typed_array_constructor_of type = Logged [unrecognized_type_message] (Ok Uint8Array).
Proof.
  intros [Hc Hnot]. unfold typed_array_constructor_of.
  rewrite bool_decide_eq_false_2 by done.
  set (t := plus_chars (char_at type 0) (char_at type 1)) in *.
  unfold recognized_prefixes in Hnot.
  repeat match goal with
  | |- context [String.eqb t ?name] =>
      destruct (String.eqb_spec t name) as [Heq|_];
        [exfalso; apply Hnot; rewrite Heq; set_solver|]
  end.
  reflexivity.
Qed.

(** C8, as stated, fails on a name that is no numeric kind and whose third
    character is [c]: the clamped constructor is returned and nothing is
    reported. *)
Lemma unrecognized_kind_unreported :
  ("zzc" ∉ numeric_kind_names) ∧
  typed_array_constructor_of "zzc" = Logged [] (Ok Uint8ClampedArray) ∧
  encode_number_array little_endian_host [5] "zzc" = Logged [] (Ok [0]) ∧
  decode_number_array little_endian_host [5] 0 "zzc" None = Logged [] (Ok ([0], 1)).
Proof.
  split.
  - unfold numeric_kind_names. rewrite !elem_of_cons, elem_of_nil.
    intros H. repeat (destruct H as [H|H]; [discriminate H|]). exact H.
  - repeat split; vm_compute; reflexivity.
Qed.

(** C8, amended. When the type name given to the fixed-width numeric
    codec reaches the last case of the constructor table (its third
    character is not [c], and its first two characters are none of u1,
    u2, u4, i1, i2, i4, f4, f8; its second character is not [v], which
    would select the variable-length codec), the table returns
    [Uint8Array] and reports one error, and both codecs return: the encoder
    returns one byte per number, the number modulo 256, and the decoder
    returns one number in [0, 256) per byte it consumed; the error is on
    the console of each. *)
Theorem unrecognized_kind_falls_back (host : Platform) (type : string)
    (value buf : list Z) (offset : nat) (array_length : option Z) :
  falls_through type → char_at type 1 ≠ Some "v"%char → Forall is_u8 buf →
  typed_array_constructor_of type = Logged [unrecognized_type_message] (Ok Uint8Array) ∧
  encode_number_array host value type
    = Logged [unrecognized_type_message] (Ok (Uint8Array_from value)) ∧
  ∃ decoded,
    decode_number_array host buf offset type array_length
      = Logged [unrecognized_type_message] (Ok (decoded, Z.of_nat (length decoded))) ∧
    Forall is_u8 decoded.
Proof.
  intros Hft Hv Hbuf.
  pose proof (typed_array_constructor_of_falls_through type Hft) as Htable.
  split; [exact Htable|]. split.
  - unfold encode_number_array. rewrite bool_decide_eq_false_2 by done.
    rewrite Htable. unfold mbind, M_bind. cbn [outcome console].
    rewrite bool_decide_eq_true_2 by done.
    rewrite TypedArray_from_Uint8Array. reflexivity.
  - unfold decode_number_array. rewrite bool_decide_eq_false_2 by done.
    rewrite Htable.
    match goal with
    | |- context [slice buf ?b ?e] => set (array_buf := slice buf b e)
    end.
    assert (Forall is_u8 array_buf) as Harr.
    { subst array_buf. unfold slice, subarray. apply Forall_take. by apply Forall_drop. }
    set (bytesize := parseInt (char_at type 1)).
    assert (∃ buffer,
              (if is_native_endian_of host (char_at type 2) bytesize
               then Ok array_buf
               else swapEndianessFast_bytes array_buf (loop_bound bytesize)) = Ok buffer ∧
              length buffer = length array_buf ∧ Forall is_u8 buffer)
      as (buffer & -> & Hlen & Hu8).
    { destruct (is_native_endian_of host (char_at type 2) bytesize).
      - by exists array_buf.
      - apply swapEndianessFast_bytes_total. }
    exists buffer. split; [|done].
    unfold mbind, M_bind, lift. cbn [outcome console].
    unfold TypedArray_new. cbn [BYTES_PER_ELEMENT].
    rewrite bool_decide_eq_true_2 by apply Nat.mod_1_r.
    cbn [outcome console]. rewrite Array_from_Uint8Array, Hlen. reflexivity.
Qed.

Lemma unrecognized_kind_falls_back_witness :
  typed_array_constructor_of "u8" = Logged [unrecognized_type_message] (Ok Uint8Array) ∧
  encode_number_array little_endian_host [5; 300] "u8"
    = Logged [unrecognized_type_message] (Ok (Uint8Array_from [5; 300])) ∧
  ∃ decoded,
    decode_number_array little_endian_host [1; 2; 3] 0 "u8" None
      = Logged [unrecognized_type_message] (Ok (decoded, Z.of_nat (length decoded))) ∧
    Forall is_u8 decoded.
Proof.
  apply (unrecognized_kind_falls_back little_endian_host "u8" [5; 300] [1; 2; 3] 0 None).
  - split; [discriminate|]. unfold recognized_prefixes.
    rewrite !elem_of_cons, elem_of_nil.
    intros H. repeat (destruct H as [H|H]; [discriminate H|]). exact H.
  - discriminate.
  - apply (bool_decide_unpack _). vm_compute. exact I.
Defined.

(** ** Cells of integer typed arrays *)

Lemma le_value_le_bytes w v : le_value (le_bytes w v) = v mod 2 ^ (8 * Z.of_nat w).
Proof.
  revert v. induction w as [|w IH]; intros v.
  - simpl. by rewrite Z.mod_1_r.
  - cbn [le_bytes le_value]. rewrite IH.
    replace (8 * Z.of_nat (S w)) with (8 + 8 * Z.of_nat w) by lia.
    rewrite Z.pow_add_r by lia. change (2 ^ 8) with 256.
    rewrite Z.rem_mul_r by lia. done.
Qed.

Lemma length_le_bytes w v : length (le_bytes w v) = w.
Proof. revert v. induction w as [|w IH]; intros v; simpl; [done|]. by rewrite IH. Qed.

Lemma le_bytes_u8 w v : Forall is_u8 (le_bytes w v).
Proof.
  revert v. induction w as [|w IH]; intros v; simpl; [apply Forall_nil_2|].
  apply Forall_cons. split; [|apply IH]. unfold is_u8. apply Z.mod_pos_bound. lia.
Qed.

Lemma host_order_involutive host l : host_order host (host_order host l) = l.
Proof. unfold host_order. destruct (native_le host); [done|apply reverse_involutive]. Qed.

Lemma length_host_order host l : length (host_order host l) = length l.
Proof. unfold host_order. destruct (native_le host); [done|apply length_reverse]. Qed.

Lemma host_order_u8 host l : Forall is_u8 l → Forall is_u8 (host_order host l).
Proof. unfold host_order. destruct (native_le host); [done|apply Forall_reverse]. Qed.

Lemma element_cell host c v :
  in_range c v →
  length (element_bytes host c v) = BYTES_PER_ELEMENT c ∧
  Forall is_u8 (element_bytes host c v) ∧
  element_value host c (element_bytes host c v) = v.
Proof.
  intros Hv.
  destruct c; try (exfalso; exact Hv); unfold in_range in Hv;
    unfold element_bytes, element_value; cbn [BYTES_PER_ELEMENT];
    rewrite ?host_order_involutive, ?le_value_le_bytes, ?length_host_order, ?length_le_bytes.
  all: try (split; [done|]; split; [apply host_order_u8, le_bytes_u8|]).
  - rewrite Z.mod_small; [done|]. change (2 ^ (8 * Z.of_nat 1)) with (2 ^ 8). lia.
  - split; [done|]. rewrite Z.max_r, Z.min_r by lia. split.
    + apply Forall_cons. split; [unfold is_u8; lia|apply Forall_nil_2].
    + unfold host_order. destruct (native_le host); simpl; lia.
  - rewrite Z.mod_small; [done|]. change (2 ^ (8 * Z.of_nat 2)) with (2 ^ 16). lia.
  - rewrite Z.mod_small; [done|]. change (2 ^ (8 * Z.of_nat 4)) with (2 ^ 32). lia.
  - change (2 ^ (8 * Z.of_nat 1 - 1)) with 128. change (2 ^ (8 * Z.of_nat 1)) with 256.
    change (2 ^ 7) with 128 in Hv.
    destruct (Z.ltb_spec (v mod 256) 128); div_lia.
  - change (2 ^ (8 * Z.of_nat 2 - 1)) with 32768. change (2 ^ (8 * Z.of_nat 2)) with 65536.
    change (2 ^ 15) with 32768 in Hv.
    destruct (Z.ltb_spec (v mod 65536) 32768); div_lia.
  - change (2 ^ (8 * Z.of_nat 4 - 1)) with 2147483648.
    change (2 ^ (8 * Z.of_nat 4)) with 4294967296.
    change (2 ^ 31) with 2147483648 in Hv.
    destruct (Z.ltb_spec (v mod 4294967296) 2147483648); div_lia.
Qed.

Lemma BYTES_PER_ELEMENT_pos c : (0 < BYTES_PER_ELEMENT c)%nat.
Proof. destruct c; simpl; lia. Qed.

Lemma typed_array_cells host c vs :
  Forall (in_range c) vs →
  length (concat (element_bytes host c <$> vs)) = (length vs * BYTES_PER_ELEMENT c)%nat ∧
  Forall is_u8 (concat (element_bytes host c <$> vs)) ∧
  Array_from host {| ta_constructor := c;
                     ta_buffer := concat (element_bytes host c <$> vs) |} = vs.
Proof.
  intros Hvs. split; [|split].
  - induction Hvs as [|v vs Hv _ IH]; [done|].
    rewrite fmap_cons. cbn [concat]. rewrite length_app, IH.
    destruct (element_cell host c v Hv) as (-> & _ & _). simpl. lia.
  - induction Hvs as [|v vs Hv _ IH]; [apply Forall_nil_2|].
    rewrite fmap_cons. cbn [concat]. apply Forall_app. split; [|done].
    by destruct (element_cell host c v Hv) as (_ & ? & _).
  - unfold Array_from. cbn [ta_constructor ta_buffer].
    rewrite chunks_concat.
    + rewrite <- list_fmap_compose. rewrite <- (list_fmap_id vs) at 2.
      apply Forall_fmap_ext_1. eapply Forall_impl; [exact Hvs|].
      intros v Hv. simpl. by destruct (element_cell host c v Hv) as (_ & _ & ?).
    + apply BYTES_PER_ELEMENT_pos.
    + apply Forall_fmap. eapply Forall_impl; [exact Hvs|].
      intros v Hv. simpl. by destruct (element_cell host c v Hv) as (? & _ & _).
Qed.

(** ** The fixed-width number codec *)

Lemma M_bind_Ok {A B : Type} (a : A) (f : A → M B) : Logged [] (Ok a) ≫= f = f a.
Proof. unfold mbind, M_bind. simpl. by destruct (f a). Qed.



(** ** Cells of float typed arrays *)








(** ** The fixed-width number codec on the numbers a cell holds *)



(** ** The dispatch on type names *)

Lemma integer_kinds_checked :
  Forall (fun '(name, c) =>
            kind_check name c false = true ∧ kind_check (name +:+ "[]") c true = true)
    integer_kinds.
Proof. apply (bool_decide_unpack _). vm_compute. exact I. Qed.

Lemma kind_check_elim type c array :
  kind_check type c array = true →
  String.eqb type "bool" = false ∧ String.eqb type "cstr" = false ∧
  String.eqb type "str" = false ∧ String.eqb type "bytes" = false ∧
  endsWith type "[]" = array ∧
  char_at type 1 ≠ Some "v"%char ∧
  typed_array_constructor_of type = Logged [] (Ok c) ∧
  parseInt (char_at type 1) = Some (BYTES_PER_ELEMENT c).
Proof.
  unfold kind_check, dispatches_to_numbers, table_returns.
  rewrite !andb_true_iff, !negb_true_iff. intros [[[[[[[H1 H2] H3] H4] H5] H6] H7] H8].
  repeat split; try done.
  - by apply Bool.eqb_prop.
  - by apply bool_decide_eq_false_1 in H6.
  - destruct (typed_array_constructor_of type) as [[|] [c'| | |]]; try done.
    apply bool_decide_eq_true_1 in H7. by subst.
  - by apply bool_decide_eq_true_1 in H8.
Qed.





(** ** Text *)

Lemma TextDecoder_decode_encode s :
  no_byte_order_mark s → TextDecoder_decode (TextEncoder_encode s) = s.
Proof.
  intros Hbom. unfold TextDecoder_decode. rewrite Hbom.
  unfold TextEncoder_encode. rewrite <- list_fmap_compose.
  rewrite <- (string_of_list_ascii_of_string s) at 2. f_equal.
  rewrite <- (list_fmap_id (list_ascii_of_string s)) at 2.
  apply list_fmap_ext. intros i c _. simpl. by rewrite N2Z.id, ascii_N_embedding.
Qed.



(** ** The round trip through [pack] and [unpack] *)









(** The byte order mark followed by the letter a. *)
Example marked_text_bytes :
  TextEncoder_encode
    (String (ascii_of_nat 239) (String (ascii_of_nat 187) (String (ascii_of_nat 191) "a")))
  = [239; 187; 191; 97].
Proof. reflexivity. Qed.




(** * Further properties *)

(** ** Buffer assembly *)

Lemma length_Uint8Array_from l : length (Uint8Array_from l) = length l.
Proof. unfold Uint8Array_from. by rewrite length_fmap. Qed.

Lemma Uint8Array_from_is_u8 l : Forall is_u8 (Uint8Array_from l).
Proof.
  unfold Uint8Array_from. apply Forall_fmap, Forall_true. intros b. apply ToUint8_u8.
Qed.

Lemma push_offsets_spec (arrs : list (list Z)) :
  ∀ (pre : list nat) (s : nat),
    push_offsets arrs (pre ++ [s])
    = pre ++ starts s arrs ++ [(s + length (concat arrs))%nat].
Proof.
  induction arrs as [|arr rest IH]; intros pre s.
  - simpl. by rewrite Nat.add_0_r.
  - cbn [push_offsets starts concat]. rewrite last_snoc.
    change (default 0%nat (Some s)) with s.
    rewrite IH, length_app, <- !app_assoc, Nat.add_assoc. done.
Qed.

Lemma set_each_spec (arrs : list (list Z)) :
  ∀ (filled : list Z),
    set_each arrs (starts (length filled) arrs)
      (filled ++ replicate (length (concat arrs)) 0)
    = Ok (filled ++ concat (Uint8Array_from <$> arrs)).
Proof.
  induction arrs as [|arr rest IH]; intros filled.
  - done.
  - cbn [set_each starts concat head tail]. rewrite fmap_cons. cbn [concat].
    unfold Uint8Array_set. change (default 0%nat (Some (length filled))) with (length filled).
    rewrite length_app, length_replicate, length_app.
    rewrite (proj2 (Nat.leb_le _ _)) by lia. cbn [mbind res_bind].
    rewrite take_app_length.
    rewrite drop_app_ge by lia.
    replace (length filled + length arr - length filled)%nat with (length arr) by lia.
    rewrite drop_replicate.
    replace (length arr + length (concat rest) - length arr)%nat
      with (length (concat rest)) by lia.
    specialize (IH (filled ++ Uint8Array_from arr)).
    rewrite length_app, length_Uint8Array_from in IH.
    rewrite <- !app_assoc in IH. exact IH.
Qed.

Lemma Uint8Array_from_each_u8 (arrs : list (list Z)) :
  Forall (Forall is_u8) arrs → Uint8Array_from <$> arrs = arrs.
Proof.
  intros Hu8. induction Hu8 as [|arr rest Harr _ IH]; [done|].
  rewrite fmap_cons, IH. by rewrite Uint8Array_from_u8.
Qed.

Lemma concatBytes_cells (arrs : list (list Z)) :
  concatBytes arrs = Ok (concat (Uint8Array_from <$> arrs)).
Proof.
  unfold concatBytes.
  pose proof (push_offsets_spec arrs [] 0) as Hoffsets. simpl in Hoffsets.
  rewrite Hoffsets.
  rewrite last_snoc, removelast_last.
  change (default 0%nat (Some (length (concat arrs)))) with (length (concat arrs)).
  apply (set_each_spec arrs []).
Qed.

Lemma concatBytes_bytes (arrs : list (list Z)) :
  Forall (Forall is_u8) arrs → concatBytes arrs = Ok (concat arrs).
Proof. intros Hu8. by rewrite concatBytes_cells, Uint8Array_from_each_u8. Qed.

(** X1. [concatBytes] returns for every list of arrays, and the buffer it
    returns holds the cells of the arrays in argument order, each number
    stored as a byte (modulo 256); arrays of bytes are joined as they are,
    and no array gives the empty buffer. *)
Theorem concatBytes_spec (arrs : list (list Z)) :
  concatBytes arrs = Ok (concat (Uint8Array_from <$> arrs)) ∧
  (Forall (Forall is_u8) arrs → concatBytes arrs = Ok (concat arrs)).
Proof. split; [apply concatBytes_cells|apply concatBytes_bytes]. Qed.

(** ** Comparison of arrays *)

Lemma isSubidentical_loop (arr1 arr2 : list Z) (len : nat) :
  len = Nat.min (length arr1) (length arr2) →
  ∀ (k i fuel : nat),
    (i + k = len)%nat → (k ≤ fuel)%nat → take i arr1 = take i arr2 →
    ∃ st,
      while fuel
        (fun '(i, returned) => bool_decide (returned = None) && (i <? len)%nat)
        (fun '(i, _) =>
           if bool_decide (arr1 !! i ≠ arr2 !! i) then Ok (i, Some false)
           else Ok (S i, @None bool))
        (i, None) = Ok st ∧
      default true st.2 = bool_decide (take len arr1 = take len arr2).
Proof.
  intros Hlen k. induction k as [|k IH]; intros i fuel Hi Hfuel Hprefix.
  - assert (i = len) as -> by lia.
    exists (len, None). split.
    + destruct fuel; cbn [while]; rewrite bool_decide_eq_true_2 by done;
        rewrite (proj2 (Nat.ltb_ge _ _)) by lia; done.
    + cbn [snd default]. by rewrite bool_decide_eq_true_2.
  - destruct fuel as [|fuel]; [lia|].
    rewrite while_S.
    2:{ rewrite bool_decide_eq_true_2 by done. apply Nat.ltb_lt. lia. }
    destruct (lookup_lt_is_Some_2 arr1 i) as [x1 Hx1]; [lia|].
    destruct (lookup_lt_is_Some_2 arr2 i) as [x2 Hx2]; [lia|].
    destruct (decide (arr1 !! i ≠ arr2 !! i)) as [Hne|Heq].
    + rewrite bool_decide_eq_true_2 by done. cbn [mbind res_bind].
      exists (i, Some false). split.
      * destruct fuel; cbn [while]; by rewrite bool_decide_eq_false_2.
      * cbn [snd default]. symmetry. apply bool_decide_eq_false_2. intros Htake.
        apply Hne.
        rewrite <- (lookup_take_lt arr1 len i), <- (lookup_take_lt arr2 len i) by lia.
        by rewrite Htake.
    + rewrite bool_decide_eq_false_2 by done. cbn [mbind res_bind].
      apply IH; [lia|lia|].
      rewrite (take_S_r _ _ _ Hx1), (take_S_r _ _ _ Hx2), Hprefix.
      apply dec_stable in Heq. rewrite Hx1, Hx2 in Heq. by simplify_eq.
Qed.

Lemma isSubidentical_prefix (arr1 arr2 : list Z) :
  isSubidentical arr1 arr2
  = Ok (bool_decide (take (Nat.min (length arr1) (length arr2)) arr1
                     = take (Nat.min (length arr1) (length arr2)) arr2)).
Proof.
  unfold isSubidentical.
  destruct (isSubidentical_loop arr1 arr2 _ eq_refl
              (Nat.min (length arr1) (length arr2)) 0
              (Nat.min (length arr1) (length arr2)))
    as ([i returned] & -> & Hret); [lia|lia|done|].
  cbn [mbind res_bind]. by rewrite <- Hret.
Qed.

(** X2. [isSubidentical] returns, and it answers [true] exactly when the
    two arrays agree on the cells that both have (the cells before the
    length of the shorter one); [isIdentical] returns, and it answers
    [true] exactly when the two arrays are equal, in length and in every
    cell. *)
Theorem isIdentical_decides_equality (arr1 arr2 : list Z) :
  isSubidentical arr1 arr2
    = Ok (bool_decide (take (Nat.min (length arr1) (length arr2)) arr1
                       = take (Nat.min (length arr1) (length arr2)) arr2)) ∧
  isIdentical arr1 arr2 = Ok (bool_decide (arr1 = arr2)).
Proof.
  split; [apply isSubidentical_prefix|].
  unfold isIdentical.
  destruct (decide (length arr1 ≠ length arr2)) as [Hne|Heq].
  - rewrite bool_decide_eq_true_2 by done.
    rewrite bool_decide_eq_false_2; [done|]. intros ->. by apply Hne.
  - rewrite bool_decide_eq_false_2 by done. apply dec_stable in Heq.
    rewrite isSubidentical_prefix, <- Heq, Nat.min_id.
    rewrite firstn_all, (take_ge arr2) by lia. done.
Qed.

(** ** Values read back in place *)

Lemma subarray_middle (pre bytes post : list Z) :
  subarray (pre ++ bytes ++ post) (Z.of_nat (length pre))
    (Some (Z.of_nat (length pre) + Z.of_nat (length bytes))) = bytes.
Proof.
  unfold subarray, relative_index.
  destruct (Z.ltb_spec (Z.of_nat (length pre)) 0); [lia|].
  destruct (Z.ltb_spec (Z.of_nat (length pre) + Z.of_nat (length bytes)) 0); [lia|].
  rewrite !length_app.
  replace (Z.to_nat (Z.min (Z.of_nat (length pre))
             (Z.of_nat (length pre + (length bytes + length post)))))
    with (length pre) by lia.
  replace (Z.to_nat (Z.min (Z.of_nat (length pre) + Z.of_nat (length bytes))
             (Z.of_nat (length pre + (length bytes + length post)))))
    with (length pre + length bytes)%nat by lia.
  rewrite drop_app_length.
  replace (length pre + length bytes - length pre)%nat with (length bytes) by lia.
  apply take_app_length.
Qed.

Lemma TextEncoder_encode_u8 s : Forall is_u8 (TextEncoder_encode s).
Proof.
  unfold TextEncoder_encode. apply Forall_fmap, Forall_true. intros c.
  unfold is_u8. pose proof (N_ascii_bounded c). simpl. lia.
Qed.

Lemma in_place_bool host b args :
  ∃ bytes,
    pack host "bool" (JBoolean b) args = Logged [] (Ok bytes) ∧
    decodes_in_place host "bool" (JBoolean b) args bytes.
Proof.
  exists (encode_bool b). split; [done|]. split.
  - unfold encode_bool. apply Forall_singleton. unfold is_u8. destruct b; lia.
  - intros pre post.
    change (unpack host "bool" (pre ++ encode_bool b ++ post) (length pre) args)
      with (Logged [] (Ok (prod_map JBoolean id
                             (decode_bool (pre ++ encode_bool b ++ post) (length pre))))).
    unfold decode_bool. rewrite lookup_app_r by lia. rewrite Nat.sub_diag.
    by destruct b.
Qed.

Lemma in_place_cstr host s args :
  no_nul s → no_byte_order_mark s →
  ∃ bytes,
    pack host "cstr" (JString s) args = Logged [] (Ok bytes) ∧
    decodes_in_place host "cstr" (JString s) args bytes.
Proof.
  intros Hnul Hbom. exists (encode_cstr s). split; [done|].
  rewrite encode_cstr_spec. split.
  - apply Forall_app. split; [apply TextEncoder_encode_u8|].
    apply Forall_singleton. unfold is_u8. lia.
  - intros pre post.
    change (unpack host "cstr" ?buf ?o args)
      with (Logged [] (Ok (prod_map JString id (decode_cstr buf o)))).
    set (text := TextEncoder_encode s).
    rewrite (decode_cstr_terminated _ (length pre) (length pre + length text)).
    + replace (length pre + length text - length pre)%nat with (length text) by lia.
      rewrite drop_app_length, <- !app_assoc, take_app_length.
      subst text. rewrite TextDecoder_decode_encode by done.
      unfold prod_map. cbn [fst snd id]. rewrite length_app. cbn [length].
      do 3 f_equal. lia.
    + lia.
    + rewrite lookup_app_r by lia.
      replace (length pre + length text - length pre)%nat with (length text) by lia.
      rewrite <- !app_assoc. rewrite lookup_app_r by lia. by rewrite Nat.sub_diag.
    + intros i Hi Hzero. apply Hnul. apply list_elem_of_lookup.
      exists (i - length pre)%nat.
      rewrite lookup_app_r in Hzero by lia.
      rewrite <- !app_assoc in Hzero.
      rewrite lookup_app_l in Hzero by lia. exact Hzero.
Qed.

Lemma in_place_str host s args :
  no_byte_order_mark s → head args = Some (Z.of_nat (length (TextEncoder_encode s))) →
  ∃ bytes,
    pack host "str" (JString s) args = Logged [] (Ok bytes) ∧
    decodes_in_place host "str" (JString s) args bytes.
Proof.
  intros Hbom Hargs. exists (encode_str s). split; [done|]. split.
  - apply TextEncoder_encode_u8.
  - intros pre post.
    change (unpack host "str" ?buf ?o args)
      with (Logged [] (Ok (prod_map JString id (decode_str buf o (head args))))).
    unfold decode_str, encode_str. rewrite Hargs. cbn [fmap option_fmap option_map].
    rewrite subarray_middle. by rewrite TextDecoder_decode_encode.
Qed.

Lemma in_place_bytes host b args :
  Forall is_u8 b → head args = Some (Z.of_nat (length b)) →
  ∃ bytes,
    pack host "bytes" (JBytes b) args = Logged [] (Ok bytes) ∧
    decodes_in_place host "bytes" (JBytes b) args bytes.
Proof.
  intros Hb Hargs. exists b. split; [done|]. split; [done|].
  intros pre post.
  change (unpack host "bytes" ?buf ?o args)
    with (Logged [] (Ok (prod_map JBytes id (decode_bytes buf o (head args))))).
  unfold decode_bytes, slice. rewrite Hargs. cbn [fmap option_fmap option_map].
  by rewrite subarray_middle.
Qed.

Lemma number_array_in_place (host : Platform) (type : string)
    (c : TypedArrayConstructor) (vs : list Z) :
  char_at type 1 ≠ Some "v"%char →
  typed_array_constructor_of type = Logged [] (Ok c) →
  parseInt (char_at type 1) = Some (BYTES_PER_ELEMENT c) →
  Forall (in_range c) vs → vs ≠ [] →
  ∃ bytes,
    encode_number_array host vs type = Logged [] (Ok bytes) ∧
    Forall is_u8 bytes ∧
    ∀ pre post : list Z,
      decode_number_array host (pre ++ bytes ++ post) (length pre) type
        (Some (Z.of_nat (length vs)))
      = Logged [] (Ok (vs, Z.of_nat (length bytes))).
Proof.
  intros Hv Htable Hsize Hvs Hne.
  destruct (typed_array_cells host c vs Hvs) as (Hlen & Hu8 & Hfrom).
  set (B := concat (element_bytes host c <$> vs)) in *.
  set (w := BYTES_PER_ELEMENT c) in *.
  pose proof (BYTES_PER_ELEMENT_pos c) as Hw. fold w in Hw.
  set (native := is_native_endian_of host (char_at type 2) (Some w)).
  exists (if native then B else swapped w B).
  assert (length (if native then B else swapped w B) = length B) as Hwire.
  { destruct native; [done|apply length_swapped]. }
  assert (0 < length vs)%nat as Hpos by (destruct vs; [done|simpl; lia]).
  split; [|split].
  - unfold encode_number_array. rewrite bool_decide_eq_false_2 by done.
    rewrite Htable, M_bind_Ok, Hsize. fold w native.
    cbn [TypedArray_from ta_constructor ta_buffer]. fold B.
    destruct (decide (c = Uint8Array)) as [->|Hc].
    + rewrite bool_decide_eq_true_2 by done.
      assert (native = true) as ->; [|done].
      subst native w. unfold is_native_endian_of. simpl. apply orb_true_r.
    + rewrite bool_decide_eq_false_2 by done.
      destruct native; [done|].
      change (loop_bound (Some w)) with w.
      by rewrite (swapEndianessFast_bytes_spec B w (length vs)).
  - destruct native; [done|]. by apply (swapped_u8 w (length vs)).
  - intros pre post.
    unfold decode_number_array. rewrite bool_decide_eq_false_2 by done.
    rewrite Hsize. fold w native.
    destruct (Z.eqb_spec (Z.of_nat (length vs)) 0) as [|_]; [lia|].
    cbn [fmap option_fmap option_map].
    destruct (Z.eqb_spec (Z.of_nat w * Z.of_nat (length vs)) 0) as [|_]; [nia|].
    replace (Z.of_nat w * Z.of_nat (length vs))
      with (Z.of_nat (length (if native then B else swapped w B)))
      by (rewrite Hwire, Hlen; lia).
    unfold slice. rewrite subarray_middle.
    rewrite Htable, M_bind_Ok.
    assert ((if native then Ok (if native then B else swapped w B)
             else swapEndianessFast_bytes (if native then B else swapped w B)
                    (loop_bound (Some w))) = Ok B) as ->.
    { destruct native; [done|]. change (loop_bound (Some w)) with w.
      rewrite (swapEndianessFast_bytes_spec _ w (length vs)).
      - f_equal. by apply (swapped_involutive w (length vs)).
      - by apply (swapped_u8 w (length vs)).
      - done.
      - by rewrite length_swapped. }
    unfold lift. rewrite M_bind_Ok. unfold TypedArray_new. fold w.
    rewrite bool_decide_eq_true_2 by (rewrite Hlen; apply Nat.Div0.mod_mul).
    rewrite M_bind_Ok. rewrite Hfrom. reflexivity.
Qed.

Lemma in_place_number_array host type c vs args :
  kind_check type c true = true → Forall (in_range c) vs → vs ≠ [] →
  head args = Some (Z.of_nat (length vs)) →
  ∃ bytes,
    pack host type (JArray vs) args = Logged [] (Ok bytes) ∧
    decodes_in_place host type (JArray vs) args bytes.
Proof.
  intros Hk Hvs Hne Hargs.
  destruct (kind_check_elim _ _ _ Hk) as (E1 & E2 & E3 & E4 & E5 & Hv & Htable & Hsize).
  destruct (number_array_in_place host type c vs Hv Htable Hsize Hvs Hne)
    as (bytes & Henc & Hu8 & Hdec).
  exists bytes. split; [|split; [done|]].
  - unfold pack. rewrite E1, E2, E3, E4, E5.
    unfold lift. cbn [as_number_array]. by rewrite M_bind_Ok.
  - intros pre post. unfold unpack. rewrite E1, E2, E3, E4, E5.
    rewrite Hargs, Hdec. reflexivity.
Qed.

Lemma in_place_number host type c v args :
  kind_check type c false = true → in_range c v →
  ∃ bytes,
    pack host type (JNumber v) args = Logged [] (Ok bytes) ∧
    decodes_in_place host type (JNumber v) args bytes.
Proof.
  intros Hk Hin.
  destruct (kind_check_elim _ _ _ Hk) as (E1 & E2 & E3 & E4 & E5 & Hv & Htable & Hsize).
  destruct (number_array_in_place host type c [v] Hv Htable Hsize)
    as (bytes & Henc & Hu8 & Hdec); [by apply Forall_singleton|done|].
  exists bytes. split; [|split; [done|]].
  - unfold pack. rewrite E1, E2, E3, E4, E5.
    unfold lift. cbn [as_number]. by rewrite M_bind_Ok.
  - intros pre post. unfold unpack. rewrite E1, E2, E3, E4, E5.
    unfold decode_number. change (Some 1) with (Some (Z.of_nat (length [v]))).
    rewrite Hdec, M_bind_Ok. reflexivity.
Qed.

Lemma drop_middle (pre bytes post : list Z) :
  drop (length pre) (pre ++ bytes ++ post) = bytes ++ post.
Proof. apply drop_app_length. Qed.

Lemma in_place_uv_array host vs args :
  Forall uvar_range vs → head args = Some (Z.of_nat (length vs)) →
  ∃ bytes,
    pack host "uv[]" (JArray vs) args = Logged [] (Ok bytes) ∧
    decodes_in_place host "uv[]" (JArray vs) args bytes.
Proof.
  intros Hvs Hargs. exists (concat (uvar_bytes <$> vs)).
  assert (Forall self_terminated (uvar_bytes <$> vs)) as Hst.
  { apply Forall_fmap. eapply Forall_impl; [exact Hvs|].
    intros v Hv. by apply uvar_bytes_self_terminated. }
  split; [|split].
  - change (pack host "uv[]" (JArray vs) args)
      with (Logged [] (Ok vs) ≫= fun value => lift (encode_uvar_array value)).
    by rewrite M_bind_Ok, encode_uvar_array_spec.
  - by apply Forall_concat_u8.
  - intros pre post.
    change (unpack host "uv[]" ?buf ?o args)
      with (prod_map JArray id <$> lift (decode_uvar_array buf o (head args))).
    rewrite Hargs. rewrite <- (length_fmap uvar_bytes vs).
    rewrite (decode_uvar_array_counted _ _ _ post (drop_middle _ _ _) Hst).
    rewrite <- list_fmap_compose.
    rewrite (list_fmap_ext (uvar_fold 0 ∘ uvar_bytes) id vs), list_fmap_id; [done|].
    intros i v Hi. simpl. apply uvar_fold_uvar_bytes.
    apply (proj1 (Forall_lookup _ _) Hvs i v Hi).
Qed.

Lemma in_place_iv_array host vs args :
  Forall ivar_range vs → head args = Some (Z.of_nat (length vs)) →
  ∃ bytes,
    pack host "iv[]" (JArray vs) args = Logged [] (Ok bytes) ∧
    decodes_in_place host "iv[]" (JArray vs) args bytes.
Proof.
  intros Hvs Hargs. exists (concat (ivar_bytes <$> vs)).
  assert (Forall self_terminated (ivar_bytes <$> vs)) as Hst.
  { apply Forall_fmap. eapply Forall_impl; [exact Hvs|].
    intros v Hv. by apply ivar_bytes_self_terminated. }
  split; [|split].
  - change (pack host "iv[]" (JArray vs) args)
      with (Logged [] (Ok vs) ≫= fun value => lift (encode_ivar_array value)).
    by rewrite M_bind_Ok, encode_ivar_array_spec.
  - by apply Forall_concat_u8.
  - intros pre post.
    change (unpack host "iv[]" ?buf ?o args)
      with (prod_map JArray id <$> lift (decode_ivar_array buf o (head args))).
    rewrite Hargs. rewrite <- (length_fmap ivar_bytes vs).
    rewrite (decode_ivar_array_counted _ _ _ post (drop_middle _ _ _) Hst).
    rewrite <- list_fmap_compose.
    rewrite (list_fmap_ext (ivar_value ∘ ivar_bytes) id vs), list_fmap_id; [done|].
    intros i v Hi. simpl. apply ivar_value_ivar_bytes.
    apply (proj1 (Forall_lookup _ _) Hvs i v Hi).
Qed.

Lemma in_place_uv host v args :
  uvar_range v →
  ∃ bytes,
    pack host "uv" (JNumber v) args = Logged [] (Ok bytes) ∧
    decodes_in_place host "uv" (JNumber v) args bytes.
Proof.
  intros Hv. exists (concat (uvar_bytes <$> [v])).
  assert (Forall self_terminated (uvar_bytes <$> [v])) as Hst.
  { apply Forall_singleton. by apply uvar_bytes_self_terminated. }
  split; [|split].
  - change (pack host "uv" (JNumber v) args)
      with (Logged [] (Ok v) ≫= fun value => lift (encode_uvar_array [value])).
    rewrite M_bind_Ok, encode_uvar_array_spec; [done|by apply Forall_singleton].
  - by apply Forall_concat_u8.
  - intros pre post.
    change (unpack host "uv" ?buf ?o args)
      with (lift (decode_uvar_array buf o (Some 1))
            ≫= fun '(value_arr, bytesize) => mret (first_of value_arr, bytesize)).
    change (Some 1) with (Some (Z.of_nat (length (uvar_bytes <$> [v])))).
    rewrite (decode_uvar_array_counted _ _ _ post (drop_middle _ _ _) Hst).
    unfold lift. rewrite M_bind_Ok. cbn [fmap list_fmap first_of].
    simpl. by rewrite uvar_fold_uvar_bytes.
Qed.

Lemma in_place_iv host v args :
  ivar_range v →
  ∃ bytes,
    pack host "iv" (JNumber v) args = Logged [] (Ok bytes) ∧
    decodes_in_place host "iv" (JNumber v) args bytes.
Proof.
  intros Hv. exists (concat (ivar_bytes <$> [v])).
  assert (Forall self_terminated (ivar_bytes <$> [v])) as Hst.
  { apply Forall_singleton. by apply ivar_bytes_self_terminated. }
  split; [|split].
  - change (pack host "iv" (JNumber v) args)
      with (Logged [] (Ok v) ≫= fun value => lift (encode_ivar_array [value])).
    rewrite M_bind_Ok, encode_ivar_array_spec; [done|by apply Forall_singleton].
  - by apply Forall_concat_u8.
  - intros pre post.
    change (unpack host "iv" ?buf ?o args)
      with (lift (decode_ivar_array buf o (Some 1))
            ≫= fun '(value_arr, bytesize) => mret (first_of value_arr, bytesize)).
    change (Some 1) with (Some (Z.of_nat (length (ivar_bytes <$> [v])))).
    rewrite (decode_ivar_array_counted _ _ _ post (drop_middle _ _ _) Hst).
    unfold lift. rewrite M_bind_Ok. cbn [fmap list_fmap first_of].
    simpl. by rewrite ivar_value_ivar_bytes.
Qed.

Lemma delimited_in_place (host : Platform) (type : string) (value : JSPrimitive)
    (args : list Z) :
  delimited type value args →
  ∃ bytes,
    pack host type value args = Logged [] (Ok bytes) ∧
    decodes_in_place host type value args bytes.
Proof.
  intros Hdl. destruct Hdl as
    [b args | s args Hnul Hbom | s args Hbom Hargs | b args Hb Hargs
    | name c v args Hin Hv | name c vs args Hin Hvs Hne Hargs
    | v args Hv | v args Hv | vs args Hvs Hargs | vs args Hvs Hargs].
  - apply in_place_bool.
  - by apply in_place_cstr.
  - by apply in_place_str.
  - by apply in_place_bytes.
  - pose proof (proj1 (Forall_forall _ _) integer_kinds_checked _ Hin) as [Hk _].
    by apply (in_place_number host name c).
  - pose proof (proj1 (Forall_forall _ _) integer_kinds_checked _ Hin) as [_ Hk].
    by apply (in_place_number_array host _ c).
  - by apply in_place_uv.
  - by apply in_place_iv.
  - by apply in_place_uv_array.
  - by apply in_place_iv_array.
Qed.

(** X3. A value of the codec is read back wherever its bytes stand. For
    the types bool, cstr, str, bytes, the integer kinds, uv, iv and the
    array forms of the numeric ones, and a value that the codec carries,
    [pack] returns bytes (each within a byte, with nothing written to the
    console), and [unpack] at the offset of these bytes within any buffer,
    whatever precedes and follows them, returns the value and the number
    of the bytes, given as extra argument the byte length of a str or
    bytes value, or the number of items of an array (at least one for the
    fixed-width kinds). *)
Theorem unpack_at_offset (host : Platform) (type : string) (value : JSPrimitive)
    (args : list Z) (pre post : list Z) :
  delimited type value args →
  ∃ bytes,
    pack host type value args = Logged [] (Ok bytes) ∧
    Forall is_u8 bytes ∧
    unpack host type (pre ++ bytes ++ post) (length pre) args
    = Logged [] (Ok (value, Z.of_nat (length bytes))).
Proof.
  intros Hdl. destruct (delimited_in_place host type value args Hdl)
    as (bytes & Hpack & Hu8 & Hdec).
  exists bytes. split; [done|]. split; [done|]. apply Hdec.
Qed.

Lemma unpack_at_offset_witness :
  ∃ bytes,
    pack big_endian_host "u2l[]" (JArray [258; 7]) [2] = Logged [] (Ok bytes) ∧
    Forall is_u8 bytes ∧
    unpack big_endian_host "u2l[]" ([9; 9; 9] ++ bytes ++ [8; 8]) (length [9; 9; 9]) [2]
    = Logged [] (Ok (JArray [258; 7], Z.of_nat (length bytes))).
Proof.
  apply (unpack_at_offset big_endian_host "u2l[]" (JArray [258; 7]) [2] [9; 9; 9] [8; 8]).
  apply (dl_number_array "u2l" Uint16Array).
  - apply (bool_decide_unpack _). vm_compute. exact I.
  - apply Forall_cons. split; [simpl; lia|].
    apply Forall_cons. split; [simpl; lia|apply Forall_nil_2].
  - discriminate.
  - reflexivity.
Defined.

(** ** Sequences and cursors *)








(** ** The in-place swap on buffers of any length *)

Lemma while_done {St : Type} (cond : St → bool) (body : St → res St) fuel s :
  cond s = false → while fuel cond body s = Ok s.
Proof. intros Hc. destruct fuel; simpl; by rewrite Hc. Qed.

Lemma chunks_fuel_nil fuel w : chunks_fuel fuel w [] = [].
Proof. by destruct fuel. Qed.

Lemma chunks_fuel_cons fuel w l :
  l ≠ [] → chunks_fuel (S fuel) w l = take w l :: chunks_fuel fuel w (drop w l).
Proof. by destruct l. Qed.

Lemma length_chunks_reversed bs :
  (0 < bs)%nat →
  ∀ fuel l, (length l ≤ fuel)%nat →
    length (concat (reverse <$> chunks_fuel fuel bs l)) = length l.
Proof.
  intros Hbs fuel. induction fuel as [|fuel IH]; intros l Hfuel.
  - destruct l; [done|simpl in Hfuel; lia].
  - destruct l as [|x l]; [done|].
    rewrite chunks_fuel_cons by done. rewrite fmap_cons. cbn [concat].
    rewrite length_app, length_reverse, length_take, IH
      by (rewrite length_drop; simpl in *; lia).
    rewrite length_drop. lia.
Qed.

Lemma chunks_reversed_involutive bs :
  (0 < bs)%nat →
  ∀ fuel l, (length l ≤ fuel)%nat →
    concat (reverse <$> chunks_fuel fuel bs (concat (reverse <$> chunks_fuel fuel bs l))) = l.
Proof.
  intros Hbs fuel. induction fuel as [|fuel IH]; intros l Hfuel.
  - destruct l; [done|simpl in Hfuel; lia].
  - destruct l as [|x l']; [done|]. set (l := x :: l') in *.
    assert (l ≠ []) as Hne by done.
    rewrite (chunks_fuel_cons fuel bs l Hne). rewrite fmap_cons. cbn [concat].
    set (R := concat (reverse <$> chunks_fuel fuel bs (drop bs l))).
    assert (reverse (take bs l) ++ R ≠ []) as Hne'.
    { intros Hnil. apply (f_equal length) in Hnil.
      rewrite length_app, length_reverse, length_take in Hnil.
      subst l. simpl in Hnil. lia. }
    rewrite (chunks_fuel_cons fuel bs _ Hne'). rewrite fmap_cons. cbn [concat].
    destruct (decide (length l ≤ bs)%nat) as [Hshort|Hlong].
    + assert (R = []) as ->.
      { subst R. rewrite drop_ge by done. by rewrite chunks_fuel_nil. }
      rewrite app_nil_r, (take_ge l) by done.
      rewrite take_ge, drop_ge by (rewrite length_reverse; done).
      rewrite chunks_fuel_nil, reverse_involutive. cbn [fmap list_fmap concat].
      by rewrite app_nil_r.
    + assert (length (reverse (take bs l)) = bs) as Hlen.
      { rewrite length_reverse, length_take. lia. }
      rewrite take_app_length', drop_app_length' by done.
      rewrite reverse_involutive. subst R.
      rewrite IH by (rewrite length_drop; subst l; simpl in *; lia).
      apply take_drop.
Qed.

Lemma swapEndianess_loop (h : heap) (p : loc) (bs len : nat) :
  (0 < bs)%nat →
  ∀ (fuel : nat) (rest done : list Z) (i : nat),
    (length rest ≤ fuel)%nat → len = (length done + length rest)%nat →
    (rest ≠ [] → i = length done) → (length done ≤ i)%nat →
    ∃ i',
      while fuel (fun '(i, _) => (i <? len)%nat)
        (fun '(i, h) => Ok ((i + bs)%nat, heap_reverse_subarray h p i (i + bs)))
        (i, <[p := done ++ rest]> h)
      = Ok (i', <[p := done ++ concat (reverse <$> chunks_fuel fuel bs rest)]> h).
Proof.
  intros Hbs fuel. induction fuel as [|fuel IH]; intros rest done i Hfuel Hlen Hi Hge.
  - destruct rest; [|simpl in Hfuel; lia]. exists i.
    rewrite while_done; [done|]. apply Nat.ltb_ge. simpl in Hlen. lia.
  - destruct rest as [|x rest'].
    + exists i. rewrite while_done; [done|]. apply Nat.ltb_ge. simpl in Hlen. lia.
    + set (rest := x :: rest') in *.
      assert (rest ≠ []) as Hne by done.
      specialize (Hi Hne). subst i.
      rewrite while_S by (apply Nat.ltb_lt; subst rest; simpl in Hlen; lia).
      cbn [mbind res_bind].
      unfold heap_reverse_subarray. rewrite alter_insert_eq.
      assert (reverse_cells (length done) (length done + bs) (done ++ rest)
              = (done ++ reverse (take bs rest)) ++ drop bs rest) as ->.
      { unfold reverse_cells. rewrite take_app_length, drop_app_length.
        replace (length done + bs - length done)%nat with bs by lia.
        rewrite drop_app_ge by lia.
        replace (length done + bs - length done)%nat with bs by lia.
        by rewrite <- app_assoc. }
      destruct (IH (drop bs rest) (done ++ reverse (take bs rest)) (length done + bs)%nat)
        as [i' Hw].
      * rewrite length_drop. subst rest. simpl in *. lia.
      * rewrite length_app, length_reverse, length_take, length_drop. lia.
      * intros Hmore. rewrite length_app, length_reverse, length_take.
        destruct (decide (length rest ≤ bs)%nat); [|lia].
        rewrite drop_ge in Hmore by done. done.
      * rewrite length_app, length_reverse, length_take. lia.
      * exists i'. unfold heap_reverse_subarray in Hw. rewrite Hw.
        rewrite (chunks_fuel_cons fuel bs rest Hne).
        rewrite fmap_cons. cbn [concat]. by rewrite <- !app_assoc.
Qed.

Lemma swapEndianess_chunks (h : heap) (p : loc) (cells : list Z) (bs : nat) :
  h !! p = Some cells → (0 < bs)%nat →
  swapEndianess h p bs = Ok (<[p := concat (reverse <$> chunks bs cells)]> h, p).
Proof.
  intros Hp Hbs. unfold swapEndianess. rewrite (byteLength_lookup h p cells Hp).
  destruct (swapEndianess_loop h p bs (length cells) Hbs (length cells) cells [] 0)
    as [i' Hw]; [lia|done|done|simpl; lia|].
  cbn [app] in Hw. rewrite (insert_id h p cells Hp) in Hw. rewrite Hw. done.
Qed.

(** X6. The in-place [swapEndianess] on a buffer of any length, for a
    positive byte size: the call returns the buffer it was given, whose
    cells are now the chunks of [bytesize] cells each in reverse order
    (the shorter last chunk, if any, reversed as well); no other buffer of
    the store is touched; and a second call restores the store. *)
Theorem swapEndianess_in_place (h : heap) (buf : loc) (cells : list Z) (bytesize : nat) :
  h !! buf = Some cells → (0 < bytesize)%nat →
  ∃ h1,
    swapEndianess h buf bytesize = Ok (h1, buf) ∧
    h1 !! buf = Some (concat (reverse <$> chunks bytesize cells)) ∧
    (∀ p, p ≠ buf → h1 !! p = h !! p) ∧
    swapEndianess h1 buf bytesize = Ok (h, buf).
Proof.
  intros Hbuf Hbs.
  exists (<[buf := concat (reverse <$> chunks bytesize cells)]> h).
  split; [by apply swapEndianess_chunks|].
  split; [apply lookup_insert_eq|].
  split; [intros p Hp; by apply lookup_insert_ne|].
  rewrite (swapEndianess_chunks _ buf (concat (reverse <$> chunks bytesize cells)))
    by (done || apply lookup_insert_eq).
  rewrite insert_insert_eq. unfold chunks.
  rewrite length_chunks_reversed by done.
  rewrite chunks_reversed_involutive by done.
  by rewrite insert_id.
Qed.

Lemma swapEndianess_in_place_witness :
  ∃ h1,
    swapEndianess {[ 1%positive := [1; 2; 3; 4; 5] ]} 1%positive 2 = Ok (h1, 1%positive) ∧
    h1 !! 1%positive = Some (concat (reverse <$> chunks 2 [1; 2; 3; 4; 5])) ∧
    (∀ p, p ≠ 1%positive → h1 !! p = ({[ 1%positive := [1; 2; 3; 4; 5] ]} : heap) !! p) ∧
    swapEndianess h1 1%positive 2 = Ok ({[ 1%positive := [1; 2; 3; 4; 5] ]}, 1%positive).
Proof.
  apply (swapEndianess_in_place {[ 1%positive := [1; 2; 3; 4; 5] ]} 1%positive
           [1; 2; 3; 4; 5] 2).
  - reflexivity.
  - lia.
Defined.

(** ** The copying swap on buffers of any length *)

Lemma elements_begun_spec bs len :
  (0 < bs)%nat →
  (len ≤ elements_begun bs len * bs)%nat ∧
  (∀ j, (j < elements_begun bs len)%nat → (j * bs < len)%nat) ∧
  (elements_begun bs len ≤ len)%nat.
Proof.
  intros Hbs. unfold elements_begun.
  pose proof (Nat.div_mod_eq (len + bs - 1) bs) as Hdm.
  pose proof (Nat.mod_upper_bound (len + bs - 1) bs) as Hr.
  set (k := ((len + bs - 1) / bs)%nat) in *.
  set (r := ((len + bs - 1) mod bs)%nat) in *.
  repeat split; [nia| intros j Hj; nia | nia].
Qed.

Lemma swapEndianessFast_mirrored (h : heap) p cells bs :
  h !! p = Some cells → Forall is_u8 cells → (0 < bs)%nat →
  swapEndianessFast h p bs
  = Ok (<[fresh (dom h) := mirrored bs cells]> h, fresh (dom h)).
Proof.
  intros Hp Hu8 Hbs. unfold swapEndianessFast, heap_alloc.
  rewrite (byteLength_lookup h p cells Hp).
  pose proof (fresh_loc_ne h p cells Hp) as Hq.
  set (q := fresh (dom h)) in *. set (len := length cells).
  destruct (elements_begun_spec bs len Hbs) as (Hcover & Hbegun & Hfuel).
  set (k := elements_begun bs len) in *.
  set (I := fun o : nat => (o, <[q := tab len (mirrored_stage bs cells o 0)]> h)).
  assert (I 0%nat = (0%nat, <[q := replicate len 0]> h)) as <-.
  { unfold I. do 2 f_equal. rewrite replicate_tab. apply tab_ext. intros x Hx.
    unfold mirrored_stage. rewrite decide_False by lia. done. }
  rewrite (while_states _ _ I bs); [| lia | | unfold I; apply Nat.ltb_ge; lia].
  { simpl. do 3 f_equal. unfold mirrored. apply tab_ext. intros x Hx.
    unfold mirrored_stage. destruct (block_split bs x Hbs). rewrite decide_True by lia. done. }
  intros o Ho. split; [unfold I; apply Nat.ltb_lt; lia|].
  set (J := fun j : nat => ((j * bs + o)%nat,
                 <[q := tab len (mirrored_stage bs cells o j)]> h)).
  unfold I at 1.
  match goal with
  | |- context [while ?f ?c ?b ?s] => assert (while f c b s = Ok (J k)) as ->
  end.
  { apply (while_states _ _ J k); [done | | unfold J; apply Nat.ltb_ge; lia].
    intros j Hj. specialize (Hbegun j Hj). unfold J. split; [apply Nat.ltb_lt; lia|].
    f_equal. f_equal; [lia|].
    unfold heap_set, heap_get. rewrite alter_insert_eq. f_equal.
    rewrite lookup_total_insert_ne by done. rewrite lookup_total_alt, Hp. simpl.
    assert (Z.of_nat (j * bs + o) + (Z.of_nat bs - 1 - Z.of_nat o * 2)
            = Z.of_nat (j * bs + (bs - 1 - o))) as -> by lia.
    rewrite (proj2 (Z.ltb_ge _ _)) by lia. rewrite Nat2Z.id.
    assert (ToUint8 (cells !! (j * bs + (bs - 1 - o))%nat)
            = default 0 (cells !! (j * bs + (bs - 1 - o))%nat)) as ->.
    { destruct (cells !! (j * bs + (bs - 1 - o))%nat) as [b|] eqn:Hb; [|done].
      simpl. apply Z.mod_small. apply (Forall_lookup_1 is_u8 cells _ b Hu8 Hb). }
    rewrite tab_insert. apply tab_ext. intros x Hx. unfold mirrored_stage.
    destruct (block_split bs x Hbs) as [Hxs Hxr].
    case_decide as Hx0.
    - subst x. rewrite block_mod, block_div by done.
      rewrite decide_True by lia. by rewrite mirror_block.
    - assert (¬ (x mod bs = o ∧ x / bs = j)%nat) as Hne by (intros [? ?]; nia).
      case_decide; case_decide; try done; lia. }
  simpl. unfold I. do 3 f_equal. apply tab_ext. intros x Hx. unfold mirrored_stage.
  destruct (block_split bs x Hbs) as [Hxs Hxr].
  pose proof (block_lt bs k x Hbs).
  case_decide; case_decide; try done; lia.
Qed.

Lemma tab_app n m f : tab (n + m) f = tab n f ++ tab m (fun x => f (n + x)%nat).
Proof.
  unfold tab. rewrite seq_app, fmap_app. f_equal.
  replace (seq (0 + n) m) with (Nat.add n <$> seq 0 m)
    by (rewrite fmap_add_seq; f_equal; lia).
  by rewrite <- list_fmap_compose.
Qed.

Lemma chunks_reversed_app bs (partial : list Z) :
  (0 < bs)%nat → (length partial < bs)%nat →
  ∀ (k : nat) (full : list Z) (fuel : nat),
    length full = (k * bs)%nat → (length full + length partial ≤ fuel)%nat →
    concat (reverse <$> chunks_fuel fuel bs (full ++ partial))
    = swapped bs full ++ reverse partial.
Proof.
  intros Hbs Hpartial k. induction k as [|k IH]; intros full fuel Hfull Hfuel.
  - destruct full; [|simpl in Hfull; lia]. cbn [app]. unfold swapped. cbn [length seq fmap list_fmap app].
    destruct partial as [|x partial']; [by rewrite chunks_fuel_nil|].
    destruct fuel as [|fuel]; [simpl in Hfuel; lia|].
    rewrite chunks_fuel_cons by done.
    rewrite take_ge, drop_ge by lia. rewrite chunks_fuel_nil.
    cbn [fmap list_fmap concat]. by rewrite app_nil_r.
  - assert (full ++ partial ≠ []) as Hne.
    { intros Hnil. apply (f_equal length) in Hnil. rewrite length_app in Hnil.
      simpl in Hnil. lia. }
    destruct fuel as [|fuel]; [lia|].
    rewrite chunks_fuel_cons by done. rewrite fmap_cons. cbn [concat].
    rewrite <- (take_drop bs full) at 3.
    rewrite (swapped_app bs (take bs full) (drop bs full))
      by (rewrite length_take; lia).
    rewrite take_app_le, drop_app_le by lia.
    rewrite (IH (drop bs full) fuel) by (rewrite ?length_drop; lia).
    by rewrite <- app_assoc.
Qed.

(** X7. On a buffer that ends with a partial element (its length is not a
    multiple of the byte size), the two swaps both return and agree on the
    complete elements, each reversed. On the partial element they go
    apart: the in-place [swapEndianess] reverses its cells among
    themselves, whereas [swapEndianessFast] mirrors them within the whole
    byte size, reading past the end of the input, so that cell [r] of the
    partial element receives its cell [bytesize - 1 - r], or 0 where the
    element has no such cell. The first of these cells is always 0, and
    the two results differ whenever the last byte of the buffer is not
    0. *)
Theorem swaps_on_partial_element (h : heap) (buf : loc) (full partial : list Z)
    (bytesize k : nat) :
  h !! buf = Some (full ++ partial) → Forall is_u8 (full ++ partial) →
  length full = (k * bytesize)%nat → (0 < length partial < bytesize)%nat →
  ∃ h1 h2 swapped_buf,
    swapEndianess h buf bytesize = Ok (h1, buf) ∧
    h1 !! buf = Some (swapped bytesize full ++ reverse partial) ∧
    swapEndianessFast h buf bytesize = Ok (h2, swapped_buf) ∧
    h2 !! swapped_buf
      = Some (swapped bytesize full
              ++ tab (length partial)
                   (fun r => default 0 (partial !! (bytesize - 1 - r)%nat))) ∧
    h2 !! swapped_buf
      = Some (swapped bytesize full
              ++ 0 :: tab (length partial - 1)
                        (fun r => default 0 (partial !! (bytesize - 2 - r)%nat))) ∧
    (last partial ≠ Some 0 → h1 !! buf ≠ h2 !! swapped_buf).
Proof.
  intros Hbuf Hu8 Hfull Hpartial.
  assert (0 < bytesize)%nat as Hbs by lia.
  set (cells := full ++ partial) in *.
  set (g := fun x : nat => default 0 (cells !! mirror bytesize x)).
  set (f := fun r : nat => default 0 (partial !! (bytesize - 1 - r)%nat)).
  assert (tab (length partial) f
          = 0 :: tab (length partial - 1)
                   (fun r => default 0 (partial !! (bytesize - 2 - r)%nat))) as Hcut.
  { replace (length partial) with (1 + (length partial - 1))%nat at 1 by lia.
    rewrite tab_app. cbn [tab seq fmap list_fmap app]. f_equal.
    - unfold f. by rewrite lookup_ge_None_2 by lia.
    - apply tab_ext. intros x Hx. unfold f. do 2 f_equal. lia. }
  assert (mirrored bytesize cells = swapped bytesize full ++ tab (length partial) f)
    as Hcopy.
  { unfold mirrored. fold g. unfold cells at 1. rewrite length_app, tab_app. f_equal.
    - rewrite swapped_tab. apply tab_ext. intros x Hx.
      unfold g, cells.
      assert (mirror bytesize x < length full)%nat as Hm
        by (rewrite Hfull; apply mirror_lt; lia).
      rewrite lookup_app_l by done.
      by rewrite (list_lookup_lookup_total_lt full _ Hm).
    - apply tab_ext. intros x Hx. unfold g, f, cells.
      rewrite Hfull, mirror_block by lia.
      rewrite lookup_app_r by lia. do 2 f_equal. lia. }
  exists (<[buf := concat (reverse <$> chunks bytesize cells)]> h),
         (<[fresh (dom h) := mirrored bytesize cells]> h), (fresh (dom h)).
  assert (concat (reverse <$> chunks bytesize cells)
          = swapped bytesize full ++ reverse partial) as Hplace.
  { unfold chunks, cells.
    apply (chunks_reversed_app bytesize partial Hbs (proj2 Hpartial) k); [done|].
    by rewrite length_app. }
  rewrite !lookup_insert_eq, Hplace, Hcopy.
  split; [rewrite <- Hplace; by apply swapEndianess_chunks|].
  split; [done|].
  split; [rewrite <- Hcopy; by apply swapEndianessFast_mirrored|].
  split; [done|].
  split; [by rewrite Hcut|].
  intros Hlast Heq. apply Hlast.
  injection Heq as Heq. apply app_inv_head in Heq.
  rewrite Hcut in Heq. apply (f_equal head) in Heq.
  by rewrite head_reverse in Heq.
Qed.

Lemma swaps_on_partial_element_witness :
  ∃ h1 h2 swapped_buf,
    swapEndianess {[ 1%positive := [1; 2; 3; 4; 5; 6] ++ [7; 8] ]} 1%positive 3
      = Ok (h1, 1%positive) ∧
    h1 !! 1%positive = Some (swapped 3 [1; 2; 3; 4; 5; 6] ++ reverse [7; 8]) ∧
    swapEndianessFast {[ 1%positive := [1; 2; 3; 4; 5; 6] ++ [7; 8] ]} 1%positive 3
      = Ok (h2, swapped_buf) ∧
    h2 !! swapped_buf
      = Some (swapped 3 [1; 2; 3; 4; 5; 6]
              ++ tab (length [7; 8]) (fun r => default 0 ([7; 8] !! (3 - 1 - r)%nat))) ∧
    h2 !! swapped_buf
      = Some (swapped 3 [1; 2; 3; 4; 5; 6]
              ++ 0 :: tab (length [7; 8] - 1)
                        (fun r => default 0 ([7; 8] !! (3 - 2 - r)%nat))) ∧
    (last [7; 8] ≠ Some 0 → h1 !! 1%positive ≠ h2 !! swapped_buf).
Proof.
  apply (swaps_on_partial_element {[ 1%positive := [1; 2; 3; 4; 5; 6] ++ [7; 8] ]}
           1%positive [1; 2; 3; 4; 5; 6] [7; 8] 3 2).
  - reflexivity.
  - apply (bool_decide_unpack _). vm_compute. exact I.
  - reflexivity.
  - simpl. lia.
Defined.

(** ** A byte size of zero *)

Lemma swapEndianess_stuck (h : heap) (p : loc) (len : nat) :
  (0 < len)%nat →
  ∀ (fuel : nat) (h' : heap),
    while fuel (fun '(i, _) => (i <? len)%nat)
      (fun '(i, h) => Ok ((i + 0)%nat, heap_reverse_subarray h p i (i + 0)))
      (0%nat, h')
    = Diverge.
Proof.
  intros Hlen fuel. induction fuel as [|fuel IH]; intros h'.
  - cbn [while]. by rewrite (proj2 (Nat.ltb_lt _ _)) by lia.
  - rewrite while_S by (apply Nat.ltb_lt; lia). cbn [mbind res_bind].
    apply IH.
Qed.

(** X8. A byte size of 0. The in-place [swapEndianess] never advances its
    index: on a buffer that is not empty the loop does not end, however
    long it is run, and the call does not return; on the empty buffer it
    returns at once. [swapEndianessFast] runs no iteration and returns a
    new buffer of the length of its argument, filled with 0, leaving its
    argument as it was. *)
Theorem swaps_with_zero_bytesize (h : heap) (buf : loc) (cells : list Z) :
  h !! buf = Some cells →
  (cells = [] → swapEndianess h buf 0 = Ok (h, buf)) ∧
  (cells ≠ [] →
   swapEndianess h buf 0 = Diverge ∧
   ∀ fuel,
     while fuel (fun '(i, _) => (i <? length cells)%nat)
       (fun '(i, h) => Ok ((i + 0)%nat, heap_reverse_subarray h buf i (i + 0)))
       (0%nat, h)
     = Diverge) ∧
  ∃ h2 swapped_buf,
    swapEndianessFast h buf 0 = Ok (h2, swapped_buf) ∧
    h2 !! swapped_buf = Some (replicate (length cells) 0) ∧
    h2 !! buf = Some cells.
Proof.
  intros Hbuf. split; [|split].
  - intros ->. unfold swapEndianess. rewrite (byteLength_lookup h buf [] Hbuf). done.
  - intros Hne.
    assert (0 < length cells)%nat as Hlen by (destruct cells; [done|simpl; lia]).
    split.
    + unfold swapEndianess. rewrite (byteLength_lookup h buf cells Hbuf).
      by rewrite (swapEndianess_stuck h buf (length cells) Hlen).
    + intros fuel. by apply swapEndianess_stuck.
  - unfold swapEndianessFast, heap_alloc.
    rewrite (byteLength_lookup h buf cells Hbuf). cbn [while Nat.ltb Nat.leb mbind res_bind].
    eexists _, _. split; [reflexivity|]. split.
    + apply lookup_insert_eq.
    + rewrite lookup_insert_ne; [done|]. by apply (fresh_loc_ne h buf cells).
Qed.

Lemma swaps_with_zero_bytesize_witness :
  (([1; 2; 3] : list Z) = [] →
   swapEndianess {[ 1%positive := [1; 2; 3] ]} 1%positive 0
   = Ok ({[ 1%positive := [1; 2; 3] ]}, 1%positive)) ∧
  (([1; 2; 3] : list Z) ≠ [] →
   swapEndianess {[ 1%positive := [1; 2; 3] ]} 1%positive 0 = Diverge ∧
   ∀ fuel,
     while fuel (fun '(i, _) => (i <? length [1; 2; 3])%nat)
       (fun '(i, h) => Ok ((i + 0)%nat, heap_reverse_subarray h 1%positive i (i + 0)))
       (0%nat, ({[ 1%positive := [1; 2; 3] ]} : heap))
     = Diverge) ∧
  ∃ h2 swapped_buf,
    swapEndianessFast {[ 1%positive := [1; 2; 3] ]} 1%positive 0 = Ok (h2, swapped_buf) ∧
    h2 !! swapped_buf = Some (replicate (length [1; 2; 3]) 0) ∧
    h2 !! 1%positive = Some [1; 2; 3].
Proof.
  apply (swaps_with_zero_bytesize {[ 1%positive := [1; 2; 3] ]} 1%positive [1; 2; 3]).
  reflexivity.
Defined.

(** ** Variable-length integers: every number, and truncated input *)

Lemma split_digits_terminal limit n :
  ∀ a, Forall terminal (split_digits limit n a).1 ∧
       (length (split_digits limit n a).1 ≤ n)%nat.
Proof.
  induction n as [|n IH]; intros a; cbn [split_digits].
  - simpl. split; [constructor|lia].
  - destruct (limit <? a); [|simpl; split; [constructor|lia]].
    specialize (IH (a / 128)).
    destruct (split_digits limit n (a / 128)) as [ds top]. cbn [fst snd] in *.
    destruct IH as [Hds Hlen]. split.
    + constructor; [|done]. unfold terminal. apply Z.mod_pos_bound. lia.
    + simpl. lia.
Qed.

Lemma js_and_127_digit a : 0 ≤ js_and a 127 < 128.
Proof.
  unfold js_and. change (ToInt32 127) with 127. rewrite land_127.
  apply Z.mod_pos_bound. lia.
Qed.

Lemma encode_uvar_item_framed v : ∃ g, encode_uvar_item v = Ok g ∧ framed g.
Proof.
  unfold encode_uvar_item. set (a := v * (if 0 <=? v then 1 else -1)).
  cbv zeta beta iota delta [mbind res_bind]. rewrite app_nil_l.
  pose proof (js_shr_7_range a) as Hr.
  rewrite (encode_loop_digits 0 4);
    [|lia|lia|change ((0 + 1) * 128 ^ Z.of_nat 4) with (2 ^ 28); lia|lia].
  destruct (split_digits_terminal 0 4 (js_shr a 7)) as [Hds Hlen].
  set (ds := (split_digits 0 4 (js_shr a 7)).1) in *.
  pose proof (js_and_127_digit a) as Hd0.
  change ([js_and a 127 + 128] ++ set_continuation ds)
    with (set_continuation (js_and a 127 :: ds)).
  rewrite clear_continuation_cons by done. rewrite reverse_cons.
  eexists. split; [reflexivity|]. split.
  - exists (reverse (set_continuation ds)), (js_and a 127).
    split; [done|]. split; [by apply set_continuation_continues|done].
  - rewrite length_app, length_reverse. unfold set_continuation.
    rewrite length_fmap. simpl. lia.
Qed.

Lemma encode_ivar_loop_framed a :
  0 ≤ a →
  ∃ top DS,
    while 32 (fun '(v, _) => 63 <? v)
      (fun '(v, lsb_to_msb) => Ok (js_shr v 7, lsb_to_msb ++ [js_and v 127 + 128]))
      (a, [])
    = Ok (top, set_continuation DS) ∧
    Forall terminal DS ∧ (length DS ≤ 4)%nat.
Proof.
  intros Ha. destruct (Z.lt_ge_cases a (2 ^ 31)) as [Hsmall|Hbig].
  - destruct (split_digits_terminal 63 4 a) as [Hds Hlen].
    exists (split_digits 63 4 a).2, (split_digits 63 4 a).1. split; [|done].
    rewrite (encode_loop_digits 63 4);
      [done|lia|lia|change ((63 + 1) * 128 ^ Z.of_nat 4) with (2 ^ 34); lia|done].
  - change 32%nat with (S 31). rewrite while_S by (apply Z.ltb_lt; lia).
    cbn [mbind res_bind].
    pose proof (js_shr_7_range a) as Hr.
    destruct (split_digits_terminal 63 3 (js_shr a 7)) as [Hds Hlen].
    exists (split_digits 63 3 (js_shr a 7)).2,
           (js_and a 127 :: (split_digits 63 3 (js_shr a 7)).1).
    split; [|split].
    + rewrite (encode_loop_digits 63 3);
        [done|lia|lia|change ((63 + 1) * 128 ^ Z.of_nat 3) with (2 ^ 27); lia|lia].
    + constructor; [apply js_and_127_digit|done].
    + cbn [length]. lia.
Qed.

Lemma sign_byte_continues top (sign : Z) :
  continues (js_or (js_and top 63) (if sign =? -1 then 192 else 128)).
Proof.
  assert (0 ≤ js_and top 63 < 64) as Hm.
  { unfold js_and. change (ToInt32 63) with 63. rewrite land_63.
    apply Z.mod_pos_bound. lia. }
  unfold js_or. rewrite (ToInt32_small (js_and top 63)) by lia.
  unfold continues.
  destruct (sign =? -1).
  - change (ToInt32 192) with 192. rewrite lor_sign_bits by (lia || auto). lia.
  - change (ToInt32 128) with 128. rewrite lor_sign_bits by (lia || auto). lia.
Qed.

Lemma encode_ivar_item_framed v : ∃ g, encode_ivar_item v = Ok g ∧ framed g.
Proof.
  unfold encode_ivar_item.
  set (sign := if 0 <=? v then 1 else -1). set (a := v * sign).
  assert (0 ≤ a) as Ha by (subst a sign; destruct (Z.leb_spec 0 v); lia).
  destruct (encode_ivar_loop_framed a Ha) as (top & DS & Hloop & Hds & Hlen).
  cbv zeta. rewrite Hloop. cbn [mbind res_bind].
  pose proof (sign_byte_continues top sign) as Hsb.
  set (sb := js_or (js_and top 63) (if sign =? -1 then 192 else 128)) in *.
  destruct DS as [|d0 DS'].
  - cbn [set_continuation fmap list_fmap app]. unfold clear_continuation.
    cbn [alter list_alter]. rewrite reverse_singleton.
    eexists. split; [reflexivity|]. split; [|simpl; lia].
    exists [], (js_and sb 127). split; [done|]. split; [constructor|].
    apply js_and_127_digit.
  - apply Forall_cons in Hds as [Hd0 Hds'].
    unfold set_continuation. rewrite fmap_cons.
    unfold clear_continuation. cbn [app alter list_alter].
    rewrite js_and_127 by (unfold terminal in Hd0; lia).
    rewrite continuation_digit by exact Hd0.
    rewrite reverse_cons, reverse_app, reverse_singleton. cbn [app].
    eexists. split; [reflexivity|]. split.
    + exists (sb :: reverse ((fun d => d + 128) <$> DS')), d0.
      split; [done|]. split; [|done].
      constructor; [done|]. by apply set_continuation_continues.
    + cbn [length] in *. rewrite length_app, length_reverse, length_fmap.
      cbn [length]. lia.
Qed.

Lemma encode_items_framed (item : Z → res (list Z)) :
  (∀ v, ∃ g, item v = Ok g ∧ framed g) →
  ∀ vs,
    (bytes ← encode_items item vs []; Ok (Uint8Array_from bytes))
      = Ok (concat (bytes_of item <$> vs)) ∧
    Forall framed (bytes_of item <$> vs).
Proof.
  intros Hitem vs.
  assert (Forall (fun v => item v = Ok (bytes_of item v)) vs) as Hok.
  { apply Forall_true. intros v. unfold bytes_of.
    by destruct (Hitem v) as (g & -> & _). }
  assert (Forall framed (bytes_of item <$> vs)) as Hframed.
  { apply Forall_fmap, Forall_true. intros v. unfold bytes_of. simpl.
    by destruct (Hitem v) as (g & -> & Hg). }
  split; [|done].
  rewrite (encode_items_spec item (bytes_of item) vs Hok). cbn [mbind res_bind app].
  rewrite Uint8Array_from_u8; [done|].
  apply Forall_concat_u8. eapply Forall_impl; [exact Hframed|]. by intros g [Hg _].
Qed.

Lemma length_concat_framed (gs : list (list Z)) :
  Forall framed gs → (length gs ≤ length (concat gs) ≤ 5 * length gs)%nat.
Proof.
  intros Hgs. induction Hgs as [|g gs [(conts & t & -> & _) Hlen] _ IH]; [simpl; lia|].
  cbn [concat length]. rewrite length_app. rewrite length_app in *. simpl in *. lia.
Qed.

(** X9. The variable-length encoders keep the framing for every list of
    integers, whatever their size. [encode_uvar_array] and
    [encode_ivar_array] return (the encoding loops end); each number
    takes between one and five bytes; and the decoder of the same kind,
    at the offset of the bytes within any buffer and given the number of
    items, returns as many numbers as were encoded and consumes exactly
    the bytes of the encoding. *)
Theorem var_arrays_keep_framing (vs : list Z) :
  ∃ ubytes ibytes,
    encode_uvar_array vs = Ok ubytes ∧
    encode_ivar_array vs = Ok ibytes ∧
    (length vs ≤ length ubytes ≤ 5 * length vs)%nat ∧
    (length vs ≤ length ibytes ≤ 5 * length vs)%nat ∧
    ∀ pre post : list Z,
      (∃ arr, decode_uvar_array (pre ++ ubytes ++ post) (length pre)
                (Some (Z.of_nat (length vs)))
              = Ok (arr, Z.of_nat (length ubytes)) ∧ length arr = length vs) ∧
      (∃ arr, decode_ivar_array (pre ++ ibytes ++ post) (length pre)
                (Some (Z.of_nat (length vs)))
              = Ok (arr, Z.of_nat (length ibytes)) ∧ length arr = length vs).
Proof.
  destruct (encode_items_framed encode_uvar_item encode_uvar_item_framed vs) as [Hu Hfu].
  destruct (encode_items_framed encode_ivar_item encode_ivar_item_framed vs) as [Hi Hfi].
  exists (concat (bytes_of encode_uvar_item <$> vs)),
         (concat (bytes_of encode_ivar_item <$> vs)).
  split; [exact Hu|]. split; [exact Hi|].
  pose proof (length_concat_framed _ Hfu) as Hlu.
  pose proof (length_concat_framed _ Hfi) as Hli.
  rewrite length_fmap in Hlu, Hli.
  split; [exact Hlu|]. split; [exact Hli|].
  intros pre post. split.
  - eexists. split.
    + rewrite <- (length_fmap (bytes_of encode_uvar_item) vs) at 1.
      apply (decode_uvar_array_counted _ _ _ post (drop_middle _ _ _)).
      eapply Forall_impl; [exact Hfu|]. by intros g [Hg _].
    + by rewrite !length_fmap.
  - eexists. split.
    + rewrite <- (length_fmap (bytes_of encode_ivar_item) vs) at 1.
      apply (decode_ivar_array_counted _ _ _ post (drop_middle _ _ _)).
      eapply Forall_impl; [exact Hfi|]. by intros g [Hg _].
    + by rewrite !length_fmap.
Qed.

(** X10. The unsigned variable-length encoder drops the sign: a number
    and its absolute value have the same encoding, and a negative number
    of magnitude below 2^31 is read back as its absolute value. *)
Theorem encode_uvar_drops_sign (v : Z) :
  - 2 ^ 31 < v < 2 ^ 31 →
  ∃ bytes,
    encode_uvar v = Ok bytes ∧
    encode_uvar (Z.abs v) = Ok bytes ∧
    decode_uvar bytes 0 = Ok (JNumber (Z.abs v), Z.of_nat (length bytes)).
Proof.
  intros Hv.
  assert (encode_uvar_item v = encode_uvar_item (Z.abs v)) as Hitem.
  { unfold encode_uvar_item.
    replace (Z.abs v * (if 0 <=? Z.abs v then 1 else -1)) with (Z.abs v)
      by (destruct (Z.leb_spec 0 (Z.abs v)); lia).
    replace (v * (if 0 <=? v then 1 else -1)) with (Z.abs v)
      by (destruct (Z.leb_spec 0 v); lia).
    done. }
  assert (Forall uvar_range [Z.abs v]) as Habs.
  { apply Forall_singleton. unfold uvar_range. lia. }
  exists (concat (uvar_bytes <$> [Z.abs v])).
  assert (encode_uvar (Z.abs v) = Ok (concat (uvar_bytes <$> [Z.abs v]))) as Henc
    by (by apply encode_uvar_array_spec).
  split; [|split; [exact Henc|]].
  - rewrite <- Henc. unfold encode_uvar, encode_uvar_array. cbn [encode_items].
    by rewrite Hitem.
  - unfold decode_uvar.
    rewrite (uvar_roundtrip [Z.abs v] (Some 1) Habs); [done|by right].
Qed.

Lemma encode_uvar_drops_sign_witness :
  ∃ bytes,
    encode_uvar (-300) = Ok bytes ∧
    encode_uvar (Z.abs (-300)) = Ok bytes ∧
    decode_uvar bytes 0 = Ok (JNumber (Z.abs (-300)), Z.of_nat (length bytes)).
Proof. apply (encode_uvar_drops_sign (-300)). lia. Defined.

(** ** Variable-length integers: input that ends within a value *)

Lemma uvar_continuing_runs (buf conts : list Z) :
  Forall continues conts →
  ∀ (o : nat) (c : count) (value : Z) (arr : list Z),
    (∀ i x, conts !! i = Some x → buf !! (o + i)%nat = Some x) →
    count_positive c = true →
    ∃ value',
      runs (decode_uvar_cond (length buf)) (decode_uvar_body buf) (length conts)
        (buf !! o, S o, c, value, arr)
        (buf !! (o + length conts)%nat, S (o + length conts), c, value', arr).
Proof.
  intros Hconts. induction Hconts as [|b conts Hb _ IH]; intros o c value arr Hpre Hc.
  - exists value. simpl. by rewrite Nat.add_0_r.
  - assert (buf !! o = Some b) as Hob.
    { rewrite <- (Nat.add_0_r o). by apply Hpre. }
    pose proof (lookup_lt_Some _ _ _ Hob) as Hlt.
    destruct (IH (S o) c (js_shl value 7 + Z.land (int32_of (Some b)) 127) arr)
      as [value' Hruns]; [|done|].
    { intros i x Hi. rewrite <- (Hpre (S i) x Hi). f_equal. lia. }
    exists value'. cbn [length runs]. split.
    { simpl. rewrite Hc. simpl. apply Nat.ltb_lt. lia. }
    eexists. split.
    { unfold decode_uvar_body. rewrite Hob. rewrite (shiftr7_continues b Hb). reflexivity. }
    replace (o + S (length conts))%nat with (S o + length conts)%nat by lia.
    exact Hruns.
Qed.

Lemma ivar_continuing_runs (buf conts : list Z) :
  Forall continues conts →
  ∀ (o : nat) (c : count) (sign value : Z) (arr : list Z),
    (∀ i x, conts !! i = Some x → buf !! (o + i)%nat = Some x) →
    count_positive c = true →
    ∃ sign' value',
      runs (decode_ivar_cond (length buf)) (decode_ivar_body buf) (length conts)
        (buf !! o, S o, c, sign, value, arr)
        (buf !! (o + length conts)%nat, S (o + length conts), c, sign', value', arr).
Proof.
  intros Hconts. induction Hconts as [|b conts Hb _ IH]; intros o c sign value arr Hpre Hc.
  - exists sign, value. simpl. by rewrite Nat.add_0_r.
  - assert (buf !! o = Some b) as Hob.
    { rewrite <- (Nat.add_0_r o). by apply Hpre. }
    pose proof (lookup_lt_Some _ _ _ Hob) as Hlt.
    assert (∃ sign1 value1,
              decode_ivar_body buf (buf !! o, S o, c, sign, value, arr)
              = Ok (buf !! S o, S (S o), c, sign1, value1, arr)) as (sign1 & value1 & Hbody).
    { unfold decode_ivar_body. rewrite Hob. rewrite (shiftr7_continues b Hb).
      destruct (sign =? 0); eexists _, _; reflexivity. }
    destruct (IH (S o) c sign1 value1 arr) as (sign' & value' & Hruns); [|done|].
    { intros i x Hi. rewrite <- (Hpre (S i) x Hi). f_equal. lia. }
    exists sign', value'. cbn [length runs]. split.
    { simpl. rewrite Hc. simpl. apply Nat.ltb_lt. lia. }
    eexists. split; [exact Hbody|].
    replace (o + S (length conts))%nat with (S o + length conts)%nat by lia.
    exact Hruns.
Qed.

Lemma count_positive_beyond (n : option Z) (k : nat) :
  asks_beyond n k →
  count_allows (count_of n) k ∧ count_positive (count_minus (count_of n) k) = true.
Proof.
  intros [-> | (m & -> & Hm)]; simpl; [done|]. split; [lia|]. apply Z.ltb_lt. lia.
Qed.

Lemma drop_lookup_suffix (buf g tail : list Z) (o : nat) :
  drop o buf = g ++ tail →
  ∀ i x, tail !! i = Some x → buf !! (o + length g + i)%nat = Some x.
Proof.
  intros Hdrop i x Hi.
  rewrite <- Nat.add_assoc, <- lookup_drop, Hdrop.
  rewrite lookup_app_r by lia. rewrite <- Hi. f_equal. lia.
Qed.

Lemma decode_uvar_array_truncated (buf : list Z) (o : nat) (values : list (list Z))
    (conts : list Z) (n : option Z) :
  (o ≤ length buf)%nat →
  drop o buf = concat values ++ conts →
  Forall self_terminated values → Forall continues conts →
  asks_beyond n (length values) →
  decode_uvar_array buf o n
  = Ok (uvar_fold 0 <$> values, Z.of_nat (length buf) - Z.of_nat o).
Proof.
  intros Ho Hdrop Hvalues Hconts Hn. unfold decode_uvar_array.
  pose proof (length_concat_le_drop _ _ _ _ Hdrop) as Hlen.
  destruct (count_positive_beyond n _ Hn) as [Hallows Hpos].
  pose proof (uvar_values_runs buf values Hvalues conts o _ [] Hdrop Hallows) as Hruns.
  destruct (uvar_continuing_runs buf conts Hconts (o + length (concat values))
              (count_minus (count_of n) (length values)) 0 ([] ++ (uvar_fold 0 <$> values))
              (drop_lookup_suffix _ _ _ _ Hdrop) Hpos) as [value' Hruns'].
  pose proof (runs_app _ _ _ _ _ _ _ Hruns Hruns') as Hall.
  rewrite (while_runs _ _ _ (S (length buf)) _ _ Hall).
  - simpl. do 2 f_equal. lia.
  - simpl. rewrite Hpos. simpl. apply Nat.ltb_ge. lia.
  - lia.
Qed.

Lemma decode_ivar_array_truncated (buf : list Z) (o : nat) (values : list (list Z))
    (conts : list Z) (n : option Z) :
  (o ≤ length buf)%nat →
  drop o buf = concat values ++ conts →
  Forall self_terminated values → Forall continues conts →
  asks_beyond n (length values) →
  decode_ivar_array buf o n
  = Ok (ivar_value <$> values, Z.of_nat (length buf) - Z.of_nat o).
Proof.
  intros Ho Hdrop Hvalues Hconts Hn. unfold decode_ivar_array.
  pose proof (length_concat_le_drop _ _ _ _ Hdrop) as Hlen.
  destruct (count_positive_beyond n _ Hn) as [Hallows Hpos].
  pose proof (ivar_values_runs buf values Hvalues conts o _ [] Hdrop Hallows) as Hruns.
  destruct (ivar_continuing_runs buf conts Hconts (o + length (concat values))
              (count_minus (count_of n) (length values)) 0 0 ([] ++ (ivar_value <$> values))
              (drop_lookup_suffix _ _ _ _ Hdrop) Hpos) as (sign' & value' & Hruns').
  pose proof (runs_app _ _ _ _ _ _ _ Hruns Hruns') as Hall.
  rewrite (while_runs _ _ _ (S (length buf)) _ _ Hall).
  - simpl. do 2 f_equal. lia.
  - simpl. rewrite Hpos. simpl. apply Nat.ltb_ge. lia.
  - lia.
Qed.

(** X11. Input that ends before the count is reached. When the bytes from
    the offset to the end of the buffer are complete values followed by
    the beginning of a value (bytes that all have the continuation bit
    set, possibly none), and no count or a count above the number of
    complete values is given, the array decoders raise no error: they
    return the complete values, and report every byte up to the end of
    the buffer as consumed. With no complete value, [decode_uvar] and
    [decode_ivar] return [undefined] and report the same. *)
Theorem var_decoders_on_truncated_input (buf : list Z) (offset : nat)
    (values : list (list Z)) (conts : list Z) (n : option Z) :
  (offset ≤ length buf)%nat →
  drop offset buf = concat values ++ conts →
  Forall self_terminated values → Forall continues conts →
  asks_beyond n (length values) →
  decode_uvar_array buf offset n
    = Ok (uvar_fold 0 <$> values, Z.of_nat (length buf) - Z.of_nat offset) ∧
  decode_ivar_array buf offset n
    = Ok (ivar_value <$> values, Z.of_nat (length buf) - Z.of_nat offset) ∧
  (values = [] →
   decode_uvar buf offset = Ok (JUndefined, Z.of_nat (length buf) - Z.of_nat offset) ∧
   decode_ivar buf offset = Ok (JUndefined, Z.of_nat (length buf) - Z.of_nat offset)).
Proof.
  intros Ho Hdrop Hvalues Hconts Hn.
  split; [by apply (decode_uvar_array_truncated buf offset values conts)|].
  split; [by apply (decode_ivar_array_truncated buf offset values conts)|].
  intros ->.
  assert (asks_beyond (Some 1) (length (@nil (list Z)))) as Hone.
  { right. exists 1. split; [done|simpl; lia]. }
  unfold decode_uvar, decode_ivar.
  rewrite (decode_uvar_array_truncated buf offset [] conts (Some 1)) by done.
  rewrite (decode_ivar_array_truncated buf offset [] conts (Some 1)) by done.
  done.
Qed.

Lemma var_decoders_on_truncated_input_witness :
  decode_uvar_array [7; 129; 0; 5; 130; 131] 1 (Some 3)
    = Ok (uvar_fold 0 <$> [[129; 0]; [5]],
          Z.of_nat (length [7; 129; 0; 5; 130; 131]) - Z.of_nat 1) ∧
  decode_ivar_array [7; 129; 0; 5; 130; 131] 1 (Some 3)
    = Ok (ivar_value <$> [[129; 0]; [5]],
          Z.of_nat (length [7; 129; 0; 5; 130; 131]) - Z.of_nat 1) ∧
  ([[129; 0]; [5]] = [] →
   decode_uvar [7; 129; 0; 5; 130; 131] 1
     = Ok (JUndefined, Z.of_nat (length [7; 129; 0; 5; 130; 131]) - Z.of_nat 1) ∧
   decode_ivar [7; 129; 0; 5; 130; 131] 1
     = Ok (JUndefined, Z.of_nat (length [7; 129; 0; 5; 130; 131]) - Z.of_nat 1)).
Proof.
  apply (var_decoders_on_truncated_input [7; 129; 0; 5; 130; 131] 1
           [[129; 0]; [5]] [130; 131] (Some 3)).
  - simpl. lia.
  - reflexivity.
  - apply Forall_cons. split.
    { exists [129], 0. split; [reflexivity|]. split.
      - apply Forall_cons. split; [unfold continues; lia|apply Forall_nil_2].
      - unfold terminal. lia. }
    apply Forall_cons. split; [|apply Forall_nil_2].
    exists [], 5. split; [reflexivity|]. split; [apply Forall_nil_2|unfold terminal; lia].
  - apply Forall_cons. split; [unfold continues; lia|].
    apply Forall_cons. split; [unfold continues; lia|apply Forall_nil_2].
  - right. exists 3. split; [reflexivity|simpl; lia].
Defined.

(** ** Reading near the end of the buffer *)

Lemma subarray_take_drop (buf : list Z) (o : nat) (n : Z) :
  0 ≤ n →
  subarray buf (Z.of_nat o) (Some (Z.of_nat o + n)) = take (Z.to_nat n) (drop o buf).
Proof.
  intros Hn. unfold subarray, relative_index.
  destruct (Z.ltb_spec (Z.of_nat o) 0); [lia|].
  destruct (Z.ltb_spec (Z.of_nat o + n) 0); [lia|].
  destruct (decide (o ≤ length buf)%nat) as [Hin|Hout].
  - replace (Z.to_nat (Z.min (Z.of_nat o) (Z.of_nat (length buf)))) with o by lia.
    destruct (decide (Z.of_nat o + n ≤ Z.of_nat (length buf))) as [Hfit|Hlong].
    + f_equal. lia.
    + rewrite !take_ge; [done| |]; rewrite length_drop; lia.
  - rewrite (drop_ge buf o) by lia. rewrite take_nil.
    rewrite drop_ge by lia. by rewrite take_nil.
Qed.

Lemma subarray_to_end (buf : list Z) (o : nat) :
  subarray buf (Z.of_nat o) None = drop o buf.
Proof.
  unfold subarray, relative_index.
  destruct (Z.ltb_spec (Z.of_nat o) 0); [lia|].
  destruct (decide (o ≤ length buf)%nat) as [Hin|Hout].
  - replace (Z.to_nat (Z.min (Z.of_nat o) (Z.of_nat (length buf)))) with o by lia.
    apply take_ge. rewrite length_drop. lia.
  - rewrite (drop_ge buf o) by lia. rewrite drop_ge by lia. by rewrite take_nil.
Qed.

(** X13. [decode_bytes] and [decode_str] never fail and never read past
    the end: given a byte size that is not negative, they take the bytes
    from the offset, as many as asked or as many as are left if that is
    fewer, and report the number of bytes taken; given no byte size they
    take every byte from the offset on. *)
Theorem decode_bytes_clamps (buf : list Z) (offset : nat) (bytesize : Z) :
  0 ≤ bytesize →
  decode_bytes buf offset (Some bytesize)
    = (take (Z.to_nat bytesize) (drop offset buf),
       Z.min bytesize (Z.of_nat (length buf - offset))) ∧
  decode_str buf offset (Some bytesize)
    = (TextDecoder_decode (take (Z.to_nat bytesize) (drop offset buf)),
       Z.min bytesize (Z.of_nat (length buf - offset))) ∧
  decode_bytes buf offset None = (drop offset buf, Z.of_nat (length buf - offset)) ∧
  decode_str buf offset None
    = (TextDecoder_decode (drop offset buf), Z.of_nat (length buf - offset)).
Proof.
  intros Hn. unfold decode_bytes, decode_str, slice.
  cbn [fmap option_fmap option_map].
  rewrite subarray_take_drop by done. rewrite subarray_to_end.
  rewrite length_take, !length_drop.
  repeat split; f_equal; lia.
Qed.

Lemma decode_bytes_clamps_witness :
  decode_bytes [1; 2; 3; 4; 5] 3 (Some 4)
    = (take (Z.to_nat 4) (drop 3 [1; 2; 3; 4; 5]),
       Z.min 4 (Z.of_nat (length [1; 2; 3; 4; 5] - 3))) ∧
  decode_str [1; 2; 3; 4; 5] 3 (Some 4)
    = (TextDecoder_decode (take (Z.to_nat 4) (drop 3 [1; 2; 3; 4; 5])),
       Z.min 4 (Z.of_nat (length [1; 2; 3; 4; 5] - 3))) ∧
  decode_bytes [1; 2; 3; 4; 5] 3 None
    = (drop 3 [1; 2; 3; 4; 5], Z.of_nat (length [1; 2; 3; 4; 5] - 3)) ∧
  decode_str [1; 2; 3; 4; 5] 3 None
    = (TextDecoder_decode (drop 3 [1; 2; 3; 4; 5]), Z.of_nat (length [1; 2; 3; 4; 5] - 3)).
Proof. apply (decode_bytes_clamps [1; 2; 3; 4; 5] 3 4). lia. Defined.

Lemma chunks_one_cell (w : nat) (cell : list Z) :
  (0 < w)%nat → length cell = w → chunks w cell = [cell].
Proof.
  intros Hw Hlen.
  rewrite <- (app_nil_r cell) at 1.
  change (cell ++ []) with (concat [cell]).
  apply chunks_concat; [done|]. by apply Forall_singleton.
Qed.

Lemma decode_number_short (host : Platform) (type : string) (c : TypedArrayConstructor)
    (buf : list Z) (offset : nat) :
  char_at type 1 ≠ Some "v"%char →
  typed_array_constructor_of type = Logged [] (Ok c) →
  parseInt (char_at type 1) = Some (BYTES_PER_ELEMENT c) →
  ((length buf ≤ offset)%nat →
   decode_number host buf offset type = Logged [] (Ok (JUndefined, 0))) ∧
  ((offset < length buf < offset + BYTES_PER_ELEMENT c)%nat →
   decode_number host buf offset type = Logged [] RangeError) ∧
  ((offset + BYTES_PER_ELEMENT c ≤ length buf)%nat →
   ∃ v, decode_number host buf offset type
        = Logged [] (Ok (JNumber v, Z.of_nat (BYTES_PER_ELEMENT c)))).
Proof.
  intros Hv Htable Hsize.
  set (w := BYTES_PER_ELEMENT c) in *.
  pose proof (BYTES_PER_ELEMENT_pos c) as Hw. fold w in Hw.
  set (native := is_native_endian_of host (char_at type 2) (Some w)).
  set (A := take w (drop offset buf)).
  assert (∃ buffer,
            (if native then Ok A else swapEndianessFast_bytes A (loop_bound (Some w)))
            = Ok buffer ∧ length buffer = length A) as (buffer & Hbuffer & Hlen).
  { destruct native; [by exists A|].
    destruct (swapEndianessFast_bytes_total A (loop_bound (Some w))) as (out & -> & Hout & _).
    by exists out. }
  assert (decode_number host buf offset type
          = (typed_arr ← lift (TypedArray_new c buffer);
             mret (Array_from host typed_arr, Z.of_nat (length A)))
            ≫= (fun '(value_arr, bytesize) => mret (first_of value_arr, bytesize))) as ->.
  { unfold decode_number, decode_number_array. rewrite bool_decide_eq_false_2 by done.
    rewrite Hsize. fold w native.
    change (1 =? 0) with false. cbn [fmap option_fmap option_map].
    destruct (Z.eqb_spec (Z.of_nat w * 1) 0) as [|_]; [lia|].
    unfold slice. rewrite subarray_take_drop by lia.
    replace (Z.to_nat (Z.of_nat w * 1)) with w by lia. fold A.
    rewrite Htable, M_bind_Ok. rewrite Hbuffer.
    change (lift (Ok buffer)) with (Logged [] (Ok buffer)). by rewrite M_bind_Ok. }
  assert (length A = Nat.min w (length buf - offset)) as HA
    by (subst A; by rewrite length_take, length_drop).
  unfold TypedArray_new. fold w. rewrite Hlen, HA.
  split; [|split].
  - intros Hend. replace (Nat.min w (length buf - offset)) with 0%nat by lia.
    rewrite Nat.Div0.mod_0_l, bool_decide_eq_true_2 by done.
    unfold lift. rewrite M_bind_Ok.
    assert (buffer = []) as -> by (apply nil_length_inv; lia).
    reflexivity.
  - intros Hshort.
    rewrite bool_decide_eq_false_2; [done|].
    replace (Nat.min w (length buf - offset)) with (length buf - offset)%nat by lia.
    rewrite Nat.mod_small by lia. lia.
  - intros Hfits.
    replace (Nat.min w (length buf - offset)) with w by lia.
    rewrite Nat.Div0.mod_same, bool_decide_eq_true_2 by done.
    unfold lift. rewrite M_bind_Ok.
    unfold Array_from. cbn [ta_constructor ta_buffer]. fold w.
    rewrite chunks_one_cell by lia.
    eexists. reflexivity.
Qed.

(** X12. Reading a fixed-width integer near the end of the buffer. For an
    integer kind of [w] bytes: at an offset at or past the end of the
    buffer, [unpack] returns [undefined] and 0 bytes; when bytes are left
    at the offset but fewer than [w], it throws a [RangeError]; when at
    least [w] bytes are left it returns a number and [w] bytes. Nothing
    is written to the console. *)
Theorem unpack_number_near_the_end (host : Platform) (name : string)
    (c : TypedArrayConstructor) (buf : list Z) (offset : nat) (args : list Z) :
  (name, c) ∈ integer_kinds →
  ((length buf ≤ offset)%nat →
   unpack host name buf offset args = Logged [] (Ok (JUndefined, 0))) ∧
  ((offset < length buf < offset + BYTES_PER_ELEMENT c)%nat →
   unpack host name buf offset args = Logged [] RangeError) ∧
  ((offset + BYTES_PER_ELEMENT c ≤ length buf)%nat →
   ∃ v, unpack host name buf offset args
        = Logged [] (Ok (JNumber v, Z.of_nat (BYTES_PER_ELEMENT c)))).
Proof.
  intros Hin.
  pose proof (proj1 (Forall_forall _ _) integer_kinds_checked _ Hin) as [Hk _].
  destruct (kind_check_elim _ _ _ Hk) as (E1 & E2 & E3 & E4 & E5 & Hv & Htable & Hsize).
  unfold unpack. rewrite E1, E2, E3, E4, E5.
  by apply decode_number_short.
Qed.

Lemma unpack_number_near_the_end_witness :
  ((length [1; 2; 3] ≤ 1)%nat →
   unpack little_endian_host "u4b" [1; 2; 3] 1 [] = Logged [] (Ok (JUndefined, 0))) ∧
  ((1 < length [1; 2; 3] < 1 + BYTES_PER_ELEMENT Uint32Array)%nat →
   unpack little_endian_host "u4b" [1; 2; 3] 1 [] = Logged [] RangeError) ∧
  ((1 + BYTES_PER_ELEMENT Uint32Array ≤ length [1; 2; 3])%nat →
   ∃ v, unpack little_endian_host "u4b" [1; 2; 3] 1 []
        = Logged [] (Ok (JNumber v, Z.of_nat (BYTES_PER_ELEMENT Uint32Array)))).
Proof.
  apply (unpack_number_near_the_end little_endian_host "u4b" Uint32Array [1; 2; 3] 1 []).
  apply (bool_decide_unpack _). vm_compute. exact I.
Defined.

(** ** A count of zero *)

(** X14. A count of 0 does not delimit a fixed-width array. The fixed-
    width array decoder takes a count of 0 as no count: it reads to the
    end of the buffer. So the empty array, which [pack] encodes as no
    byte, is not read back from a buffer in which other bytes follow: for
    the kind u1[], [unpack] with the count 0 returns every byte from the
    offset on. The variable-length decoders, given the count 0, return
    the empty array and consume nothing. *)
Theorem zero_count_reads_to_the_end (host : Platform) (buf : list Z) (offset : nat) :
  (∀ type, char_at type 1 ≠ Some "v"%char →
           decode_number_array host buf offset type (Some 0)
           = decode_number_array host buf offset type None) ∧
  pack host "u1[]" (JArray []) [0] = Logged [] (Ok []) ∧
  unpack host "u1[]" buf offset [0]
    = Logged [] (Ok (JArray (drop offset buf), Z.of_nat (length buf - offset))) ∧
  unpack host "uv[]" buf offset [0] = Logged [] (Ok (JArray [], 0)) ∧
  unpack host "iv[]" buf offset [0] = Logged [] (Ok (JArray [], 0)).
Proof.
  split; [|split; [|split; [|split]]].
  - intros type Hv. unfold decode_number_array.
    rewrite bool_decide_eq_false_2 by done. reflexivity.
  - reflexivity.
  - assert (("u1"%string, Uint8Array) ∈ integer_kinds) as Hin
      by (apply (bool_decide_unpack _); vm_compute; exact I).
    pose proof (proj1 (Forall_forall _ _) integer_kinds_checked _ Hin) as [_ Hk].
    destruct (kind_check_elim _ _ _ Hk) as (E1 & E2 & E3 & E4 & E5 & Hv & Htable & Hsize).
    change ("u1" +:+ "[]")%string with "u1[]"%string in *.
    unfold unpack. rewrite E1, E2, E3, E4, E5. cbn [head].
    unfold decode_number_array. rewrite bool_decide_eq_false_2 by done.
    rewrite Hsize. change (0 =? 0) with true. cbv iota.
    unfold slice. rewrite subarray_to_end.
    assert (is_native_endian_of host (char_at "u1[]" 2) (Some (BYTES_PER_ELEMENT Uint8Array))
            = true) as ->.
    { unfold is_native_endian_of. rewrite (bool_decide_eq_true_2 (Some _ = Some 1%nat)) by done.
      apply orb_true_r. }
    rewrite Htable, M_bind_Ok.
    change (lift (Ok (drop offset buf))) with (Logged [] (Ok (drop offset buf))).
    rewrite M_bind_Ok. unfold TypedArray_new.
    rewrite bool_decide_eq_true_2 by (cbn [BYTES_PER_ELEMENT]; apply Nat.mod_1_r).
    unfold lift. rewrite M_bind_Ok.
    rewrite Array_from_Uint8Array, length_drop. reflexivity.
  - change (unpack host "uv[]" buf offset [0])
      with (prod_map JArray id <$> lift (decode_uvar_array buf offset (Some 0))).
    unfold decode_uvar_array. rewrite while_done by done.
    cbn [mbind res_bind]. unfold lift. cbn. do 4 f_equal. lia.
  - change (unpack host "iv[]" buf offset [0])
      with (prod_map JArray id <$> lift (decode_ivar_array buf offset (Some 0))).
    unfold decode_ivar_array. rewrite while_done by done.
    cbn [mbind res_bind]. unfold lift. cbn. do 4 f_equal. lia.
Qed.

(** ** The byte order on the wire *)

Lemma env_le_native (host : Platform) : env_le host = native_le host.
Proof.
  unfold env_le, getEnvironmentEndianess, TypedArray_from, element_bytes, host_order.
  cbn [ta_buffer BYTES_PER_ELEMENT]. by destruct (native_le host).
Qed.

Lemma swapped_one_element (w : nat) (cell : list Z) :
  length cell = w → swapped w cell = reverse cell.
Proof.
  intros Hlen. rewrite <- (app_nil_r cell) at 1.
  rewrite (swapped_app w cell []) by done. apply app_nil_r.
Qed.

Lemma pack_number_wire (host : Platform) (name : string) (c : TypedArrayConstructor)
    (v : Z) (args : list Z) :
  kind_check name c false = true → in_range c v → c ≠ Uint8ClampedArray →
  pack host name (JNumber v) args
  = Logged [] (Ok (if is_native_endian_of host (char_at name 2)
                         (Some (BYTES_PER_ELEMENT c))
                   then host_order host (le_bytes (BYTES_PER_ELEMENT c) v)
                   else reverse (host_order host (le_bytes (BYTES_PER_ELEMENT c) v)))).
Proof.
  intros Hk Hv Hc.
  destruct (kind_check_elim _ _ _ Hk) as (E1 & E2 & E3 & E4 & E5 & Hnv & Htable & Hsize).
  unfold pack. rewrite E1, E2, E3, E4, E5.
  unfold lift. cbn [as_number]. rewrite M_bind_Ok.
  unfold encode_number, encode_number_array. rewrite bool_decide_eq_false_2 by done.
  rewrite Htable, M_bind_Ok, Hsize.
  pose proof (BYTES_PER_ELEMENT_pos c) as Hw.
  set (w := BYTES_PER_ELEMENT c) in *.
  set (native := is_native_endian_of host (char_at name 2) (Some w)).
  cbn [TypedArray_from ta_constructor ta_buffer fmap list_fmap concat].
  rewrite app_nil_r.
  assert (element_bytes host c v = host_order host (le_bytes w v)) as ->.
  { subst w. destruct c; try done. }
  assert (length (host_order host (le_bytes w v)) = w) as Hlen
    by (by rewrite length_host_order, length_le_bytes).
  assert (Forall is_u8 (host_order host (le_bytes w v))) as Hu8
    by (apply host_order_u8, le_bytes_u8).
  destruct (decide (c = Uint8Array)) as [->|Hne].
  - rewrite bool_decide_eq_true_2 by done.
    assert (native = true) as ->; [|done].
    subst native w. unfold is_native_endian_of. simpl. apply orb_true_r.
  - rewrite bool_decide_eq_false_2 by done.
    destruct native; [done|].
    change (loop_bound (Some w)) with w.
    rewrite (swapEndianessFast_bytes_spec _ w 1) by (done || lia).
    by rewrite swapped_one_element.
Qed.

(** X15. The byte order of a fixed-width integer on the wire. For an
    integer kind and a number within its range, [pack] writes the bytes
    of the number (in two's complement) least significant first when the
    kind ends in [l], most significant first when it ends in [b], on
    every host. For a kind without suffix the order depends on the host:
    it is the reverse of the host's own order (most significant first on
    a little-endian host, least significant first on a big-endian one). *)
Theorem wire_byte_order (host : Platform) (name : string) (c : TypedArrayConstructor)
    (v : Z) (args : list Z) :
  (name, c) ∈ integer_kinds → in_range c v → c ≠ Uint8ClampedArray →
  (char_at name 2 = Some "l"%char →
   pack host name (JNumber v) args = Logged [] (Ok (le_bytes (BYTES_PER_ELEMENT c) v))) ∧
  (char_at name 2 = Some "b"%char →
   pack host name (JNumber v) args
   = Logged [] (Ok (reverse (le_bytes (BYTES_PER_ELEMENT c) v)))) ∧
  (char_at name 2 = None →
   pack host name (JNumber v) args
   = Logged [] (Ok (if native_le host
                    then reverse (le_bytes (BYTES_PER_ELEMENT c) v)
                    else le_bytes (BYTES_PER_ELEMENT c) v))).
Proof.
  intros Hin Hv Hc.
  pose proof (proj1 (Forall_forall _ _) integer_kinds_checked _ Hin) as [Hk _].
  rewrite (pack_number_wire host name c v args Hk Hv Hc).
  unfold is_native_endian_of, host_order. rewrite env_le_native.
  repeat split; intros ->; destruct (native_le host); destruct c; try done;
    cbn [bool_decide decide_rel BYTES_PER_ELEMENT]; try reflexivity.
Qed.

Lemma wire_byte_order_witness :
  (char_at "u4" 2 = Some "l"%char →
   pack little_endian_host "u4" (JNumber 1223576) []
   = Logged [] (Ok (le_bytes (BYTES_PER_ELEMENT Uint32Array) 1223576))) ∧
  (char_at "u4" 2 = Some "b"%char →
   pack little_endian_host "u4" (JNumber 1223576) []
   = Logged [] (Ok (reverse (le_bytes (BYTES_PER_ELEMENT Uint32Array) 1223576)))) ∧
  (char_at "u4" 2 = None →
   pack little_endian_host "u4" (JNumber 1223576) []
   = Logged [] (Ok (if native_le little_endian_host
                    then reverse (le_bytes (BYTES_PER_ELEMENT Uint32Array) 1223576)
                    else le_bytes (BYTES_PER_ELEMENT Uint32Array) 1223576))).
Proof.
  apply (wire_byte_order little_endian_host "u4" Uint32Array 1223576 []).
  - apply (bool_decide_unpack _). vm_compute. exact I.
  - simpl. lia.
  - discriminate.
Defined.

(** ** The variable-length decoders on any input *)

Lemma decode_bounds_start (o len : nat) (n : option Z) :
  decode_bounds o len n (S o) (count_of n) [].
Proof.
  unfold decode_bounds. cbn [length]. rewrite count_minus_0.
  repeat split; try lia.
Qed.

Lemma decode_bounds_keep (o len : nat) (n : option Z) (off : nat) (c : count)
    (arr : list Z) :
  decode_bounds o len n off c arr → (off <? len + 1)%nat = true →
  decode_bounds o len n (S off) c arr.
Proof.
  intros (Hoff & Harr & Hc & Hn) Hlt. apply Nat.ltb_lt in Hlt.
  unfold decode_bounds. repeat split; try lia; done.
Qed.

Lemma decode_bounds_push (o len : nat) (n : option Z) (off : nat) (c : count)
    (arr : list Z) (v : Z) :
  decode_bounds o len n off c arr → count_positive c = true →
  (off <? len + 1)%nat = true →
  decode_bounds o len n (S off) (count_decrement c) (arr ++ [v]).
Proof.
  intros (Hoff & Harr & Hc & Hn) Hpos Hlt. apply Nat.ltb_lt in Hlt.
  unfold decode_bounds. rewrite length_app. cbn [length].
  repeat split; try lia.
  - subst c. rewrite Nat.add_1_r. symmetry. rewrite <- count_decrement_minus.
    by destruct (count_of n); simpl; f_equal; lia.
  - intros m ->. subst c. simpl in Hpos. apply Z.ltb_lt in Hpos. lia.
Qed.

Lemma decode_uvar_array_total (buf : list Z) (o : nat) (n : option Z) :
  ∃ arr off,
    decode_uvar_array buf o n = Ok (arr, Z.of_nat off - 1 - Z.of_nat o) ∧
    ∃ c, decode_bounds o (length buf) n off c arr.
Proof.
  unfold decode_uvar_array.
  destruct (while_total (decode_uvar_cond (length buf)) (decode_uvar_body buf)
              (fun '(_, off, c, _, arr) => decode_bounds o (length buf) n off c arr)
              (fun '(_, off, _, _, _) => (S (Nat.max o (length buf)) - off)%nat))
    with (fuel := S (length buf)) (s := (buf !! o, S o, count_of n, 0, @nil Z))
    as ([[[[byte off] c] value] arr] & -> & HP & _).
  - intros [[[[byte off] c] value] arr] HP Hcond.
    unfold decode_uvar_cond in Hcond. apply andb_true_iff in Hcond as [Hpos Hlt].
    assert (S (Nat.max o (length buf)) - S off < S (Nat.max o (length buf)) - off)%nat
      as Hless by (apply Nat.ltb_lt in Hlt; lia).
    unfold decode_uvar_body.
    destruct (Z.shiftr (int32_of byte) 7 =? 0).
    + eexists. split; [reflexivity|]. split; [|exact Hless].
      by apply decode_bounds_push.
    + eexists. split; [reflexivity|]. split; [|exact Hless].
      by apply decode_bounds_keep.
  - apply decode_bounds_start.
  - lia.
  - exists arr, off. split; [done|]. by exists c.
Qed.

Lemma decode_ivar_array_total (buf : list Z) (o : nat) (n : option Z) :
  ∃ arr off,
    decode_ivar_array buf o n = Ok (arr, Z.of_nat off - 1 - Z.of_nat o) ∧
    ∃ c, decode_bounds o (length buf) n off c arr.
Proof.
  unfold decode_ivar_array.
  destruct (while_total (decode_ivar_cond (length buf)) (decode_ivar_body buf)
              (fun '(_, off, c, _, _, arr) => decode_bounds o (length buf) n off c arr)
              (fun '(_, off, _, _, _, _) => (S (Nat.max o (length buf)) - off)%nat))
    with (fuel := S (length buf)) (s := (buf !! o, S o, count_of n, 0, 0, @nil Z))
    as ([[[[[byte off] c] sign] value] arr] & -> & HP & _).
  - intros [[[[[byte off] c] sign] value] arr] HP Hcond.
    unfold decode_ivar_cond in Hcond. apply andb_true_iff in Hcond as [Hpos Hlt].
    assert (S (Nat.max o (length buf)) - S off < S (Nat.max o (length buf)) - off)%nat
      as Hless by (apply Nat.ltb_lt in Hlt; lia).
    unfold decode_ivar_body.
    destruct (sign =? 0); destruct (Z.shiftr (int32_of byte) 7 =? 0).
    all: eexists; split; [reflexivity|]; split; [|exact Hless].
    all: (by apply decode_bounds_push) || (by apply decode_bounds_keep).
  - apply decode_bounds_start.
  - lia.
  - exists arr, off. split; [done|]. by exists c.
Qed.

(** X16. The variable-length decoders on any buffer, at any offset and
    with any count: they return (no error is raised and the loop ends);
    the number of bytes they report is not negative and is at most the
    number of bytes from the offset to the end of the buffer; they return
    at most one value per byte consumed, and at most as many values as
    the count asks for. *)
Theorem var_decoders_total (buf : list Z) (offset : nat) (n : option Z) :
  ∃ uarr ulen iarr ilen,
    decode_uvar_array buf offset n = Ok (uarr, ulen) ∧
    decode_ivar_array buf offset n = Ok (iarr, ilen) ∧
    0 ≤ ulen ≤ Z.of_nat (length buf - offset) ∧
    0 ≤ ilen ≤ Z.of_nat (length buf - offset) ∧
    Z.of_nat (length uarr) ≤ ulen ∧
    Z.of_nat (length iarr) ≤ ilen ∧
    ∀ m, n = Some m →
         Z.of_nat (length uarr) ≤ Z.max 0 m ∧ Z.of_nat (length iarr) ≤ Z.max 0 m.
Proof.
  destruct (decode_uvar_array_total buf offset n)
    as (uarr & uoff & Hu & cu & Huoff & Huarr & _ & Hun).
  destruct (decode_ivar_array_total buf offset n)
    as (iarr & ioff & Hi & ci & Hioff & Hiarr & _ & Hin).
  exists uarr, (Z.of_nat uoff - 1 - Z.of_nat offset),
         iarr, (Z.of_nat ioff - 1 - Z.of_nat offset).
  split; [exact Hu|]. split; [exact Hi|].
  repeat split; try lia.
  - by apply Hun.
  - by apply Hin.
Qed.

(** ** Slices at regular intervals *)

Example sliceSkip_ex :
  sliceSkip [1; 2; 3; 4; 5; 6; 7; 8; 9; 10] 2 1 None None
  = Ok [[1; 2]; [4; 5]; [7; 8]; [10]].
Proof. vm_compute. reflexivity. Qed.

Example splitTypedSubarray_ex :
  splitTypedSubarray [1; 2; 3; 4; 5; 6; 7] 2 = Ok [[]; [3]; [5; 6]; [7]].
Proof. vm_compute. reflexivity. Qed.

Lemma resolveRange_whole (len : nat) :
  resolveRange None None (Some (Z.of_nat len)) None
  = (0, Some (Z.of_nat len), Some (Z.of_nat len)).
Proof.
  unfold resolveRange, nullish. cbn [default].
  rewrite (proj2 (Z.leb_le 0 (Z.of_nat len))) by lia.
  change (0 <=? 0) with true. cbv iota. rewrite !Z.add_0_r, Z.sub_0_r.
  by rewrite (proj2 (Z.leb_le 0 (Z.of_nat len))) by lia.
Qed.

Lemma concat_chunks_fuel w :
  (0 < w)%nat →
  ∀ fuel l, (length l ≤ fuel)%nat → concat (chunks_fuel fuel w l) = l.
Proof.
  intros Hw fuel. induction fuel as [|fuel IH]; intros l Hfuel.
  - destruct l; [done|simpl in Hfuel; lia].
  - destruct l as [|x l']; [done|]. set (l := x :: l') in *.
    rewrite chunks_fuel_cons by done. cbn [concat].
    rewrite IH by (rewrite length_drop; subst l; simpl in *; lia).
    apply take_drop.
Qed.

Lemma chunks_fuel_sizes w :
  (0 < w)%nat →
  ∀ fuel l, Forall (fun p => 1 ≤ length p ≤ w)%nat (chunks_fuel fuel w l).
Proof.
  intros Hw fuel. induction fuel as [|fuel IH]; intros l; [constructor|].
  destruct l as [|x l']; [constructor|]. set (l := x :: l') in *.
  rewrite chunks_fuel_cons by done. constructor; [|apply IH].
  rewrite length_take. subst l. simpl. lia.
Qed.

Lemma slice_chunks_loop (arr : list Z) (w : nat) :
  (0 < w)%nat →
  ∀ (fuel : nat) (rest done : list Z) (off : Z) (out : list (list Z)),
    arr = done ++ rest → (length rest ≤ fuel)%nat →
    (rest ≠ [] → off = Z.of_nat (length done)) → Z.of_nat (length done) ≤ off →
    ∃ off',
      while fuel (fun '(offset, _) => offset <? Z.of_nat (length arr))
        (fun '(offset, out_arr) =>
           Ok (offset + (Z.of_nat w + 0),
               out_arr ++ [slice arr offset (Some (offset + Z.of_nat w))]))
        (off, out)
      = Ok (off', out ++ chunks_fuel fuel w rest).
Proof.
  intros Hw fuel. induction fuel as [|fuel IH]; intros rest done off out Harr Hfuel Hoff Hge.
  - destruct rest; [|simpl in Hfuel; lia]. exists off.
    rewrite while_done; [by rewrite app_nil_r|].
    apply Z.ltb_ge. rewrite Harr, length_app. simpl. lia.
  - destruct rest as [|x rest'].
    + exists off. rewrite while_done; [by rewrite app_nil_r|].
      apply Z.ltb_ge. rewrite Harr, length_app. simpl. lia.
    + set (rest := x :: rest') in *.
      assert (rest ≠ []) as Hne by done.
      specialize (Hoff Hne). subst off.
      rewrite while_S
        by (apply Z.ltb_lt; rewrite Harr, length_app; subst rest; simpl; lia).
      cbn [mbind res_bind].
      assert (slice arr (Z.of_nat (length done))
                (Some (Z.of_nat (length done) + Z.of_nat w)) = take w rest) as ->.
      { unfold slice. rewrite subarray_take_drop by lia.
        rewrite Nat2Z.id, Harr. by rewrite drop_app_length. }
      destruct (IH (drop w rest) (done ++ take w rest)
                  (Z.of_nat (length done) + (Z.of_nat w + 0)) (out ++ [take w rest]))
        as [off' Hloop].
      * rewrite Harr, <- app_assoc. by rewrite take_drop.
      * rewrite length_drop. subst rest. simpl in *. lia.
      * intros Hmore. rewrite length_app, length_take.
        destruct (decide (length rest ≤ w)%nat); [|lia].
        rewrite drop_ge in Hmore by done. done.
      * rewrite length_app, length_take. lia.
      * exists off'. rewrite Hloop. rewrite (chunks_fuel_cons fuel w rest Hne).
        by rewrite <- app_assoc.
Qed.

(** X17. [sliceSkip] with no skip partitions the array. For a slice
    length of at least 1, a skip length of 0 and no bounds given,
    [sliceSkip] and [sliceSkipTypedSubarray] return, in order, the
    consecutive pieces of the array, of the slice length each except for
    a shorter last one: no piece is empty and their concatenation is the
    array. *)
Theorem sliceSkip_partitions (arr : list Z) (slice_length : nat) :
  (0 < slice_length)%nat →
  ∃ pieces,
    sliceSkip arr (Z.of_nat slice_length) 0 None None = Ok pieces ∧
    sliceSkipTypedSubarray arr (Z.of_nat slice_length) 0 None None = Ok pieces ∧
    pieces = chunks slice_length arr ∧
    concat pieces = arr ∧
    Forall (fun p => 1 ≤ length p ≤ slice_length)%nat pieces.
Proof.
  intros Hw. exists (chunks slice_length arr).
  assert (sliceSkip arr (Z.of_nat slice_length) 0 None None
          = Ok (chunks slice_length arr)) as Hslice.
  { unfold sliceSkip. rewrite resolveRange_whole. unfold slice_skip_loop.
    change (default 0 (Some (Z.of_nat (length arr)))) with (Z.of_nat (length arr)).
    rewrite Z.sub_0_r, Nat2Z.id.
    destruct (slice_chunks_loop arr slice_length Hw (length arr) arr [] 0 [])
      as [off' Hloop]; [done|done|done|simpl; lia|].
    rewrite Hloop. done. }
  split; [exact Hslice|]. split; [exact Hslice|]. split; [done|].
  split.
  - by apply concat_chunks_fuel.
  - by apply chunks_fuel_sizes.
Qed.

Lemma sliceSkip_partitions_witness :
  ∃ pieces,
    sliceSkip [1; 2; 3; 4; 5] (Z.of_nat 2) 0 None None = Ok pieces ∧
    sliceSkipTypedSubarray [1; 2; 3; 4; 5] (Z.of_nat 2) 0 None None = Ok pieces ∧
    pieces = chunks 2 [1; 2; 3; 4; 5] ∧
    concat pieces = [1; 2; 3; 4; 5] ∧
    Forall (fun p => 1 ≤ length p ≤ 2)%nat pieces.
Proof. apply (sliceSkip_partitions [1; 2; 3; 4; 5] 2). lia. Defined.

(** A loop whose condition holds in every state it reaches does not end. *)
Lemma while_stuck {St : Type} (cond : St → bool) (body : St → res St) (P : St → Prop) :
  (∀ s, P s → cond s = true ∧ ∃ s', body s = Ok s' ∧ P s') →
  ∀ fuel s, P s → while fuel cond body s = Diverge.
Proof.
  intros Hstep fuel. induction fuel as [|fuel IH]; intros s Hs.
  - destruct (Hstep s Hs) as [Hc _]. cbn [while]. by rewrite Hc.
  - destruct (Hstep s Hs) as (Hc & s' & Hbody & Hs').
    rewrite while_S by done. rewrite Hbody. cbn [mbind res_bind]. by apply IH.
Qed.

Lemma resolveRange_from_end (start end_ : option Z) (len : Z) :
  ∃ span,
    resolveRange start end_ (Some len) None
    = (from_end len (default 0 start), Some (from_end len (default len end_)), span).
Proof.
  unfold resolveRange, nullish, from_end. cbn [default].
  set (a := default 0 start). set (b := default len end_).
  eexists. f_equal. f_equal.
  - destruct (0 <=? a); lia.
  - f_equal. destruct (0 <=? b); lia.
Qed.

Lemma ceil_div_spec (a b : Z) :
  0 < a → 1 ≤ b →
  0 ≤ ceil_div a b ≤ a ∧ a ≤ ceil_div a b * b ∧
  ∀ j, 0 ≤ j < ceil_div a b → j * b < a.
Proof.
  intros Ha Hb. unfold ceil_div.
  pose proof (Z.div_mod (- a) b ltac:(lia)) as Hdm.
  pose proof (Z.mod_pos_bound (- a) b ltac:(lia)) as Hr.
  set (q := - a / b) in *. set (r := (- a) mod b) in *.
  repeat split; [nia|nia|nia|intros j Hj; nia].
Qed.

Lemma slice_skip_loop_pieces (piece : Z → option Z → list Z) (sl sk s e : Z) :
  s < e → 1 ≤ sl + sk →
  slice_skip_loop piece sl sk s (Some e)
  = Ok ((fun j : nat => piece (s + Z.of_nat j * (sl + sk))
                          (Some (s + Z.of_nat j * (sl + sk) + sl)))
        <$> seq 0 (Z.to_nat (ceil_div (e - s) (sl + sk)))).
Proof.
  intros Hse Hstep. unfold slice_skip_loop.
  destruct (ceil_div_spec (e - s) (sl + sk)) as (Hk & Hcover & Hbelow); [lia|lia|].
  set (k := Z.to_nat (ceil_div (e - s) (sl + sk))).
  set (f := fun j : nat => piece (s + Z.of_nat j * (sl + sk))
                             (Some (s + Z.of_nat j * (sl + sk) + sl))).
  set (I := fun j : nat => (s + Z.of_nat j * (sl + sk), f <$> seq 0 j)).
  assert (I 0%nat = (s, [])) as <-.
  { unfold I. f_equal. lia. }
  rewrite (while_states _ _ I k).
  - done.
  - change (default 0 (Some e)) with e. subst k. lia.
  - intros j Hj. unfold I. split.
    + apply Z.ltb_lt. specialize (Hbelow (Z.of_nat j)). lia.
    + f_equal. f_equal; [lia|].
      rewrite seq_S, fmap_app. done.
  - unfold I. apply Z.ltb_ge. subst k. rewrite Z2Nat.id by lia. lia.
Qed.

(** X18. The pieces of [sliceSkip], with [s] and [e] the start and the
    end as resolved (counted from the end of the array when negative).
    When the end is not after the start the result is empty. When it is,
    and the step [slice_length + skip_length] is at least 1, the call
    returns one piece for every step begun between [s] and [e], the
    [j]-th being [arr.slice(s + j * step, s + j * step + slice_length)]:
    a piece is cut at the end of the array, not at [e]. When the step is
    0 or negative the loop does not advance and the call does not
    return. *)
Theorem sliceSkip_pieces (arr : list Z) (slice_length skip_length : Z)
    (start end_ : option Z) :
  let len := Z.of_nat (length arr) in
  let s := from_end len (default 0 start) in
  let e := from_end len (default len end_) in
  (e ≤ s → sliceSkip arr slice_length skip_length start end_ = Ok []) ∧
  (s < e → slice_length + skip_length ≤ 0 →
   sliceSkip arr slice_length skip_length start end_ = Diverge) ∧
  (s < e → 1 ≤ slice_length + skip_length →
   sliceSkip arr slice_length skip_length start end_
   = Ok (skip_piece arr slice_length skip_length s
         <$> seq 0 (Z.to_nat (ceil_div (e - s) (slice_length + skip_length))))).
Proof.
  intros len s e. subst len. unfold sliceSkip.
  destruct (resolveRange_from_end start end_ (Z.of_nat (length arr))) as [span ->].
  fold s e.
  split; [|split].
  - intros Hes. unfold slice_skip_loop. rewrite while_done; [done|].
    apply Z.ltb_ge. lia.
  - intros Hse Hstep. unfold slice_skip_loop.
    rewrite (while_stuck _ _ (fun st => st.1 < e)); [done| |simpl; lia].
    intros [offset out] Hoff. cbn [fst] in Hoff. split; [by apply Z.ltb_lt|].
    eexists. split; [reflexivity|]. cbn [fst]. lia.
  - intros Hse Hstep. by apply slice_skip_loop_pieces.
Qed.

(** ** Splitting into views *)

(** X19. The pieces of [splitTypedSubarray]. A step of 0 makes the call
    throw a [RangeError]. For a step of at least 1 the call returns one
    view for every [step] cells begun, but the view of index [i] spans
    the cells from [i * step] to [i * (step + 1)]: it holds the [i]
    cells that start at [i * step] (fewer at the end of the array), not
    [step] cells; in particular the first view is always empty. *)
Theorem splitTypedSubarray_pieces (arr : list Z) (step : Z) :
  (step = 0 → splitTypedSubarray arr step = RangeError) ∧
  (1 ≤ step →
   ∃ pieces,
     splitTypedSubarray arr step = Ok pieces ∧
     length pieces = Z.to_nat (ceil_div (Z.of_nat (length arr)) step) ∧
     ∀ (i : nat) (p : list Z),
       pieces !! i = Some p →
       p = take i (drop (i * Z.to_nat step) arr) ∧ (length p ≤ i)%nat).
Proof.
  split; [by intros ->|].
  intros Hstep. unfold splitTypedSubarray.
  destruct (Z.eqb_spec step 0) as [|_]; [lia|].
  assert (0 ≤ ceil_div (Z.of_nat (length arr)) step) as Hn.
  { destruct (decide (length arr = 0%nat)) as [->|Hne].
    - unfold ceil_div. simpl. by rewrite Z.div_0_l by lia.
    - apply ceil_div_spec; lia. }
  rewrite (proj2 (Z.ltb_ge _ _)) by done.
  eexists. split; [reflexivity|]. split; [by rewrite length_fmap, length_seq|].
  intros i p Hp. rewrite list_lookup_fmap in Hp.
  destruct (seq 0 _ !! i) as [i'|] eqn:Hi; [|done].
  apply lookup_seq in Hi as [-> _]. cbn [fmap option_fmap option_map] in Hp.
  injection Hp as <-. cbn [Nat.add].
  replace (Z.of_nat i * step) with (Z.of_nat (i * Z.to_nat step)) by lia.
  replace (Z.of_nat i * (step + 1)) with (Z.of_nat (i * Z.to_nat step) + Z.of_nat i) by lia.
  rewrite subarray_take_drop by lia. rewrite Nat2Z.id.
  split; [done|]. rewrite length_take. lia.
Qed.

Lemma splitTypedSubarray_pieces_witness :
  ((2 : Z) = 0 → splitTypedSubarray [1; 2; 3; 4; 5; 6; 7] 2 = RangeError) ∧
  (1 ≤ 2 →
   ∃ pieces,
     splitTypedSubarray [1; 2; 3; 4; 5; 6; 7] 2 = Ok pieces ∧
     length pieces = Z.to_nat (ceil_div (Z.of_nat (length [1; 2; 3; 4; 5; 6; 7])) 2) ∧
     ∀ (i : nat) (p : list Z),
       pieces !! i = Some p →
       p = take i (drop (i * Z.to_nat 2) [1; 2; 3; 4; 5; 6; 7]) ∧ (length p ≤ i)%nat).
Proof. apply (splitTypedSubarray_pieces [1; 2; 3; 4; 5; 6; 7] 2). Defined.

(** ** From bytes to numbers and back *)

Lemma le_value_range l : Forall is_u8 l → 0 ≤ le_value l < 2 ^ (8 * Z.of_nat (length l)).
Proof.
  intros Hl. induction Hl as [|b l Hb _ IH]; cbn [le_value length].
  - simpl. lia.
  - replace (8 * Z.of_nat (S (length l))) with (8 + 8 * Z.of_nat (length l)) by lia.
    rewrite Z.pow_add_r by lia. change (2 ^ 8) with 256. unfold is_u8 in Hb. nia.
Qed.

Lemma le_bytes_le_value l : Forall is_u8 l → le_bytes (length l) (le_value l) = l.
Proof.
  intros Hl. induction Hl as [|b l Hb _ IH]; cbn [le_value length le_bytes]; [done|].
  unfold is_u8 in Hb.
  replace ((b + 256 * le_value l) mod 256) with b by div_lia.
  replace ((b + 256 * le_value l) / 256) with (le_value l) by div_lia.
  by rewrite IH.
Qed.

Lemma le_bytes_shift w : ∀ v k, le_bytes w (v + k * 2 ^ (8 * Z.of_nat w)) = le_bytes w v.
Proof.
  induction w as [|w IH]; intros v k; [done|]. cbn [le_bytes].
  replace (8 * Z.of_nat (S w)) with (8 + 8 * Z.of_nat w) by lia.
  rewrite Z.pow_add_r by lia. change (2 ^ 8) with 256.
  set (P := 2 ^ (8 * Z.of_nat w)).
  replace (v + k * (256 * P)) with (v + (k * P) * 256) by lia.
  rewrite Z_mod_plus_full, Z_div_plus_full by lia. by rewrite IH.
Qed.

Lemma element_cell_inverse host c cell :
  c ≠ Float32Array → c ≠ Float64Array →
  length cell = BYTES_PER_ELEMENT c → Forall is_u8 cell →
  in_range c (element_value host c cell) ∧
  element_bytes host c (element_value host c cell) = cell.
Proof.
  intros Hf4 Hf8 Hlen Hu8.
  set (l := host_order host cell).
  assert (Forall is_u8 l) as Hl8 by (by apply host_order_u8).
  assert (length l = BYTES_PER_ELEMENT c) as Hll by (subst l; by rewrite length_host_order).
  pose proof (le_value_range l Hl8) as Hu.
  pose proof (le_bytes_le_value l Hl8) as Hinv.
  rewrite Hll in Hu, Hinv.
  assert (∀ k, host_order host (le_bytes (BYTES_PER_ELEMENT c)
                                  (le_value l + k * 2 ^ (8 * Z.of_nat (BYTES_PER_ELEMENT c))))
               = cell) as Hback.
  { intros k. rewrite le_bytes_shift, Hinv. apply host_order_involutive. }
  pose proof (Hback 0) as Hback0. rewrite Z.mul_0_l, Z.add_0_r in Hback0.
  pose proof (Hback (-1)) as Hback1.
  set (u := le_value l) in *.
  destruct c; try done; unfold element_value, element_bytes, in_range;
    cbn [BYTES_PER_ELEMENT] in *; fold l; fold u.
  - change (2 ^ (8 * Z.of_nat 1)) with 256 in Hu. change (2 ^ 8) with 256.
    split; [lia|]. rewrite Z.max_r, Z.min_r by lia.
    rewrite <- Hback0. cbn [le_bytes]. rewrite Z.mod_small by lia.
    unfold host_order. by destruct (native_le host).
  - change (2 ^ (8 * Z.of_nat 1 - 1)) with 128. change (2 ^ (8 * Z.of_nat 1)) with 256 in *.
    change (2 ^ 7) with 128.
    destruct (Z.ltb_spec u 128); [split; [lia|done]|].
    split; [lia|]. etrans; [|exact Hback1]. do 2 f_equal; lia.
  - change (2 ^ (8 * Z.of_nat 2 - 1)) with 32768.
    change (2 ^ (8 * Z.of_nat 2)) with 65536 in *. change (2 ^ 15) with 32768.
    destruct (Z.ltb_spec u 32768); [split; [lia|done]|].
    split; [lia|]. etrans; [|exact Hback1]. do 2 f_equal; lia.
  - change (2 ^ (8 * Z.of_nat 4 - 1)) with 2147483648.
    change (2 ^ (8 * Z.of_nat 4)) with 4294967296 in *. change (2 ^ 31) with 2147483648.
    destruct (Z.ltb_spec u 2147483648); [split; [lia|done]|].
    split; [lia|]. etrans; [|exact Hback1]. do 2 f_equal; lia.
Qed.

Lemma decode_number_value (host : Platform) (type : string) (c : TypedArrayConstructor)
    (buf : list Z) (offset : nat) :
  char_at type 1 ≠ Some "v"%char →
  typed_array_constructor_of type = Logged [] (Ok c) →
  parseInt (char_at type 1) = Some (BYTES_PER_ELEMENT c) →
  Forall is_u8 buf → (offset + BYTES_PER_ELEMENT c ≤ length buf)%nat →
  decode_number host buf offset type
  = Logged [] (Ok (JNumber
                     (element_value host c
                        (if is_native_endian_of host (char_at type 2)
                              (Some (BYTES_PER_ELEMENT c))
                         then take (BYTES_PER_ELEMENT c) (drop offset buf)
                         else swapped (BYTES_PER_ELEMENT c)
                                (take (BYTES_PER_ELEMENT c) (drop offset buf)))),
                   Z.of_nat (BYTES_PER_ELEMENT c))).
Proof.
  intros Hv Htable Hsize Hu8 Hfits.
  pose proof (BYTES_PER_ELEMENT_pos c) as Hw.
  set (w := BYTES_PER_ELEMENT c) in *.
  set (native := is_native_endian_of host (char_at type 2) (Some w)).
  set (A := take w (drop offset buf)).
  assert (length A = w) as HA by (subst A; rewrite length_take, length_drop; lia).
  assert (Forall is_u8 A) as HA8 by (subst A; by apply Forall_take, Forall_drop).
  set (buffer := if native then A else swapped w A).
  assert ((if native then Ok A else swapEndianessFast_bytes A (loop_bound (Some w)))
          = Ok buffer) as Hbuffer.
  { subst buffer. destruct native; [done|]. change (loop_bound (Some w)) with w.
    by rewrite (swapEndianessFast_bytes_spec A w 1) by (done || lia). }
  assert (length buffer = w) as Hlen.
  { subst buffer. destruct native; [done|]. by rewrite length_swapped. }
  unfold decode_number, decode_number_array. rewrite bool_decide_eq_false_2 by done.
  rewrite Hsize. fold w native.
  change (1 =? 0) with false. cbn [fmap option_fmap option_map].
  destruct (Z.eqb_spec (Z.of_nat w * 1) 0) as [|_]; [lia|].
  unfold slice. rewrite subarray_take_drop by lia.
  replace (Z.to_nat (Z.of_nat w * 1)) with w by lia. fold A.
  rewrite Htable, M_bind_Ok. rewrite Hbuffer.
  change (lift (Ok buffer)) with (Logged [] (Ok buffer)). rewrite M_bind_Ok.
  unfold TypedArray_new. fold w. rewrite Hlen.
  rewrite Nat.Div0.mod_same, bool_decide_eq_true_2 by done.
  unfold lift. rewrite M_bind_Ok.
  unfold Array_from. cbn [ta_constructor ta_buffer]. fold w.
  rewrite chunks_one_cell by lia. rewrite HA. reflexivity.
Qed.

Lemma pack_number_cells (host : Platform) (name : string) (c : TypedArrayConstructor)
    (v : Z) (args : list Z) :
  kind_check name c false = true → in_range c v →
  pack host name (JNumber v) args
  = Logged [] (Ok (if is_native_endian_of host (char_at name 2)
                         (Some (BYTES_PER_ELEMENT c))
                   then element_bytes host c v
                   else swapped (BYTES_PER_ELEMENT c) (element_bytes host c v))).
Proof.
  intros Hk Hv.
  destruct (kind_check_elim _ _ _ Hk) as (E1 & E2 & E3 & E4 & E5 & Hnv & Htable & Hsize).
  destruct (element_cell host c v Hv) as (Hlen & Hu8 & _).
  pose proof (BYTES_PER_ELEMENT_pos c) as Hw.
  unfold pack. rewrite E1, E2, E3, E4, E5.
  unfold lift. cbn [as_number]. rewrite M_bind_Ok.
  unfold encode_number, encode_number_array. rewrite bool_decide_eq_false_2 by done.
  rewrite Htable, M_bind_Ok, Hsize.
  set (w := BYTES_PER_ELEMENT c) in *.
  set (native := is_native_endian_of host (char_at name 2) (Some w)).
  cbn [TypedArray_from ta_constructor ta_buffer fmap list_fmap concat].
  rewrite app_nil_r.
  destruct (decide (c = Uint8Array)) as [->|Hne].
  - rewrite bool_decide_eq_true_2 by done.
    assert (native = true) as ->; [|done].
    subst native w. unfold is_native_endian_of. simpl. apply orb_true_r.
  - rewrite bool_decide_eq_false_2 by done.
    destruct native; [done|].
    change (loop_bound (Some w)) with w.
    by rewrite (swapEndianessFast_bytes_spec _ w 1) by (done || lia).
Qed.

Lemma integer_kinds_not_float (name : string) (c : TypedArrayConstructor) :
  (name, c) ∈ integer_kinds → c ≠ Float32Array ∧ c ≠ Float64Array.
Proof.
  intros Hin.
  assert (Forall (fun kind => kind.2 ≠ Float32Array ∧ kind.2 ≠ Float64Array) integer_kinds)
    as Hall by (apply (bool_decide_unpack _); vm_compute; exact I).
  apply (proj1 (Forall_forall _ _) Hall _ Hin).
Qed.

(** X20. From bytes to a number and back. For an integer kind of [w]
    bytes and a buffer of bytes with at least [w] bytes left at the
    offset, [unpack] returns a number within the range of the kind and
    the byte count [w], and [pack] of that number returns exactly the [w]
    bytes that were read: with the round trip from numbers, the codec is
    one-to-one between the numbers of a kind and its cells. *)
Theorem unpack_pack_roundtrip (host : Platform) (name : string)
    (c : TypedArrayConstructor) (buf : list Z) (offset : nat) (args : list Z) :
  (name, c) ∈ integer_kinds → Forall is_u8 buf →
  (offset + BYTES_PER_ELEMENT c ≤ length buf)%nat →
  ∃ v,
    unpack host name buf offset args
      = Logged [] (Ok (JNumber v, Z.of_nat (BYTES_PER_ELEMENT c))) ∧
    in_range c v ∧
    pack host name (JNumber v) args
      = Logged [] (Ok (take (BYTES_PER_ELEMENT c) (drop offset buf))).
Proof.
  intros Hin Hu8 Hfits.
  pose proof (proj1 (Forall_forall _ _) integer_kinds_checked _ Hin) as [Hk _].
  destruct (kind_check_elim _ _ _ Hk) as (E1 & E2 & E3 & E4 & E5 & Hv & Htable & Hsize).
  destruct (integer_kinds_not_float name c Hin) as [Hf4 Hf8].
  pose proof (BYTES_PER_ELEMENT_pos c) as Hw.
  set (w := BYTES_PER_ELEMENT c) in *.
  set (native := is_native_endian_of host (char_at name 2) (Some w)).
  set (A := take w (drop offset buf)).
  assert (length A = w) as HA by (subst A; rewrite length_take, length_drop; lia).
  assert (Forall is_u8 A) as HA8 by (subst A; by apply Forall_take, Forall_drop).
  set (buffer := if native then A else swapped w A).
  assert (length buffer = w ∧ Forall is_u8 buffer) as [Hlen Hb8].
  { subst buffer. destruct native; [done|]. split; [by rewrite length_swapped|].
    apply (swapped_u8 w 1); [lia|lia|done]. }
  destruct (element_cell_inverse host c buffer Hf4 Hf8 Hlen Hb8) as [Hrange Hcell].
  exists (element_value host c buffer). split; [|split; [exact Hrange|]].
  - unfold unpack. rewrite E1, E2, E3, E4, E5.
    by apply decode_number_value.
  - rewrite (pack_number_cells host name c _ args Hk Hrange). fold w native.
    rewrite Hcell. subst buffer. destruct native; [done|].
    do 2 f_equal. apply (swapped_involutive w 1); lia.
Qed.

Lemma unpack_pack_roundtrip_witness :
  ∃ v,
    unpack big_endian_host "i2l" [9; 254; 255; 7] 1 []
      = Logged [] (Ok (JNumber v, Z.of_nat (BYTES_PER_ELEMENT Int16Array))) ∧
    in_range Int16Array v ∧
    pack big_endian_host "i2l" (JNumber v) []
      = Logged [] (Ok (take (BYTES_PER_ELEMENT Int16Array) (drop 1 [9; 254; 255; 7]))).
Proof.
  apply (unpack_pack_roundtrip big_endian_host "i2l" Int16Array [9; 254; 255; 7] 1 []).
  - apply (bool_decide_unpack _). vm_compute. exact I.
  - apply (bool_decide_unpack _). vm_compute. exact I.
  - simpl. lia.
Defined.

(** ** What a write leaves alone *)

Lemma typed_array_constructor_of_total (type : string) :
  ∃ log c, typed_array_constructor_of type = Logged log (Ok c).
Proof.
  unfold typed_array_constructor_of.
  repeat (first [case_bool_decide | case_match]); eexists _, _; reflexivity.
Qed.

Lemma encode_number_array_total (host : Platform) (value : list Z) (type : string) :
  ∃ log bytes, encode_number_array host value type = Logged log (Ok bytes).
Proof.
  unfold encode_number_array. case_bool_decide as Hv.
  - case_bool_decide.
    + unfold encode_uvar_array.
      destruct (encode_items_framed encode_uvar_item encode_uvar_item_framed value)
        as [-> _]. unfold lift. eauto.
    + unfold encode_ivar_array.
      destruct (encode_items_framed encode_ivar_item encode_ivar_item_framed value)
        as [-> _]. unfold lift. eauto.
  - destruct (typed_array_constructor_of_total type) as (log & c & ->).
    unfold mbind, M_bind. cbn [outcome console].
    case_bool_decide; [eexists _, _; reflexivity|].
    destruct (is_native_endian_of _ _ _); [eexists _, _; reflexivity|].
    destruct (swapEndianessFast_bytes_total
                (ta_buffer (TypedArray_from host c value))
                (loop_bound (parseInt (char_at type 1)))) as (out & -> & _).
    eexists _, _; reflexivity.
Qed.

(** On a value of the shape its type asks for, [pack] returns a buffer. *)
Lemma pack_shaped (host : Platform) (type : string) (value : JSPrimitive) (args : list Z) :
  has_shape type value = true →
  ∃ log bytes, pack host type value args = Logged log (Ok bytes).
Proof.
  intros Hshape. unfold pack.
  destruct value as [s|b|n|a|b|]; cbn [has_shape] in Hshape; [| | | | |done].
  - apply orb_true_iff in Hshape as [->%String.eqb_eq | ->%String.eqb_eq];
      eexists _, _; reflexivity.
  - apply String.eqb_eq in Hshape as ->. eexists _, _; reflexivity.
  - apply andb_true_iff in Hshape as [Hname Harr].
    apply negb_true_iff in Hname, Harr. unfold named_type in Hname.
    apply orb_false_iff in Hname as [Hname H4].
    apply orb_false_iff in Hname as [Hname H3].
    apply orb_false_iff in Hname as [H1 H2].
    rewrite H1, H2, H3, H4, Harr. unfold lift. cbn [as_number].
    rewrite M_bind_Ok. apply encode_number_array_total.
  - apply andb_true_iff in Hshape as [Hname Harr].
    apply negb_true_iff in Hname. unfold named_type in Hname.
    apply orb_false_iff in Hname as [Hname H4].
    apply orb_false_iff in Hname as [Hname H3].
    apply orb_false_iff in Hname as [H1 H2].
    rewrite H1, H2, H3, H4, Harr. unfold lift. cbn [as_number_array].
    rewrite M_bind_Ok. apply encode_number_array_total.
  - apply String.eqb_eq in Hshape as ->. eexists _, _; reflexivity.
Qed.

(** X21. [writeTo] changes nothing outside the bytes it writes. For every
    type and every value of the shape the type asks for (a boolean for
    bool, a string for cstr and str, a [Uint8Array] for bytes, an array
    of numbers for an array type, a number for any other type), [pack]
    returns a buffer, and [writeTo] throws a [RangeError] when that
    buffer does not fit between the offset and the end of [buf], and
    returns otherwise: then the buffer has the length it had, the new
    offset is the offset plus the length of the packed buffer, every
    cell before the offset and every cell from the new offset on is as
    it was, the cells in between hold the packed bytes, and all cells
    are bytes. *)
Theorem writeTo_frame (host : Platform) (buf : list Z) (offset : nat) (type : string)
    (value : JSPrimitive) (args : list Z) :
  has_shape type value = true → Forall is_u8 buf →
  ∃ log bytes,
    pack host type value args = Logged log (Ok bytes) ∧
    ((length buf < offset + length bytes)%nat →
     writeTo host buf offset type value args = Logged log RangeError) ∧
    ((offset + length bytes ≤ length buf)%nat →
     ∃ buf',
       writeTo host buf offset type value args
         = Logged log (Ok (buf', Z.of_nat offset + Z.of_nat (length bytes))) ∧
       length buf' = length buf ∧
       (∀ i : nat, (i < offset)%nat ∨ (offset + length bytes ≤ i)%nat →
                   buf' !! i = buf !! i) ∧
       take (length bytes) (drop offset buf') = Uint8Array_from bytes ∧
       Forall is_u8 buf').
Proof.
  intros Hshape Hu8.
  destruct (pack_shaped host type value args Hshape) as (log & bytes & Hpack).
  exists log, bytes. split; [done|].
  unfold writeTo. rewrite Hpack. unfold mbind, M_bind, lift, Uint8Array_set.
  cbn [outcome console]. change (default 0%nat (Some offset)) with offset.
  split.
  - intros Hover. rewrite (proj2 (Nat.leb_gt _ _)) by lia.
    cbn [outcome console]. by rewrite app_nil_r.
  - intros Hfits. rewrite (proj2 (Nat.leb_le _ _)) by lia.
    cbn [outcome console]. rewrite !app_nil_r.
    pose proof (length_Uint8Array_from bytes) as Hlen.
    eexists. split; [reflexivity|]. split; [|split; [|split]].
    + rewrite !length_app, length_take, length_drop, Hlen. lia.
    + intros i [Hi|Hi].
      * rewrite lookup_app_l by (rewrite length_take; lia).
        by rewrite lookup_take_lt.
      * rewrite lookup_app_r by (rewrite length_take; lia).
        rewrite lookup_app_r by (rewrite length_take, Hlen; lia).
        rewrite lookup_drop, length_take, Hlen. f_equal. lia.
    + rewrite drop_app_length' by (rewrite length_take; lia).
      rewrite take_app_length' by done. done.
    + apply Forall_app. split; [by apply Forall_take|].
      apply Forall_app. split; [apply Uint8Array_from_is_u8|by apply Forall_drop].
Qed.

Lemma writeTo_frame_witness :
  ∃ log bytes,
    pack little_endian_host "u2l" (JNumber 258) [] = Logged log (Ok bytes) ∧
    ((length [9; 9; 9; 9; 9] < 1 + length bytes)%nat →
     writeTo little_endian_host [9; 9; 9; 9; 9] 1 "u2l" (JNumber 258) []
       = Logged log RangeError) ∧
    ((1 + length bytes ≤ length [9; 9; 9; 9; 9])%nat →
     ∃ buf',
       writeTo little_endian_host [9; 9; 9; 9; 9] 1 "u2l" (JNumber 258) []
         = Logged log (Ok (buf', Z.of_nat 1 + Z.of_nat (length bytes))) ∧
       length buf' = length [9; 9; 9; 9; 9] ∧
       (∀ i : nat, (i < 1)%nat ∨ (1 + length bytes ≤ i)%nat →
                   buf' !! i = [9; 9; 9; 9; 9] !! i) ∧
       take (length bytes) (drop 1 buf') = Uint8Array_from bytes ∧
       Forall is_u8 buf').
Proof.
  apply (writeTo_frame little_endian_host [9; 9; 9; 9; 9] 1 "u2l" (JNumber 258) []).
  - reflexivity.
  - apply (bool_decide_unpack _). vm_compute. exact I.
Defined.
